(** * k8deployer: the component/task orchestration engine

    A shallow embedding of [Component.cpp], [DeploymentComponent.cpp],
    [ServiceComponent.cpp] and [Cluster.cpp], and the properties of the
    engine's specification checked against it.

    Conventions of the embedding:
    - a C++ exception is a value of [result]: [Throw e] where the code throws;
    - [std::map<std::string, T>] is a [gmap string T], [std::set<T*>] a [gset];
    - objects held through [shared_ptr] / [weak_ptr] live in a store and are
      named by a handle; locking a [weak_ptr] is a lookup in the store;
    - recursion that the code bounds only by the shape of its data takes a
      fuel argument and returns [None] when it runs out. *)

From Stdlib Require Import Ascii String.
From stdpp Require Import gmap strings list fin_maps sorting.

Local Open Scope string_scope.

(** ** Exceptions *)

Inductive exn : Type :=
  | out_of_range
  | runtime_error (what : string).

Inductive result (A : Type) : Type :=
  | Ok (a : A)
  | Throw (e : exn).
Arguments Ok {A} a.
Arguments Throw {A} e.

(** ** Characters and strings *)

(** [s += ch] *)
Definition push_back (s : string) (ch : ascii) : string :=
  s +:+ String ch EmptyString.

Definition NUL : ascii := ascii_of_nat 0.
Definition TAB : ascii := ascii_of_nat 9.
Definition LF : ascii := ascii_of_nat 10.
Definition CR : ascii := ascii_of_nat 13.
Definition DQUOTE : ascii := ascii_of_nat 34.
Definition BACKSLASH_CHAR : ascii := ascii_of_nat 92.

(** [s.c_str()] read back as a C string: the characters before the first
    NUL. *)
Fixpoint c_str (s : string) : string :=
  match s with
  | EmptyString => EmptyString
  | String ch rest => if Ascii.eqb ch NUL then EmptyString else String ch (c_str rest)
  end.

(** [s.substr(0, key.size()) == key] *)
Fixpoint starts_with (key s : string) : bool :=
  match key, s with
  | EmptyString, _ => true
  | String k key', String ch s' => (Ascii.eqb k ch && starts_with key' s')%bool
  | String _ _, EmptyString => false
  end.

(** ** Kind registry *)

Module Kind.
Inductive t : Type :=
  | APP | JOB | DEPLOYMENT | STATEFULSET | SERVICE | CONFIGMAP | SECRET
  | PERSISTENTVOLUME | INGRESS | NAMESPACE | DAEMONSET | ROLE | CLUSTERROLE
  | ROLEBINDING | CLUSTERROLEBINDING | SERVICEACCOUNT.
End Kind.

Definition kinds_entries : list (string * Kind.t) :=
  [ ("App", Kind.APP);
    ("Job", Kind.JOB);
    ("Deployment", Kind.DEPLOYMENT);
    ("StatefulSet", Kind.STATEFULSET);
    ("Service", Kind.SERVICE);
    ("ConfigMap", Kind.CONFIGMAP);
    ("Secret", Kind.SECRET);
    ("PersitentVolume", Kind.PERSISTENTVOLUME);
    ("Ingress", Kind.INGRESS);
    ("Namespace", Kind.NAMESPACE);
    ("DaemonSet", Kind.DAEMONSET);
    ("Role", Kind.ROLE);
    ("ClusterRole", Kind.CLUSTERROLE);
    ("RoleBinding", Kind.ROLEBINDING);
    ("ClusterRoleBinding", Kind.CLUSTERROLEBINDING);
    ("ServiceAccount", Kind.SERVICEACCOUNT) ].

Definition kinds : gmap string Kind.t := list_to_map kinds_entries.

(** [kinds.at(kind)]: [std::map::at] throws [std::out_of_range] on a key
    that is not in the map. *)
Definition toKind (kind : string) : result Kind.t :=
  match kinds !! kind with
  | Some k => Ok k
  | None => Throw out_of_range
  end.

(** ** Typed argument accessors *)

Abbreviation conf_t := (gmap string string).

Definition getBoolArg (effectiveArgs_ : conf_t) (name : string)
  : result (option bool) :=
  match effectiveArgs_ !! name with
  | Some v =>
      if (String.eqb v "true" || String.eqb v "yes" || String.eqb v "1")%bool
      then Ok (Some true)
      else if (String.eqb v "false" || String.eqb v "no" || String.eqb v "0")%bool
      then Ok (Some false)
      else Throw (runtime_error
                    ("Argument " +:+ name +:+
                     " is not a boolean value (1|0|true|false|yes|no)"))
  | None => Ok None
  end.

Definition getArg (effectiveArgs_ : conf_t) (name : string) : option string :=
  effectiveArgs_ !! name.

(** The words [getBoolArg] accepts. *)
Definition is_bool_word (v : string) : Prop :=
  v ∈ ["true"; "yes"; "1"; "false"; "no"; "0"].

(** *** [getArgAsStringList] *)

Module SplitState.
Inductive t : Type := SKIPPING | IN_STRING | IN_QUOTED_STRING.
End SplitState.

Definition is_blank (ch : ascii) : bool :=
  (Ascii.eqb ch " " || Ascii.eqb ch TAB || Ascii.eqb ch CR || Ascii.eqb ch LF)%bool.

Definition is_quote (ch : ascii) : bool := Ascii.eqb ch "'".

(** The body of the [for] loop over the characters. [case IN_STRING] has no
    [break] after its test, so control falls into [case IN_QUOTED_STRING]:
    in an unquoted token the quote test runs as well. *)
Fixpoint getArgAsStringList_loop (values : string) (state : SplitState.t)
    (value : string) (rval : list string) : list string :=
  match values with
  | EmptyString =>
      if String.eqb value EmptyString then rval else rval ++ [value]
  | String ch rest =>
      let case_IN_QUOTED_STRING :=
        if is_quote ch
        then getArgAsStringList_loop rest SplitState.SKIPPING EmptyString (rval ++ [value])
        else getArgAsStringList_loop rest state (push_back value ch) rval in
      match state with
      | SplitState.SKIPPING =>
          if is_blank ch
          then getArgAsStringList_loop rest state value rval
          else if is_quote ch
          then getArgAsStringList_loop rest SplitState.IN_QUOTED_STRING value rval
          else getArgAsStringList_loop rest SplitState.IN_STRING (push_back value ch) rval
      | SplitState.IN_STRING =>
          if is_blank ch
          then getArgAsStringList_loop rest SplitState.SKIPPING EmptyString (rval ++ [value])
          else case_IN_QUOTED_STRING
      | SplitState.IN_QUOTED_STRING => case_IN_QUOTED_STRING
      end
  end.

Definition getArgAsStringList (values : string) : list string :=
  getArgAsStringList_loop values SplitState.SKIPPING EmptyString [].

(** The tokenizer as the specification words it: "quote characters only
    terminate quoted strings; spaces only terminate unquoted strings". It is
    the loop above with a [break] closing [case IN_STRING]. *)
Fixpoint stringList_spec_loop (values : string) (state : SplitState.t)
    (value : string) (rval : list string) : list string :=
  match values with
  | EmptyString =>
      if String.eqb value EmptyString then rval else rval ++ [value]
  | String ch rest =>
      match state with
      | SplitState.SKIPPING =>
          if is_blank ch
          then stringList_spec_loop rest state value rval
          else if is_quote ch
          then stringList_spec_loop rest SplitState.IN_QUOTED_STRING value rval
          else stringList_spec_loop rest SplitState.IN_STRING (push_back value ch) rval
      | SplitState.IN_STRING =>
          if is_blank ch
          then stringList_spec_loop rest SplitState.SKIPPING EmptyString (rval ++ [value])
          else stringList_spec_loop rest state (push_back value ch) rval
      | SplitState.IN_QUOTED_STRING =>
          if is_quote ch
          then stringList_spec_loop rest SplitState.SKIPPING EmptyString (rval ++ [value])
          else stringList_spec_loop rest state (push_back value ch) rval
      end
  end.

Definition stringList_spec (values : string) : list string :=
  stringList_spec_loop values SplitState.SKIPPING EmptyString [].

(** ** Variable expansion *)

Abbreviation variables_t := (gmap string string).

(** The process environment, as [getenv] reads it. *)
Definition environ : Type := string -> option string.

(** [getenv(name.c_str())] *)
Definition getenv (env : environ) (name : string) : option string :=
  env (c_str name).

Definition getVar (env : environ) (name : string) (vars : variables_t)
    (defaultValue : option string) : string :=
  match vars !! name with
  | Some v => v
  | None =>
      match getenv env name with
      | Some val => val
      | None =>
          match defaultValue with
          | Some d => d
          | None => EmptyString
          end
      end
  end.

Module ExpandState.
Inductive t : Type := COPY | BACKSLASH | DOLLAR | SCAN_NAME | SCAN_DEFAUT_VALUE.
End ExpandState.

(** [isalnum(ch, loc)] in the "C" locale *)
Definition isalnum (ch : ascii) : bool :=
  let n := nat_of_ascii ch in
  (Nat.leb 48 n && Nat.leb n 57 || Nat.leb 65 n && Nat.leb n 90
   || Nat.leb 97 n && Nat.leb n 122)%bool.

Definition is_name_char (ch : ascii) : bool :=
  (isalnum ch || Ascii.eqb ch "." || Ascii.eqb ch "_")%bool.

(** [*evar] where [evar] is the [char*] that [getenv] returned: its first
    character (the terminating NUL when the value is empty). *)
Definition deref_char (val : string) : ascii :=
  match val with
  | String ch _ => ch
  | EmptyString => NUL
  end.

(** The first statement under the [commit] label: a default that begins with
    '$' and names a set environment variable is overwritten by the assignment
    [*defaultValue = *evar], which assigns one [char] to the string. *)
Definition commit_default (env : environ) (defaultValue : option string)
  : option string :=
  match defaultValue with
  | Some (String "$" rest) =>
      match getenv env rest with
      | Some val => Some (String (deref_char val) EmptyString)
      | None => defaultValue
      end
  | _ => defaultValue
  end.

Definition expand_error : exn := runtime_error "Error expanding macro".

Fixpoint expandVariables_loop (env : environ) (vars : variables_t)
    (json : string) (state : ExpandState.t) (expanded varName : string)
    (defaultValue : option string) : result string :=
  match json with
  | EmptyString =>
      match state with
      | ExpandState.COPY => Ok expanded
      | _ => Throw expand_error
      end
  | String ch rest =>
      let commit :=
        if Ascii.eqb ch "}"
        then
          let defaultValue := commit_default env defaultValue in
          expandVariables_loop env vars rest ExpandState.COPY
            (expanded +:+ getVar env varName vars defaultValue)
            varName defaultValue
        else Throw expand_error in
      match state with
      | ExpandState.COPY =>
          if Ascii.eqb ch BACKSLASH_CHAR
          then expandVariables_loop env vars rest ExpandState.BACKSLASH
                 expanded varName defaultValue
          else if Ascii.eqb ch "$"
          then expandVariables_loop env vars rest ExpandState.DOLLAR
                 expanded varName defaultValue
          else expandVariables_loop env vars rest state
                 (push_back expanded ch) varName defaultValue
      | ExpandState.BACKSLASH =>
          let expanded :=
            if Ascii.eqb ch "$" then expanded
            else push_back expanded BACKSLASH_CHAR in
          expandVariables_loop env vars rest ExpandState.COPY
            (push_back expanded ch) varName defaultValue
      | ExpandState.DOLLAR =>
          if Ascii.eqb ch "{"
          then expandVariables_loop env vars rest ExpandState.SCAN_NAME
                 expanded EmptyString None
          else expandVariables_loop env vars rest ExpandState.COPY
                 (push_back (push_back expanded "$") ch) varName defaultValue
      | ExpandState.SCAN_NAME =>
          if is_name_char ch
          then expandVariables_loop env vars rest state
                 expanded (push_back varName ch) defaultValue
          else if Ascii.eqb ch ","
          then expandVariables_loop env vars rest ExpandState.SCAN_DEFAUT_VALUE
                 expanded varName (Some EmptyString)
          else commit
      | ExpandState.SCAN_DEFAUT_VALUE =>
          if Ascii.eqb ch "}"
          then commit
          else
            let escaped d :=
              if Ascii.eqb ch DQUOTE then push_back d BACKSLASH_CHAR else d in
            expandVariables_loop env vars rest state expanded varName
              ((fun d => push_back (escaped d) ch) <$> defaultValue)
      end
  end.

Definition expandVariables (env : environ) (json : string) (vars : variables_t)
  : result string :=
  expandVariables_loop env vars json ExpandState.COPY EmptyString EmptyString None.

(** What a default value looks like once scanned: each double quote gets a
    backslash in front. *)
Fixpoint escape_quotes (d : string) : string :=
  match d with
  | EmptyString => EmptyString
  | String ch rest =>
      if Ascii.eqb ch DQUOTE
      then String BACKSLASH_CHAR (String ch (escape_quotes rest))
      else String ch (escape_quotes rest)
  end.


Fixpoint has_char (a : ascii) (s : string) : bool :=
  match s with
  | EmptyString => false
  | String c rest => (Ascii.eqb c a || has_char a rest)%bool
  end.




Definition all_name_chars (s : string) : Prop :=
  Forall (fun ch => is_name_char ch = true) (list_ascii_of_string s).

(** The resolution order as the specification words it: the variable map,
    then the given default, then the process environment, then empty. *)
Definition resolve_spec (env : environ) (name : string) (vars : variables_t)
    (defaultValue : option string) : string :=
  match vars !! name with
  | Some v => v
  | None =>
      match defaultValue with
      | Some d => d
      | None =>
          match env name with
          | Some val => val
          | None => EmptyString
          end
      end
  end.

(** The order in which the code resolves a name. *)
Definition resolve_code (env : environ) (name : string) (vars : variables_t)
    (defaultValue : option string) : string :=
  match vars !! name with
  | Some v => v
  | None =>
      match env name with
      | Some val => val
      | None => default EmptyString defaultValue
      end
  end.

(** A process environment with the single variable [PORT=9090]. *)
Definition env_PORT : environ :=
  fun name => if String.eqb name "PORT" then Some "9090" else None.


(** ** The component tree and the task list *)

(** Components and tasks are heap objects; a handle names each. *)
Abbreviation cid := nat (only parsing).
Abbreviation tid := nat (only parsing).

(** Modelled from the spec: the enumerators of [Component::State] and of
    [Mode], and their order, are declared in [Component.h], which is not
    among the sources; the specification lists them as CREATING, RUNNING,
    DONE, FAILED and CREATE, REMOVE, and the comparisons in [evaluate] and
    [setState] agree with that order. *)
Module State.
Inductive t : Type := CREATING | RUNNING | DONE | FAILED.

Definition to_nat (s : t) : nat :=
  match s with CREATING => 0 | RUNNING => 1 | DONE => 2 | FAILED => 3 end.

Definition eqb (a b : t) : bool := Nat.eqb (to_nat a) (to_nat b).
Definition ltb (a b : t) : bool := Nat.ltb (to_nat a) (to_nat b).
Definition leb (a b : t) : bool := Nat.leb (to_nat a) (to_nat b).
End State.

Module Mode.
Inductive t : Type := CREATE | REMOVE.
End Mode.

(** The task states, in the order of the name table of [Task::toString]. *)
Module TaskState.
Inductive t : Type :=
  | PRE | BLOCKED | READY | EXECUTING | WAITING | DONE
  | ABORTED | FAILED | DEPENDENCY_FAILED.

Definition to_nat (s : t) : nat :=
  match s with
  | PRE => 0 | BLOCKED => 1 | READY => 2 | EXECUTING => 3 | WAITING => 4
  | DONE => 5 | ABORTED => 6 | FAILED => 7 | DEPENDENCY_FAILED => 8
  end.

Definition eqb (a b : t) : bool := Nat.eqb (to_nat a) (to_nat b).
Definition ltb (a b : t) : bool := Nat.ltb (to_nat a) (to_nat b).
Definition leb (a b : t) : bool := Nat.leb (to_nat a) (to_nat b).
End TaskState.

Module Component.
Record t : Type := mk {
  name : string;
  kind_ : Kind.t;
  args : conf_t;
  defaultArgs : conf_t;
  parent_ : option cid;          (* weak_ptr to the parent *)
  children_ : list cid;
  dependsOn_ : list cid;         (* weak_ptrs *)
  mode_ : Mode.t;
  state_ : State.t;
  tasks_ : option (list tid);    (* unique_ptr to the task list *)
  executionPromise_ : bool;      (* whether a promise is held *)
  startTime : option nat;
  elapsed : option nat;
  metadata_namespace_ : string;  (* the payload's metadata.namespace_ *)
  spec_replicas : nat;           (* deployment.spec.replicas *)
  podsStarted_ : nat
}.

Definition with_state_ (s : State.t) (c : t) : t :=
  mk (name c) (kind_ c) (args c) (defaultArgs c) (parent_ c) (children_ c)
     (dependsOn_ c) (mode_ c) s (tasks_ c) (executionPromise_ c)
     (startTime c) (elapsed c) (metadata_namespace_ c)
     (spec_replicas c) (podsStarted_ c).

Definition with_executionPromise_ (p : bool) (c : t) : t :=
  mk (name c) (kind_ c) (args c) (defaultArgs c) (parent_ c) (children_ c)
     (dependsOn_ c) (mode_ c) (state_ c) (tasks_ c) p
     (startTime c) (elapsed c) (metadata_namespace_ c)
     (spec_replicas c) (podsStarted_ c).

Definition with_startTime (s : option nat) (c : t) : t :=
  mk (name c) (kind_ c) (args c) (defaultArgs c) (parent_ c) (children_ c)
     (dependsOn_ c) (mode_ c) (state_ c) (tasks_ c) (executionPromise_ c)
     s (elapsed c) (metadata_namespace_ c)
     (spec_replicas c) (podsStarted_ c).

Definition with_elapsed (e : option nat) (c : t) : t :=
  mk (name c) (kind_ c) (args c) (defaultArgs c) (parent_ c) (children_ c)
     (dependsOn_ c) (mode_ c) (state_ c) (tasks_ c) (executionPromise_ c)
     (startTime c) e (metadata_namespace_ c)
     (spec_replicas c) (podsStarted_ c).

Definition with_dependsOn_ (d : list cid) (c : t) : t :=
  mk (name c) (kind_ c) (args c) (defaultArgs c) (parent_ c) (children_ c)
     d (mode_ c) (state_ c) (tasks_ c) (executionPromise_ c)
     (startTime c) (elapsed c) (metadata_namespace_ c)
     (spec_replicas c) (podsStarted_ c).

Definition with_podsStarted_ (n : nat) (c : t) : t :=
  mk (name c) (kind_ c) (args c) (defaultArgs c) (parent_ c) (children_ c)
     (dependsOn_ c) (mode_ c) (state_ c) (tasks_ c) (executionPromise_ c)
     (startTime c) (elapsed c) (metadata_namespace_ c)
     (spec_replicas c) n.
End Component.

Module Task.
Record t : Type := mk {
  component_ : cid;              (* the owning component *)
  name_ : string;
  state_ : TaskState.t;
  dependencies_ : list tid       (* weak_ptrs *)
}.

Definition with_state_ (s : TaskState.t) (k : t) : t :=
  mk (component_ k) (name_ k) s (dependencies_ k).
End Task.

(** A closure posted to the io_service of the cluster's client: a call of
    [runTasks] on the root, scheduled by [self], or the coroutine of a
    request that [client().Process] starts. *)
Inductive Job : Type :=
  | JobRunTasks (self root : cid)
  | JobDoDeploy (self : cid) (task : tid).

Inductive HttpMethod : Type := HttpPOST | HttpDELETE.

(** What one cluster's executor sees: the objects, whether the cluster is in
    state EXECUTING, the closures posted and not yet run, the requests sent,
    the reading of the steady clock, and the components whose promise was
    fulfilled. *)
Record World : Type := mkWorld {
  components : gmap cid Component.t;
  tasks : gmap tid Task.t;
  cluster_executing : bool;
  io_queue : list Job;
  requests : list (HttpMethod * string);
  clock : nat;
  fulfilled : list cid
}.

Definition with_components (cs : gmap cid Component.t) (w : World) : World :=
  mkWorld cs (tasks w) (cluster_executing w) (io_queue w) (requests w)
          (clock w) (fulfilled w).

Definition with_tasks (ts : gmap tid Task.t) (w : World) : World :=
  mkWorld (components w) ts (cluster_executing w) (io_queue w) (requests w)
          (clock w) (fulfilled w).

Definition post (j : Job) (w : World) : World :=
  mkWorld (components w) (tasks w) (cluster_executing w) (io_queue w ++ [j])
          (requests w) (clock w) (fulfilled w).

Definition send (m : HttpMethod) (url : string) (w : World) : World :=
  mkWorld (components w) (tasks w) (cluster_executing w) (io_queue w)
          (requests w ++ [(m, url)]) (clock w) (fulfilled w).

Definition fulfil (c : cid) (w : World) : World :=
  mkWorld (components w) (tasks w) (cluster_executing w) (io_queue w)
          (requests w) (clock w) (fulfilled w ++ [c]).

(** [parent_.lock()]: the parent, if the component has one that is alive. *)
Definition parentPtr (cs : gmap cid Component.t) (this : cid) : option cid :=
  c ← cs !! this;
  p ← Component.parent_ c;
  _ ← cs !! p;
  Some p.

(** *** Argument merge *)

(** [for (auto p = this; p != nullptr; p = p->parentPtr())] *)
Fixpoint getPathToRoot_loop (fuel : nat) (cs : gmap cid Component.t)
    (p : cid) : option (list cid) :=
  match fuel with
  | O => None
  | S fuel =>
      match parentPtr cs p with
      | Some q => (p ::.) <$> getPathToRoot_loop fuel cs q
      | None => Some [p]
      end
  end.

(** A chain of live parents that does not loop is no longer than the store
    has objects, so this fuel is enough exactly when the loop ends. *)
Definition getPathToRoot (cs : gmap cid Component.t) (this : cid)
  : option (list cid) :=
  getPathToRoot_loop (S (size cs)) cs this.

Definition is_accumulated (k : string) : bool :=
  (String.eqb k "pod.args" || String.eqb k "pod.env")%bool.

(** [auto& m = merged[k]; if (!m.empty()) m += " "; m += v;] *)
Definition concat_arg (m : option string) (v : string) : string :=
  match m with
  | Some (String a m') => String a m' +:+ " " +:+ v
  | _ => v
  end.

(** The body of the inner loop of [mergeArgs], for one entry of a node's
    [defaultArgs]. *)
Definition merge_entry (k v : string) (merged : conf_t) : conf_t :=
  if is_accumulated k
  then <[k := concat_arg (merged !! k) v]> merged
  else
    match merged !! k with
    | Some _ => merged
    | None => <[k := v]> merged
    end.

Definition merge_node (cs : gmap cid Component.t) (merged : conf_t)
    (node : cid) : conf_t :=
  match cs !! node with
  | Some n => map_fold merge_entry merged (Component.defaultArgs n)
  | None => merged
  end.

Definition mergeArgs (cs : gmap cid Component.t) (this : cid)
  : option conf_t :=
  c ← cs !! this;
  path ← getPathToRoot cs this;
  Some (foldl (merge_node cs) (Component.args c) path).

(** What one node does to the value of one key. *)
Definition merged_value (k : string) (acc dv : option string)
  : option string :=
  match dv with
  | None => acc
  | Some v =>
      if is_accumulated k then Some (concat_arg acc v)
      else match acc with Some x => Some x | None => Some v end
  end.

(** The values of key [k] in the [defaultArgs] of the nodes of [path]. *)
Definition defaults_on_path (cs : gmap cid Component.t) (path : list cid)
    (k : string) : list string :=
  omap (fun node => n ← cs !! node; Component.defaultArgs n !! k) path.

(** [path] is the chain of live parents from [this] to the root. *)
Inductive path_to_root (cs : gmap cid Component.t)
  : cid -> list cid -> Prop :=
  | path_root this :
      parentPtr cs this = None -> path_to_root cs this [this]
  | path_step this p path :
      parentPtr cs this = Some p ->
      path_to_root cs p path ->
      path_to_root cs this (this :: path).

(** The merged value of an accumulated key as the specification words it:
    the local value, then the values of the ancestors, root first, joined by
    single spaces between the non-empty parts. *)
Definition join_nonempty (parts : list string) : string :=
  foldl (fun acc v =>
           if String.eqb v EmptyString then acc
           else if String.eqb acc EmptyString then v
           else acc +:+ " " +:+ v)
        EmptyString parts.

Definition accumulated_spec (cs : gmap cid Component.t) (c : Component.t)
    (path : list cid) (k : string) : string :=
  join_nonempty (default EmptyString (Component.args c !! k)
                 :: reverse (defaults_on_path cs (tail path) k)).

(** A component with the given place in the tree and arguments, and nothing
    else set: for building trees to evaluate the code on. *)
Definition plain_component (name : string) (kind : Kind.t)
    (parent : option cid) (children : list cid)
    (args defaultArgs : conf_t) : Component.t :=
  Component.mk name kind args defaultArgs parent children [] Mode.CREATE
    State.CREATING None false None None EmptyString 0 0.

(** A root [app] whose [defaultArgs] give [pod.args = g], its child [mid]
    whose [defaultArgs] give [pod.args = p], and the grandchild [leaf] with
    the local argument [pod.args = a]. *)
Definition args_tree : gmap cid Component.t :=
  <[0 := plain_component "app" Kind.APP None [1] ∅ {["pod.args" := "g"]}]>
  (<[1 := plain_component "mid" Kind.APP (Some 0) [2] ∅ {["pod.args" := "p"]}]>
  (<[2 := plain_component "leaf" Kind.DEPLOYMENT (Some 1) []
            {["pod.args" := "a"]} ∅]> ∅)).

(** ** Dependencies between components *)

(** One [dependsOn_] edge: [y] is listed by [x] and alive. *)
Definition edge (cs : gmap cid Component.t) (x y : cid) : Prop :=
  exists c, cs !! x = Some c /\ y ∈ Component.dependsOn_ c /\ is_Some (cs !! y).

(** [x] transitively depends on [y]. *)
Definition dependsOnClosure (cs : gmap cid Component.t) : relation cid :=
  tc (edge cs).

Definition acyclic (cs : gmap cid Component.t) : Prop :=
  forall x, ~ dependsOnClosure cs x x.

(** What a search that returns [R] from [contains] has done for the objects
    [start]: it only adds, it reaches every start object, every object it
    adds has all its dependencies in the result, and every object it adds is
    reachable from a start object. *)
Definition searched (cs : gmap cid Component.t) (start : cid -> Prop)
    (contains R : gset cid) : Prop :=
  contains ⊆ R
  /\ (forall y, start y -> y ∈ R)
  /\ (forall v, v ∈ R -> v ∉ contains -> forall y, edge cs v y -> y ∈ R)
  /\ (forall v, v ∈ R -> v ∉ contains -> exists s, start s /\ rtc (edge cs) s v).

(** The loop of [addDependenciesRecursively] over [dependsOn_], with the
    recursive call as [visit]. *)
Fixpoint visit_dependencies (visit : cid -> gset cid -> option (gset cid))
    (cs : gmap cid Component.t) (ws : list cid) (contains : gset cid)
  : option (gset cid) :=
  match ws with
  | [] => Some contains
  | w :: ws =>
      match cs !! w with
      | Some _ =>
          if decide (w ∈ contains)
          then visit_dependencies visit cs ws contains
          else
            contains ← visit w ({[w]} ∪ contains);
            visit_dependencies visit cs ws contains
      | None => visit_dependencies visit cs ws contains
      end
  end.

Fixpoint addDependenciesRecursively (fuel : nat) (cs : gmap cid Component.t)
    (this : cid) (contains : gset cid) : option (gset cid) :=
  match fuel with
  | O => None
  | S fuel =>
      match cs !! this with
      | Some c =>
          visit_dependencies (addDependenciesRecursively fuel cs) cs
            (Component.dependsOn_ c) contains
      | None => Some contains
      end
  end.

(** [this->addDependency(component)]. Every recursive call of the search
    adds an object to the set, so one more unit of fuel than there are
    objects is enough. *)
Definition addDependency (cs : gmap cid Component.t) (this component : cid)
  : option (result (gmap cid Component.t)) :=
  if decide (component = this)
  then Some (Throw (runtime_error "Cannot depend on myself!"))
  else
    deps ← addDependenciesRecursively (S (size cs)) cs component ∅;
    if decide (this ∈ deps)
    then Some (Throw (runtime_error "Circular dependency"))
    else
      c ← cs !! this;
      if existsb (fun w => bool_decide (is_Some (cs !! w) /\ w = component))
           (Component.dependsOn_ c)
      then Some (Ok cs)
      else Some (Ok (<[this :=
                        Component.with_dependsOn_
                          (Component.dependsOn_ c ++ [component]) c]> cs)).

(** A sequence of insertions, each of which succeeds. *)
Fixpoint addDependencies (cs : gmap cid Component.t)
    (es : list (cid * cid)) : option (gmap cid Component.t) :=
  match es with
  | [] => Some cs
  | (src, dst) :: es =>
      match addDependency cs src dst with
      | Some (Ok cs) => addDependencies cs es
      | _ => None
      end
  end.

(** ** Component state *)

Definition isBlockedOnDependency (cs : gmap cid Component.t)
    (c : Component.t) : bool :=
  match Component.mode_ c with
  | Mode.CREATE =>
      existsb (fun wcomp =>
                 match cs !! wcomp with
                 | Some comp => negb (State.eqb (Component.state_ comp) State.DONE)
                 | None => false
                 end)
              (Component.dependsOn_ c)
  | Mode.REMOVE => false
  end.

Fixpoint getRoot_loop (fuel : nat) (cs : gmap cid Component.t) (root : cid)
  : option cid :=
  match fuel with
  | O => None
  | S fuel =>
      match parentPtr cs root with
      | Some p => getRoot_loop fuel cs p
      | None => Some root
      end
  end.

Definition getRoot (cs : gmap cid Component.t) (this : cid) : option cid :=
  getRoot_loop (S (size cs)) cs this.

Definition startElapsedTimer (now : nat) (c : Component.t) : Component.t :=
  match Component.startTime c with
  | Some _ => c
  | None => Component.with_startTime (Some now) c
  end.

Definition calculateElapsed (now : nat) (c : Component.t) : Component.t :=
  match Component.startTime c with
  | Some started => Component.with_elapsed (Some (now - started)) c
  | None => c
  end.

(** The loop of [evaluate] over the tasks of the root, up to its [break]:
    [state_] is the state of the component while the loop runs. The last
    component of the result tells whether the loop stopped at the call
    [setState(State::FAILED)]. *)
Fixpoint evaluate_tasks (ts : gmap tid Task.t) (this : cid) (state_ : State.t)
    (t : list tid) (allDone : bool) (numTasks : nat) (newState : State.t)
  : bool * nat * State.t * bool :=
  match t with
  | [] => (allDone, numTasks, newState, false)
  | id :: t =>
      match ts !! id with
      | Some task =>
          if negb (Nat.eqb (Task.component_ task) this)
          then evaluate_tasks ts this state_ t allDone numTasks newState
          else
            let numTasks := S numTasks in
            let newState :=
              if (TaskState.leb TaskState.BLOCKED (Task.state_ task)
                  && State.eqb state_ State.CREATING)%bool
              then State.RUNNING else newState in
            let allDone :=
              if TaskState.eqb (Task.state_ task) TaskState.DONE
              then allDone else false in
            if (TaskState.ltb TaskState.DONE (Task.state_ task)
                && State.ltb state_ State.FAILED)%bool
            then (allDone, numTasks, newState, true)
            else evaluate_tasks ts this state_ t allDone numTasks newState
      | None => evaluate_tasks ts this state_ t allDone numTasks newState
      end
  end.

(** The loop of [evaluate] over the children: [None] when it meets a failed
    child, otherwise [blockedOnChild]. *)
Fixpoint evaluate_children (cs : gmap cid Component.t) (children : list cid)
    (blockedOnChild : bool) : option bool :=
  match children with
  | [] => Some blockedOnChild
  | ch :: children =>
      match cs !! ch with
      | Some child =>
          if negb (State.eqb (Component.state_ child) State.DONE)
          then
            if State.ltb State.DONE (Component.state_ child)
            then None
            else evaluate_children cs children true
          else evaluate_children cs children blockedOnChild
      | None => evaluate_children cs children blockedOnChild
      end
  end.

(** [scheduleRunTasks], with [evaluate] as a parameter. *)
Definition scheduleRunTasks_with (evaluate : World -> cid -> option World)
    (w : World) (this : cid) : option World :=
  if negb (cluster_executing w) then Some w
  else
    w ← evaluate w this;
    root ← getRoot (components w) this;
    Some (post (JobRunTasks this root) w).

(** The body of [Component::evaluate], with [setState] as a parameter. *)
Definition Component_evaluate_body
    (setState : World -> cid -> State.t -> option World)
    (w : World) (this : cid) : option World :=
  c ← components w !! this;
  root ← getRoot (components w) this;
  rc ← components w !! root;
  match Component.tasks_ rc with
  | None => Some w
  | Some t =>
      let '(allDone, numTasks, newState, failed) :=
        evaluate_tasks (tasks w) this (Component.state_ c) t
          true 0 State.CREATING in
      w ← (if failed then setState w this State.FAILED else Some w);
      c ← components w !! this;
      let last_test :=
        if (negb (Nat.eqb numTasks 0)
            && State.ltb (Component.state_ c) newState)%bool
        then setState w this newState
        else Some w in
      if allDone
      then
        match evaluate_children (components w) (Component.children_ c) false with
        | None => setState w this State.FAILED
        | Some blockedOnChild =>
            if isBlockedOnDependency (components w) c then Some w
            else if negb blockedOnChild then setState w this State.DONE
            else last_test
        end
      else last_test
  end.

(** [Component::setState] from its first test to the assignment
    [state_ = state]: the elapsed time, the promise and the new state. *)
Definition Component_setState_write (w : World) (this : cid)
    (c : Component.t) (state : State.t) : World :=
  let '(c, w) :=
    if State.eqb state State.DONE
    then
      let c := calculateElapsed (clock w) c in
      if Component.executionPromise_ c
      then (Component.with_executionPromise_ false c, fulfil this w)
      else (c, w)
    else (c, w) in
  let c :=
    if State.eqb state State.FAILED then calculateElapsed (clock w) c
    else c in
  with_components (<[this := Component.with_state_ state c]> (components w)) w.

(** The body of [Component::setState], with [evaluate] as a parameter. *)
Definition Component_setState_body
    (evaluate : World -> cid -> option World)
    (w : World) (this : cid) (state : State.t) : option World :=
  c ← components w !! this;
  if State.eqb state (Component.state_ c) then Some w
  else
    let w := Component_setState_write w this c state in
    if State.leb State.RUNNING state
    then
      match parentPtr (components w) this with
      | Some parent =>
          w ← evaluate w parent;
          scheduleRunTasks_with evaluate w this
      | None => Some w
      end
    else Some w.

(** [evaluate] and [setState] call each other; the depth of the calls is
    bounded by [fuel]. *)
Fixpoint Component_evaluate (fuel : nat) : World -> cid -> option World :=
  match fuel with
  | O => fun _ _ => None
  | S fuel => Component_evaluate_body (Component_setState fuel)
  end
with Component_setState (fuel : nat) : World -> cid -> State.t -> option World :=
  match fuel with
  | O => fun _ _ _ => None
  | S fuel => Component_setState_body (Component_evaluate fuel)
  end.

Definition Component_scheduleRunTasks (fuel : nat) (w : World) (this : cid)
  : option World :=
  scheduleRunTasks_with (Component_evaluate fuel) w this.

(** ** Tasks *)

(** Modelled from the spec: the default value of the [scheduleRunTasks]
    parameter of [Task::setState] is declared in [Component.h], which is not
    among the sources; the specification names "a task setState with
    scheduleRunTasks=true" as an entry point of the scheduler, and the calls
    that must not schedule pass [false]. *)
Definition Task_setState_scheduleRunTasks_default : bool := true.

(** Modelled from the spec: [Task::isMonitoring] is defined in
    [Component.h]; the specification has a pod-producing task wait for
    events in state WAITING. *)
Definition Task_isMonitoring (task : Task.t) : bool :=
  TaskState.eqb (Task.state_ task) TaskState.WAITING.

(** Modelled from the spec: [Task::mode] is defined in [Component.h]; a
    task runs in the mode of its component. *)
Definition Task_mode (cs : gmap cid Component.t) (task : Task.t)
  : option Mode.t :=
  Component.mode_ <$> cs !! Task.component_ task.

Definition Task_setState (fuel : nat) (w : World) (this : tid)
    (state : TaskState.t) (scheduleRunTasks : bool) : option World :=
  task ← tasks w !! this;
  let changed := negb (TaskState.eqb (Task.state_ task) state) in
  let w := with_tasks (<[this := Task.with_state_ state task]> (tasks w)) w in
  let w :=
    if (changed && TaskState.eqb state TaskState.EXECUTING)%bool
    then with_components
           (alter (startElapsedTimer (clock w)) (Task.component_ task)
                  (components w)) w
    else w in
  if (changed && scheduleRunTasks)%bool
  then Component_scheduleRunTasks fuel w (Task.component_ task)
  else Some w.

(** The loop of [Task::evaluate] over the dependencies: [None] when it meets
    a dependency at or beyond ABORTED, otherwise [blocked]. *)
Fixpoint evaluate_dependencies (ts : gmap tid Task.t) (deps : list tid)
    (blocked : bool) : option bool :=
  match deps with
  | [] => Some blocked
  | dep :: deps =>
      match ts !! dep with
      | Some dt =>
          let blocked :=
            if TaskState.eqb (Task.state_ dt) TaskState.DONE then blocked
            else true in
          if TaskState.leb TaskState.ABORTED (Task.state_ dt)
          then None
          else evaluate_dependencies ts deps blocked
      | None => evaluate_dependencies ts deps blocked
      end
  end.

Definition Task_evaluate (fuel : nat) (w : World) (this : tid)
  : option (World * bool) :=
  task ← tasks w !! this;
  let changed := TaskState.eqb (Task.state_ task) TaskState.PRE in
  let task :=
    if changed then Task.with_state_ TaskState.BLOCKED task else task in
  let w :=
    if changed then with_tasks (<[this := task]> (tasks w)) w else w in
  if TaskState.eqb (Task.state_ task) TaskState.BLOCKED
  then
    mode ← Task_mode (components w) task;
    '(w, onDependency) ←
      match mode with
      | Mode.CREATE =>
          w ← Component_evaluate fuel w (Task.component_ task);
          c ← components w !! Task.component_ task;
          Some (w, isBlockedOnDependency (components w) c)
      | Mode.REMOVE => Some (w, false)
      end;
    if (onDependency : bool) then Some (w, changed)
    else
      match evaluate_dependencies (tasks w) (Task.dependencies_ task) false with
      | None =>
          w ← Task_setState fuel w this TaskState.DEPENDENCY_FAILED false;
          Some (w, true)
      | Some blocked =>
          if negb blocked
          then
            w ← Task_setState fuel w this TaskState.READY false;
            w ← Component_evaluate fuel w (Task.component_ task);
            Some (w, true)
          else Some (w, changed)
      end
  else Some (w, changed).

(** The outcome of [Task::evaluate] as the specification words it, given
    whether the owning component is blocked on a [dependsOn] component and
    the states of the task's dependencies: the new state of the task and
    the value returned. *)
Definition Task_evaluate_spec (onDependency : bool)
    (deps : list TaskState.t) (state : TaskState.t) : TaskState.t * bool :=
  match state with
  | TaskState.PRE | TaskState.BLOCKED =>
      let changed := TaskState.eqb state TaskState.PRE in
      if onDependency then (TaskState.BLOCKED, changed)
      else if existsb (TaskState.leb TaskState.ABORTED) deps
      then (TaskState.DEPENDENCY_FAILED, true)
      else if forallb (fun s => TaskState.eqb s TaskState.DONE) deps
      then (TaskState.READY, true)
      else (TaskState.BLOCKED, changed)
  | _ => (state, false)
  end.

(** The states of the dependencies that are alive. *)
Definition dependency_states (ts : gmap tid Task.t) (task : Task.t)
  : list TaskState.t :=
  omap (fun dep => Task.state_ <$> ts !! dep) (Task.dependencies_ task).

(** ** Requests *)

(** What [Execute] does in a request coroutine: it returns a reply, or
    throws [RequestFailedWithErrorException] with the status of the
    response, or throws another exception. *)
Inductive HttpOutcome : Type :=
  | HttpReply (code : nat)
  | RequestFailedWithErrorException (status_code : nat)
  | OtherException.

(** [if (auto taskInstance = task.lock()) taskInstance->setState(state);] *)
Definition setState_if_alive (fuel : nat) (w : World) (task : tid)
    (state : TaskState.t) : option World :=
  match tasks w !! task with
  | Some _ =>
      Task_setState fuel w task state Task_setState_scheduleRunTasks_default
  | None => Some w
  end.

(** The coroutine that [sendDelete] hands to [client().Process], run with
    the outcome of the request. *)
Definition sendDelete (fuel : nat) (w : World) (this : cid) (url : string)
    (task : tid) (ignoreErrors : bool) (outcome : HttpOutcome)
  : option World :=
  let w := send HttpDELETE url w in
  let failed w :=
    w ← setState_if_alive fuel w task
          (if ignoreErrors then TaskState.DONE else TaskState.FAILED);
    if negb ignoreErrors then Component_setState fuel w this State.FAILED
    else Some w in
  match outcome with
  | HttpReply _ => setState_if_alive fuel w task TaskState.DONE
  | RequestFailedWithErrorException status_code =>
      if Nat.eqb status_code 404
      then setState_if_alive fuel w task TaskState.DONE
      else failed w
  | OtherException => failed w
  end.

(** The coroutine of [ServiceComponent::doDeploy]. *)
Definition ServiceComponent_doDeploy (fuel : nat) (w : World) (this : cid)
    (url : string) (task : tid) (outcome : HttpOutcome) : option World :=
  let w := send HttpPOST url w in
  match outcome with
  | HttpReply _ =>
      w ← setState_if_alive fuel w task TaskState.DONE;
      c ← components w !! this;
      if State.eqb (Component.state_ c) State.RUNNING
      then Component_setState fuel w this State.DONE
      else Some w
  | _ =>
      w ← setState_if_alive fuel w task TaskState.FAILED;
      c ← components w !! this;
      if State.eqb (Component.state_ c) State.RUNNING
      then Component_setState fuel w this State.FAILED
      else Some w
  end.

(** The coroutine of [DeploymentComponent::doDeploy]. *)
Definition DeploymentComponent_doDeploy (fuel : nat) (w : World) (this : cid)
    (url : string) (task : tid) (outcome : HttpOutcome) : option World :=
  let w := send HttpPOST url w in
  match outcome with
  | HttpReply _ => Some w
  | _ =>
      w ← setState_if_alive fuel w task TaskState.FAILED;
      Component_setState fuel w this State.FAILED
  end.

(** ** Events *)

Module Event.
Record t : Type := mk {
  involvedObject_kind : string;
  involvedObject_name : string;
  metadata_namespace_ : string;
  metadata_name : string;
  reason : string;
  message : string
}.
End Event.

(** The closure that [DeploymentComponent::addTasks] gives its task; [this]
    is the component and [task] the task the closure is called on. *)
Definition DeploymentComponent_task (fuel : nat) (w : World) (this : cid)
    (task : tid) (event : option Event.t) : option World :=
  let setState w state :=
    Task_setState fuel w task state Task_setState_scheduleRunTasks_default in
  t ← tasks w !! task;
  (* Execution? *)
  w ← (if TaskState.eqb (Task.state_ t) TaskState.READY
       then
         w ← setState w TaskState.EXECUTING;
         w ← setState (post (JobDoDeploy this task) w) TaskState.WAITING;
         Some w
       else Some w);
  (* Monitoring? *)
  t ← tasks w !! task;
  c ← components w !! this;
  w ← match event with
      | Some event =>
          let key := Component.name c +:+ "-" in
          if (Task_isMonitoring t
              && String.eqb (Event.involvedObject_kind event) "Pod"
              && starts_with key (Event.involvedObject_name event)
              && String.eqb (Event.metadata_namespace_ event)
                   (Component.metadata_namespace_ c)
              && starts_with key (Event.metadata_name event)
              && String.eqb (Event.reason event) "Created")%bool
          then
            let podsStarted_ := S (Component.podsStarted_ c) in
            let w :=
              with_components
                (<[this := Component.with_podsStarted_ podsStarted_ c]>
                   (components w)) w in
            if Nat.leb (Component.spec_replicas c) podsStarted_
            then
              w ← setState w TaskState.DONE;
              Component_setState fuel w this State.DONE
            else Some w
          else Some w
      | None => Some w
      end;
  fst <$> Task_evaluate fuel w task.

(** The closure that [ServiceComponent::addTasks] gives its task. *)
Definition ServiceComponent_task (fuel : nat) (w : World) (this : cid)
    (task : tid) (event : option Event.t) : option World :=
  t ← tasks w !! task;
  w ← (if TaskState.eqb (Task.state_ t) TaskState.READY
       then
         w ← Task_setState fuel w task TaskState.EXECUTING
               Task_setState_scheduleRunTasks_default;
         Some (post (JobDoDeploy this task) w)
       else Some w);
  fst <$> Task_evaluate fuel w task.

(** ** Worlds to evaluate the code on *)

Definition running_component (name : string) (kind : Kind.t)
    (parent : option cid) (children : list cid) (tasks_ : option (list tid))
    (replicas : nat) : Component.t :=
  Component.mk name kind ∅ ∅ parent children [] Mode.CREATE
    State.RUNNING tasks_ false None None "default" replicas 0.

(** A root [app] with the Deployment [web] (one replica), which owns the
    Service [web-svc]. The Deployment has been posted and waits for its pod;
    the task of the Service is still blocked on it. *)
Definition deployment_world : World :=
  mkWorld
    (<[0 := running_component "app" Kind.APP None [1] (Some [0; 1]) 0]>
    (<[1 := running_component "web" Kind.DEPLOYMENT (Some 0) [2] None 1]>
    (<[2 := running_component "web-svc" Kind.SERVICE (Some 1) [] None 0]> ∅)))
    (<[0 := Task.mk 1 "web" TaskState.WAITING []]>
    (<[1 := Task.mk 2 "web-svc" TaskState.BLOCKED [0]]> ∅))
    true [] [] 0 [].

(** The event of the pod of [web] having been created. *)
Definition pod_created : Event.t :=
  Event.mk "Pod" "web-5d9c7b4f6-abcde" "default" "web-5d9c7b4f6-abcde.16f2"
    "Created" "Created container web".

(** A root [app] with the Service [svc], which owns the ConfigMap [conf].
    The task of the Service is executing; the task of the ConfigMap has not
    run. *)
Definition service_world : World :=
  mkWorld
    (<[0 := running_component "app" Kind.APP None [1] (Some [0; 1]) 0]>
    (<[1 := running_component "svc" Kind.SERVICE (Some 0) [2] None 0]>
    (<[2 := running_component "conf" Kind.CONFIGMAP (Some 1) [] None 0]> ∅)))
    (<[0 := Task.mk 1 "svc" TaskState.EXECUTING []]>
    (<[1 := Task.mk 2 "conf" TaskState.BLOCKED [0]]> ∅))
    true [] [] 0 [].

Definition state_of (w : World) (c : cid) : option State.t :=
  Component.state_ <$> components w !! c.

Definition task_state_of (w : World) (t : tid) : option TaskState.t :=
  Task.state_ <$> tasks w !! t.

(** Three components [a], [b], [c] where [a] depends on [b] and [b] on
    [c]. *)
Definition depends_component (name : string) (dependsOn : list cid)
  : Component.t :=
  Component.mk name Kind.DEPLOYMENT ∅ ∅ None [] dependsOn Mode.CREATE
    State.CREATING None false None None "default" 1 0.

Definition chain_world : gmap cid Component.t :=
  <[0 := depends_component "a" [1]]>
  (<[1 := depends_component "b" [2]]>
  (<[2 := depends_component "c" []]> ∅)).

(** A root [app] with the Deployment [web], both being removed; the task of
    the Deployment has sent its DELETE. *)
Definition removing_component (name : string) (kind : Kind.t)
    (parent : option cid) (children : list cid) (tasks_ : option (list tid))
  : Component.t :=
  Component.mk name kind ∅ ∅ parent children [] Mode.REMOVE
    State.RUNNING tasks_ false None None "default" 1 0.

Definition delete_world : World :=
  mkWorld
    (<[0 := removing_component "app" Kind.APP None [1] (Some [0])]>
    (<[1 := removing_component "web" Kind.DEPLOYMENT (Some 0) [] None]> ∅))
    (<[0 := Task.mk 1 "web" TaskState.EXECUTING []]> ∅)
    true [] [] 0 [].

Definition delete_url : string :=
  "https://127.0.0.1:6443/apis/apps/v1/namespaces/default/deployments/web".

(** ** The shape of the tree, and what [evaluate] can still do *)

Module Shape.
(** A component less the fields that [setState] writes. *)
Definition erase (c : Component.t) : Component.t :=
  Component.with_state_ State.CREATING
    (Component.with_executionPromise_ false (Component.with_elapsed None c)).
End Shape.

(** Two stores hold the same tree: the same objects, equal up to the fields
    that [setState] writes. *)
Definition same_tree (cs cs' : gmap cid Component.t) : Prop :=
  Shape.erase <$> cs = Shape.erase <$> cs'.

(** The parent and child links follow a depth: a live parent is strictly
    higher than its child, a child strictly lower than its parent. *)
Definition tree_wf (depth : cid -> nat) (cs : gmap cid Component.t) : Prop :=
  forall x c, cs !! x = Some c ->
    (forall p, parentPtr cs x = Some p -> depth p < depth x)
    /\ (forall ch, ch ∈ Component.children_ c -> depth x < depth ch).

(** What a call of [evaluate] or [setState] on [x] leaves alone: the tasks,
    the cluster, the clock, the tree, and every component that is neither
    [x] nor higher than [x]. *)
Definition evaluate_frame (depth : cid -> nat) (x : cid) (w w' : World)
  : Prop :=
  tasks w' = tasks w
  /\ cluster_executing w' = cluster_executing w
  /\ clock w' = clock w
  /\ requests w' = requests w
  /\ same_tree (components w) (components w')
  /\ forall y, y <> x -> depth x <= depth y ->
       components w' !! y = components w !! y.

(** The task list that [evaluate] reads: the [tasks_] of the root. *)
Definition task_list (cs : gmap cid Component.t) (x : cid) : list tid :=
  default [] (root ← getRoot cs x; rc ← cs !! root; Component.tasks_ rc).

(** The states of the tasks of component [x] among [t]. *)
Definition own_states (ts : gmap tid Task.t) (x : cid) (t : list tid)
  : list TaskState.t :=
  omap (fun id =>
          task ← ts !! id;
          if Nat.eqb (Task.component_ task) x then Some (Task.state_ task)
          else None) t.

Definition child_states (cs : gmap cid Component.t) (c : Component.t)
  : list State.t :=
  omap (fun ch => Component.state_ <$> cs !! ch) (Component.children_ c).

Definition task_done (s : TaskState.t) : bool := TaskState.eqb s TaskState.DONE.
Definition task_failed (s : TaskState.t) : bool := TaskState.ltb TaskState.DONE s.
Definition child_done (s : State.t) : bool := State.eqb s State.DONE.
Definition child_failed (s : State.t) : bool := State.ltb State.DONE s.

(** A task of the component has failed, or its tasks are done and a child
    has failed: what makes [evaluate] set the component FAILED. *)
Definition failed_env_of (own : list TaskState.t) (chs : list State.t)
  : bool :=
  (existsb task_failed own
   || forallb task_done own && existsb child_failed chs)%bool.

(** How many more times [evaluate] can change the state of a component,
    given its tasks and the states of its children: with a failed task or
    child the state can only rise to FAILED, with everything done it can
    only become DONE, and otherwise it can only leave CREATING. *)
Definition rank_of (own : list TaskState.t) (chs : list State.t)
    (s : State.t) : nat :=
  if failed_env_of own chs
  then match s with
       | State.CREATING => 2
       | State.FAILED => 0
       | _ => 1
       end
  else if (forallb task_done own && forallb child_done chs)%bool
  then (if State.eqb s State.DONE then 0 else 1)
  else (if State.eqb s State.CREATING then 1 else 0).

Definition failed_env (w : World) (x : cid) (c : Component.t) : bool :=
  failed_env_of (own_states (tasks w) x (task_list (components w) x))
                (child_states (components w) c).

(** The rank of [x] if its state were [s]. *)
Definition rank_with (w : World) (x : cid) (c : Component.t) (s : State.t)
  : nat :=
  rank_of (own_states (tasks w) x (task_list (components w) x))
          (child_states (components w) c) s.

Definition evaluate_rank (w : World) (x : cid) : nat :=
  match components w !! x with
  | Some c => rank_with w x c (Component.state_ c)
  | None => 0
  end.

Definition done_env (w : World) (x : cid) (c : Component.t) : bool :=
  (forallb task_done (own_states (tasks w) x (task_list (components w) x))
   && forallb child_done (child_states (components w) c))%bool.

(** Whether [evaluate] may move component [x] to state [s]: to FAILED with
    a failed task or child, to DONE with all tasks and all children DONE,
    to RUNNING always, to CREATING never. *)
Definition target_env (w : World) (x : cid) (c : Component.t) (s : State.t)
  : bool :=
  match s with
  | State.CREATING => false
  | State.RUNNING => true
  | State.DONE => done_env w x c
  | State.FAILED => failed_env w x c
  end.

(** [evaluate] returns on [x], within its frame and without raising the
    rank of [x]; and if it changes the state of [x], the tasks and the
    children of [x] allow the new state. *)
Definition evaluate_ok (depth : cid -> nat) (w : World) (x : cid) : Prop :=
  exists n w',
    Component_evaluate n w x = Some w'
    /\ evaluate_frame depth x w w'
    /\ evaluate_rank w' x <= evaluate_rank w x
    /\ (forall c c',
          components w !! x = Some c -> components w' !! x = Some c' ->
          Component.state_ c' = Component.state_ c
          \/ target_env w x c (Component.state_ c') = true).

(** The world in which [Task::evaluate] enters its test of BLOCKED: a task
    in PRE has been moved to BLOCKED. *)
Definition Task_evaluate_enter (w : World) (this : tid) (task : Task.t)
  : World :=
  if TaskState.eqb (Task.state_ task) TaskState.PRE
  then with_tasks (<[this := Task.with_state_ TaskState.BLOCKED task]> (tasks w)) w
  else w.

(** The first rule for a BLOCKED task as the specification words it: in
    CREATE mode, the owning component is blocked on a [dependsOn] component
    whose state is not DONE. *)
Definition blocked_on_dependsOn (cs : gmap cid Component.t)
    (c : Component.t) : Prop :=
  Component.mode_ c = Mode.CREATE
  /\ exists d comp,
       d ∈ Component.dependsOn_ c
       /\ cs !! d = Some comp
       /\ Component.state_ comp <> State.DONE.

(** A root [app] with the Deployments [db] and [web], where [web] depends
    on [db]. The request of [db] has been posted and [db] waits for its
    pod; the task of [web] has no task to wait for and has not been
    evaluated yet. *)
Definition blocked_world : World :=
  mkWorld
    (<[0 := running_component "app" Kind.APP None [1; 2] (Some [0; 1]) 0]>
    (<[1 := running_component "db" Kind.DEPLOYMENT (Some 0) [] None 1]>
    (<[2 := Component.mk "web" Kind.DEPLOYMENT ∅ ∅ (Some 0) [] [1]
              Mode.CREATE State.CREATING None false None None "default" 1 0]>
       ∅)))
    (<[0 := Task.mk 1 "db" TaskState.WAITING []]>
    (<[1 := Task.mk 2 "web" TaskState.PRE []]> ∅))
    true [] [] 0 [].

(** The outcomes of a DELETE that the specification treats as success: a
    reply, and the error 404. *)
Definition delete_succeeded (outcome : HttpOutcome) : bool :=
  match outcome with
  | HttpReply _ => true
  | RequestFailedWithErrorException status_code => Nat.eqb status_code 404
  | OtherException => false
  end.

(** The world with the state of one task changed. *)
Definition with_task_state (w : World) (task : tid) (t : Task.t)
    (s : TaskState.t) : World :=
  with_tasks (<[task := Task.with_state_ s t]> (tasks w)) w.


(** ** Base64 *)

(** [int] is 32 bits wide and its arithmetic wraps around. *)
Definition wrap_int (z : Z) : Z := ((z + 2 ^ 31) mod 2 ^ 32 - 2 ^ 31)%Z.

Definition alphabeth : string :=
  "ABCDEFGHIJKLMNOPQRSTUVWXYZabcdefghijklmnopqrstuvwxyz0123456789+/".

(** [alphabeth[i]] *)
Definition alphabeth_at (i : Z) : ascii :=
  default NUL (String.get (Z.to_nat i) alphabeth).

(** [const uint8_t c : in] *)
Definition uint8_of (ch : ascii) : Z := Z.of_nat (nat_of_ascii ch).

(** [while (valb >= 0) { out.push_back(...); valb -= 6; }]. Each turn takes
    6 from [valb], so the loop has ended after [valb + 1] turns, which is
    the fuel it is given. *)
Fixpoint Base64Encode_while (fuel : nat) (val valb : Z) (out : string)
  : string * Z :=
  match fuel with
  | O => (out, valb)
  | S fuel =>
      if (0 <=? valb)%Z
      then Base64Encode_while fuel val (wrap_int (valb - 6))
             (push_back out (alphabeth_at (Z.land (Z.shiftr val valb) 0x3f)))
      else (out, valb)
  end.

(** The [for] loop over the bytes of the input. *)
Fixpoint Base64Encode_loop (input : string) (val valb : Z) (out : string)
  : Z * Z * string :=
  match input with
  | EmptyString => (val, valb, out)
  | String ch rest =>
      let val := wrap_int (wrap_int (Z.shiftl val 8) + uint8_of ch) in
      let valb := wrap_int (valb + 8) in
      let '(out, valb) :=
        Base64Encode_while (Z.to_nat (valb + 1)) val valb out in
      Base64Encode_loop rest val valb out
  end.

(** [while (out.size() % 4) out.push_back('=');], which ends within three
    turns. *)
Fixpoint Base64Encode_pad (fuel : nat) (out : string) : string :=
  match fuel with
  | O => out
  | S fuel =>
      if Nat.eqb (String.length out mod 4) 0 then out
      else Base64Encode_pad fuel (push_back out "=")
  end.

(** What follows the [for] loop: the bits left over, and the padding. *)
Definition Base64Encode_finish (st : Z * Z * string) : string :=
  let '(val, valb, out) := st in
  let out :=
    if (-6 <? valb)%Z
    then push_back out
           (alphabeth_at
              (Z.land (Z.shiftr (wrap_int (Z.shiftl val 8)) (wrap_int (valb + 8)))
                      0x3f))
    else out in
  Base64Encode_pad 3 out.

Definition Base64Encode (input : string) : string :=
  Base64Encode_finish (Base64Encode_loop input 0 (-6) EmptyString).

(** Base64 as RFC 4648 defines it: each group of three bytes is read as a
    number of 24 bits and written as four digits of 6 bits; a last group of
    one or two bytes is filled with zero bits on the right to 12 or 18 bits,
    written as two or three digits, and padded with '='. *)
Definition base64_digit (n i : Z) : ascii :=
  alphabeth_at ((n / 64 ^ i) mod 64).

Fixpoint rfc4648_encode (input : string) : string :=
  match input with
  | EmptyString => EmptyString
  | String a EmptyString =>
      let n := (uint8_of a * 16)%Z in
      String (base64_digit n 1) (String (base64_digit n 0) "==")
  | String a (String b EmptyString) =>
      let n := ((uint8_of a * 256 + uint8_of b) * 4)%Z in
      String (base64_digit n 2)
        (String (base64_digit n 1) (String (base64_digit n 0) "="))
  | String a (String b (String c rest)) =>
      let n := (uint8_of a * 65536 + uint8_of b * 256 + uint8_of c)%Z in
      String (base64_digit n 3)
        (String (base64_digit n 2)
           (String (base64_digit n 1)
              (String (base64_digit n 0) (rfc4648_encode rest))))
  end.

(** The place of a character in a string, for reading a digit back. *)
Fixpoint index_of (ch : ascii) (s : string) : option nat :=
  match s with
  | EmptyString => None
  | String c rest => if Ascii.eqb c ch then Some 0 else S <$> index_of ch rest
  end.

(** ** Names of kinds *)

(** A [std::map] is iterated in the order of its keys, which for
    [std::string] keys is the order of [compare], byte by byte. *)
Definition key_le {V : Type} (a b : string * V) : Prop := String.le a.1 b.1.

#[local] Instance key_le_dec {V : Type} : RelDecision (@key_le V).
Proof. intros a b. unfold key_le. apply _. Defined.

Definition in_key_order {V : Type} (m : gmap string V) : list (string * V) :=
  merge_sort key_le (map_to_list m).

#[local] Instance Kind_eq_dec : EqDecision Kind.t.
Proof. solve_decision. Defined.

(** The loop of [toString] over the entries of [kinds], and the [throw]
    that follows it. *)
Fixpoint toString_loop (entries : list (string * Kind.t)) (kind : Kind.t)
  : result string :=
  match entries with
  | [] => Throw (runtime_error "Unknown Kind enum value.")
  | (k, v) :: entries =>
      if bool_decide (kind = v) then Ok k else toString_loop entries kind
  end.

Definition toString (kind : Kind.t) : result string :=
  toString_loop (in_key_order kinds) kind.

(** ** Lists of variables and key-value pairs *)

#[local] Instance result_ret : MRet result := fun _ a => Ok a.
#[local] Instance result_bind : MBind result := fun _ _ f r =>
  match r with
  | Ok a => f a
  | Throw e => Throw e
  end.

(** [v.find(ch)]: the position of the first [ch]; [None] is [npos]. *)
Fixpoint find_char (ch : ascii) (v : string) : option nat :=
  match v with
  | EmptyString => None
  | String c rest => if Ascii.eqb c ch then Some 0 else S <$> find_char ch rest
  end.

Fixpoint string_take (n : nat) (v : string) : string :=
  match n, v with
  | S n, String c rest => String c (string_take n rest)
  | _, _ => EmptyString
  end.

Fixpoint string_drop (n : nat) (v : string) : string :=
  match n, v with
  | S n, String _ rest => string_drop n rest
  | _, _ => v
  end.

(** [v.substr(0, n)]: at most [n] characters from the start. *)
Definition substr_to (n : nat) (v : string) : string := string_take n v.

(** [v.substr(pos)]: throws [std::out_of_range] when [pos > v.size()]. *)
Definition substr_from (pos : nat) (v : string) : result string :=
  if Nat.ltb (String.length v) pos then Throw out_of_range
  else Ok (string_drop pos v).

Module KeyValue.
Record t : Type := mk { name : string; value : string }.
End KeyValue.

(** What the loops of [getArgAsEnvList] and [getArgAsKv] make of one token:
    the text before the first '=' and the text after it, or the token and
    nothing. *)
Definition split_assignment (v : string) : result KeyValue.t :=
  match find_char "=" v with
  | Some pos =>
      if Nat.ltb pos (String.length v)
      then
        value ← substr_from (pos + 1) v;
        Ok (KeyValue.mk (substr_to pos v) value)
      else Ok (KeyValue.mk v EmptyString)
  | None => Ok (KeyValue.mk v EmptyString)
  end.

Fixpoint getArgAsEnvList_loop (tokens : list string) (rval : list KeyValue.t)
  : result (list KeyValue.t) :=
  match tokens with
  | [] => Ok rval
  | v :: tokens =>
      ev ← split_assignment v;
      if String.eqb (KeyValue.name ev) EmptyString
      then getArgAsEnvList_loop tokens rval
      else getArgAsEnvList_loop tokens (rval ++ [ev])
  end.

Definition getArgAsEnvList (values : string) : result (list KeyValue.t) :=
  getArgAsEnvList_loop (getArgAsStringList values) [].

Fixpoint getArgAsKv_loop (tokens : list string) (rval : gmap string string)
  : result (gmap string string) :=
  match tokens with
  | [] => Ok rval
  | v :: tokens =>
      match find_char "=" v with
      | Some pos =>
          if Nat.ltb pos (String.length v)
          then
            if Nat.ltb 0 pos
            then
              value ← substr_from (pos + 1) v;
              getArgAsKv_loop tokens (<[substr_to pos v := value]> rval)
            else getArgAsKv_loop tokens rval
          else
            if negb (String.eqb v EmptyString)
            then getArgAsKv_loop tokens (<[v := EmptyString]> rval)
            else getArgAsKv_loop tokens rval
      | None =>
          if negb (String.eqb v EmptyString)
          then getArgAsKv_loop tokens (<[v := EmptyString]> rval)
          else getArgAsKv_loop tokens rval
      end
  end.

Definition getArgAsKv (values : string) : result (gmap string string) :=
  getArgAsKv_loop (getArgAsStringList values) ∅.

(** ** The arguments of a cluster *)

(** [Cluster::split] *)
Definition Cluster_split (str : string) (ch : ascii)
  : result (string * string) :=
  match find_char ch str with
  | None => Ok (str, EmptyString)
  | Some pos =>
      rest ← substr_from (pos + 1) str;
      Ok (substr_to pos str, rest)
  end.

(** [boost::split(pairs, vars, boost::is_any_of(sep))]: the parts of [vars]
    between the separators, the empty ones included; one part more than
    there are separators. *)
Fixpoint boost_split_loop (sep : ascii) (vars : string) (part : string)
  : list string :=
  match vars with
  | EmptyString => [part]
  | String c rest =>
      if Ascii.eqb c sep then part :: boost_split_loop sep rest EmptyString
      else boost_split_loop sep rest (push_back part c)
  end.

Definition boost_split (sep : ascii) (vars : string) : list string :=
  boost_split_loop sep vars EmptyString.

Module Cluster.
Record t : Type := mk {
  kubeconfig_ : string;
  variables_ : variables_t;
  name_ : string
}.
End Cluster.

(** [variables_.insert(split(pair, '='))] for each part that is not empty;
    [std::map::insert] leaves a key that is present as it is. *)
Fixpoint parseArgs_pairs (pairs : list string) (variables_ : variables_t)
  : result variables_t :=
  match pairs with
  | [] => Ok variables_
  | pair' :: pairs =>
      if negb (String.eqb pair' EmptyString)
      then
        '(k, v) ← Cluster_split pair' "=";
        match variables_ !! k with
        | Some _ => parseArgs_pairs pairs variables_
        | None => parseArgs_pairs pairs (<[k := v]> variables_)
        end
      else parseArgs_pairs pairs variables_
  end.

(** [variables_[key]]: the value, after inserting an empty one if the key
    was absent. *)
Definition map_subscript (variables_ : variables_t) (key : string)
  : string * variables_t :=
  match variables_ !! key with
  | Some v => (v, variables_)
  | None => (EmptyString, <[key := EmptyString]> variables_)
  end.

(** [Cluster::parseArgs] on a cluster that has no variables yet, as the
    constructor calls it. *)
Definition parseArgs (args : string) : result Cluster.t :=
  '(kubeconfig, vars) ← Cluster_split args ":";
  let kubeconfig_ := kubeconfig in
  let pairs := boost_split "," vars in
  variables_ ← parseArgs_pairs pairs ∅;
  let '(name, variables_) := map_subscript variables_ "name" in
  variables_ ←
    (if String.eqb name EmptyString
     then
       '(n, _) ← Cluster_split kubeconfig_ ".";
       if String.eqb n EmptyString
       then Ok (<["name" := "default"]> variables_)
       else Ok (<["name" := n]> variables_)
     else Ok variables_);
  let '(name_, variables_) := map_subscript variables_ "name" in
  Ok (Cluster.mk kubeconfig_ variables_ name_).

(** The key and value that [parseArgs] reads from one part of the variable
    list, and the first value that the parts give to a key. *)
Definition binding_of (pair' : string) : option (string * string) :=
  if String.eqb pair' EmptyString then None
  else match Cluster_split pair' "=" with
       | Ok kv => Some kv
       | Throw _ => None
       end.

Definition first_binding (k : string) (pairs : list string) : option string :=
  snd <$> head (filter (fun kv => kv.1 = k) (omap binding_of pairs)).

(** ** Dependencies between tasks *)

Definition Task_with_dependencies_ (d : list tid) (k : Task.t) : Task.t :=
  Task.mk (Task.component_ k) (Task.name_ k) (Task.state_ k) d.

(** [this->addDependency(task)], for a task [this] and a weak pointer
    [task]. *)
Definition Task_addDependency (ts : gmap tid Task.t) (this task : tid)
  : gmap tid Task.t :=
  match ts !! task with
  | Some _ =>
      match ts !! this with
      | Some self =>
          if existsb (fun wd => bool_decide (is_Some (ts !! wd) /\ wd = task))
               (Task.dependencies_ self)
          then ts
          else <[this := Task_with_dependencies_
                           (Task.dependencies_ self ++ [task]) self]> ts
      | None => ts
      end
  | None => ts
  end.

(** The loop of [Task::addAllDependencies] over [dependencies_], with the
    recursive call as [visit]. The call is made for every dependency that
    is alive, whether or not the set held it already. *)
Fixpoint addAllDependencies_loop
    (visit : tid -> gset tid -> option (gset tid))
    (ts : gmap tid Task.t) (ds : list tid) (tasks : gset tid)
  : option (gset tid) :=
  match ds with
  | [] => Some tasks
  | d :: ds =>
      match ts !! d with
      | Some _ =>
          tasks ← visit d ({[d]} ∪ tasks);
          addAllDependencies_loop visit ts ds tasks
      | None => addAllDependencies_loop visit ts ds tasks
      end
  end.

(** [this->addAllDependencies(tasks)]; [fuel] bounds the depth of the
    recursion. *)
Fixpoint addAllDependencies (fuel : nat) (ts : gmap tid Task.t) (this : tid)
    (tasks : gset tid) : option (gset tid) :=
  match fuel with
  | O => None
  | S fuel =>
      match ts !! this with
      | Some t =>
          addAllDependencies_loop (addAllDependencies fuel ts) ts
            (Task.dependencies_ t) tasks
      | None => Some tasks
      end
  end.

(** The values of [Component::parentRelation_], as [populate] sets them and
    [prepareTasks] reads them. *)
Module ParentRelation.
Inductive t : Type := BEFORE | AFTER | INDEPENDENT.
End ParentRelation.

(** The loops of [prepareTasks] over [ptask] for one [task]: each task of
    the parent component becomes a dependency of [task] (AFTER), or gets
    [task] as a dependency (BEFORE). *)
Definition prepareTasks_parent (ts : gmap tid Task.t) (tasks : list tid)
    (parent : cid) (add : gmap tid Task.t -> tid -> gmap tid Task.t)
  : gmap tid Task.t :=
  foldl (fun ts ptask =>
           match ts !! ptask with
           | Some pt =>
               if Nat.eqb (Task.component_ pt) parent then add ts ptask
               else ts
           | None => ts
           end)
        ts tasks.

(** The body of the first loop of [prepareTasks]. [parentRelation] reads
    the field [parentRelation_] of a component. *)
Definition prepareTasks_relate (parentRelation : cid -> ParentRelation.t)
    (cs : gmap cid Component.t) (tasks : list tid)
    (reverseDependencies : bool) (ts : gmap tid Task.t) (task : tid)
  : gmap tid Task.t :=
  match ts !! task with
  | Some t =>
      let relation := parentRelation (Task.component_ t) in
      let relation :=
        if reverseDependencies
        then match relation with
             | ParentRelation.AFTER => ParentRelation.BEFORE
             | ParentRelation.BEFORE => ParentRelation.AFTER
             | ParentRelation.INDEPENDENT => relation
             end
        else relation in
      match relation with
      | ParentRelation.AFTER =>
          match parentPtr cs (Task.component_ t) with
          | Some parent =>
              prepareTasks_parent ts tasks parent
                (fun ts ptask => Task_addDependency ts task ptask)
          | None => ts
          end
      | ParentRelation.BEFORE =>
          match parentPtr cs (Task.component_ t) with
          | Some parent =>
              prepareTasks_parent ts tasks parent
                (fun ts ptask => Task_addDependency ts ptask task)
          | None => ts
          end
      | ParentRelation.INDEPENDENT => ts
      end
  | None => ts
  end.

(** The second loop of [prepareTasks]: the check for circular
    dependencies. *)
Fixpoint prepareTasks_check (fuel : nat) (ts : gmap tid Task.t)
    (tasks : list tid) : option (result unit) :=
  match tasks with
  | [] => Some (Ok tt)
  | task :: tasks =>
      allDeps ← addAllDependencies fuel ts task ∅;
      if decide (task ∈ allDeps)
      then Some (Throw (runtime_error "Circular dependency"))
      else prepareTasks_check fuel ts tasks
  end.

(** [prepareTasks(tasks, reverseDependencies)]; [isDelete] is
    [Engine::mode() == Engine::Mode::DELETE]. *)
Definition prepareTasks (fuel : nat) (isDelete : bool)
    (parentRelation : cid -> ParentRelation.t) (cs : gmap cid Component.t)
    (ts : gmap tid Task.t) (tasks : list tid) (reverseDependencies : bool)
  : option (result (gmap tid Task.t)) :=
  let ts :=
    if negb isDelete
    then foldl (prepareTasks_relate parentRelation cs tasks reverseDependencies)
           ts tasks
    else ts in
  checked ← prepareTasks_check fuel ts tasks;
  match checked with
  | Ok _ => Some (Ok ts)
  | Throw e => Some (Throw e)
  end.

(** One [dependencies_] edge: [y] is listed by the task [x] and alive. *)
Definition task_edge (ts : gmap tid Task.t) (x y : tid) : Prop :=
  exists t, ts !! x = Some t /\ y ∈ Task.dependencies_ t /\ is_Some (ts !! y).

(** Three tasks [a], [b], [c] where [a] depends on [b] and on [c], and [b]
    on [c]; and two tasks that depend on each other. *)
Definition diamond_tasks : gmap tid Task.t :=
  <[0 := Task.mk 0 "a" TaskState.PRE [1; 2]]>
  (<[1 := Task.mk 1 "b" TaskState.PRE [2]]>
  (<[2 := Task.mk 2 "c" TaskState.PRE []]> ∅)).

Definition cyclic_tasks : gmap tid Task.t :=
  <[0 := Task.mk 0 "a" TaskState.PRE [1]]>
  (<[1 := Task.mk 1 "b" TaskState.PRE [0]]> ∅).

(** ** Children by kind *)

Definition hasKindAsChild (cs : gmap cid Component.t) (c : Component.t)
    (kind : Kind.t) : bool :=
  existsb (fun child =>
             match cs !! child with
             | Some ch => bool_decide (Component.kind_ ch = kind)
             | None => false
             end)
          (Component.children_ c).

(** The loop of [getFirstKindAmongChildren]; [None] is the null pointer. *)
Fixpoint getFirstKindAmongChildren_loop (cs : gmap cid Component.t)
    (children : list cid) (kind : Kind.t) : option cid :=
  match children with
  | [] => None
  | child :: children =>
      match cs !! child with
      | Some ch =>
          if bool_decide (Component.kind_ ch = kind) then Some child
          else getFirstKindAmongChildren_loop cs children kind
      | None => getFirstKindAmongChildren_loop cs children kind
      end
  end.

Definition getFirstKindAmongChildren (cs : gmap cid Component.t)
    (c : Component.t) (kind : Kind.t) : option cid :=
  getFirstKindAmongChildren_loop cs (Component.children_ c) kind.

Definition deployments_url : string :=
  "https://127.0.0.1:6443/apis/apps/v1/namespaces/default/deployments".

Definition services_url : string :=
  "https://127.0.0.1:6443/api/v1/namespaces/default/services".

(** ** The dependency scanner *)

(** A call that may throw, in a model that may run out of fuel: [None]
    when the fuel is used up, [Some (Throw e)] when the code throws. *)
Definition run_bind {A B : Type} (r : option (result A))
    (f : A -> option (result B)) : option (result B) :=
  match r with
  | Some (Ok a) => f a
  | Some (Throw e) => Some (Throw e)
  | None => None
  end.

(** A [for] loop whose body may throw. *)
Fixpoint run_foldl {A S : Type} (f : S -> A -> option (result S)) (st : S)
    (l : list A) : option (result S) :=
  match l with
  | [] => Some (Ok st)
  | a :: l => run_bind (f st a) (fun st => run_foldl f st l)
  end.

(** [walkAndExecuteFn(fn)]: [fn] on the component, then the walk of each
    child. [st] is what [fn] reads and writes, [store] the objects in it. *)
Fixpoint walkAndExecuteFn {S : Type} (store : S -> gmap cid Component.t)
    (fuel : nat) (fn : S -> cid -> option (result S)) (st : S) (this : cid)
  : option (result S) :=
  match fuel with
  | O => None
  | S fuel =>
      run_bind (fn st this) (fun st =>
        match store st !! this with
        | Some c =>
            run_foldl (walkAndExecuteFn store fuel fn) st
              (Component.children_ c)
        | None => Some (Ok st)
        end)
  end.

(** [forAllComponents(fn)]: the walk from the root. *)
Definition forAllComponents {S : Type} (store : S -> gmap cid Component.t)
    (fuel : nat) (fn : S -> cid -> option (result S)) (st : S) (this : cid)
  : option (result S) :=
  match getRoot (store st) this with
  | Some root => walkAndExecuteFn store fuel fn st root
  | None => None
  end.

(** Modelled from the spec: [isRoot] is defined in [Component.h]; the
    component graph is a tree, and its root is the component that has no
    parent. *)
Definition isRoot (cs : gmap cid Component.t) (this : cid) : bool :=
  bool_decide (parentPtr cs this = None).

Section scanner.
(** What the scanner reads of a component besides the fields above: the
    result of [getNamespace()], the field [namespace_.metadata.name], and
    the list [depends]. The scanner writes none of them. *)
Variable getNamespace : cid -> string.
Variable namespace_metadata_name : cid -> string.
Variable depends : cid -> list string.

(** The first walk of the root: the Namespace components by name. *)
Definition scanDependencies_collect
    (st : gmap cid Component.t * gmap string cid) (c : cid)
  : option (result (gmap cid Component.t * gmap string cid)) :=
  match st.1 !! c with
  | Some comp =>
      if bool_decide (Component.kind_ comp = Kind.NAMESPACE)
      then Some (Ok (st.1, <[namespace_metadata_name c := c]> st.2))
      else Some (Ok st)
  | None => Some (Ok st)
  end.

(** The second walk of the root: each component that is in the namespace
    of a Namespace component depends on it, or the other way round. *)
Definition scanDependencies_namespace (nsComponents : gmap string cid)
    (reverse : bool) (cs : gmap cid Component.t) (c : cid)
  : option (result (gmap cid Component.t)) :=
  if negb (String.eqb (getNamespace c) EmptyString)
  then
    match nsComponents !! getNamespace c with
    | Some it =>
        if reverse then addDependency cs it c else addDependency cs c it
    | None => Some (Ok cs)
    end
  else Some (Ok cs).

(** The walk for one name of [depends]. *)
Definition scanDependencies_named (this : cid) (depName : string)
    (reverse : bool) (cs : gmap cid Component.t) (c : cid)
  : option (result (gmap cid Component.t)) :=
  match cs !! c with
  | Some comp =>
      if String.eqb depName (Component.name comp)
      then if reverse then addDependency cs c this
           else addDependency cs this c
      else Some (Ok cs)
  | None => Some (Ok cs)
  end.

(** [this->scanDependencies()]. [depth] bounds the walks of the tree and
    [fuel] the recursion into the children. *)
Fixpoint scanDependencies (depth fuel : nat) (cs : gmap cid Component.t)
    (this : cid) : option (result (gmap cid Component.t)) :=
  match fuel with
  | O => None
  | S fuel =>
      match cs !! this with
      | Some c =>
          let reverse :=
            match Component.mode_ c with
            | Mode.REMOVE => true
            | Mode.CREATE => false
            end in
          run_bind
            (if isRoot cs this
             then
               run_bind
                 (forAllComponents fst depth scanDependencies_collect
                    (cs, ∅) this)
                 (fun st =>
                    let nsComponents := st.2 in
                    if negb (bool_decide (nsComponents = ∅))
                    then forAllComponents id depth
                           (scanDependencies_namespace nsComponents reverse)
                           cs this
                    else Some (Ok cs))
             else Some (Ok cs))
            (fun cs =>
               run_bind
                 (run_foldl
                    (fun cs depName =>
                       forAllComponents id depth
                         (scanDependencies_named this depName reverse)
                         cs this)
                    cs (depends this))
                 (fun cs =>
                    run_foldl (scanDependencies depth fuel) cs
                      (Component.children_ c)))
      | None => Some (Ok cs)
      end
  end.
End scanner.

(** A component with nothing but its place in the tree: [app] with the
    children [a] and [b]. *)
Definition sibling_tree : gmap cid Component.t :=
  <[0 := plain_component "app" Kind.APP None [1; 2] ∅ ∅]>
  (<[1 := plain_component "a" Kind.DEPLOYMENT (Some 0) [] ∅ ∅]>
  (<[2 := plain_component "b" Kind.DEPLOYMENT (Some 0) [] ∅ ∅]> ∅)).

(** The same with a Namespace component [ns] as the last child. *)
Definition namespace_tree : gmap cid Component.t :=
  <[0 := plain_component "app" Kind.APP None [1; 2] ∅ ∅]>
  (<[1 := plain_component "a" Kind.DEPLOYMENT (Some 0) [] ∅ ∅]>
  (<[2 := plain_component "prod-ns" Kind.NAMESPACE (Some 0) [] ∅ ∅]> ∅)).

(** [cs'] is [cs] with dependencies added and nothing else changed. *)
Definition dependencies_added (cs cs' : gmap cid Component.t) : Prop :=
  Component.with_dependsOn_ [] <$> cs' = Component.with_dependsOn_ [] <$> cs
  /\ forall x y, edge cs x y -> edge cs' x y.

(** [y] is a child of [x]. *)
Definition child (cs : gmap cid Component.t) (x y : cid) : Prop :=
  exists c, cs !! x = Some c /\ y ∈ Component.children_ c.

(** Two stores hold the same components up to their [dependsOn_]. *)
Definition same_shape (cs cs' : gmap cid Component.t) : Prop :=
  Component.with_dependsOn_ [] <$> cs' = Component.with_dependsOn_ [] <$> cs.

(** The children of every component are alive and lower than it. *)
Definition children_wf (height : cid -> nat) (cs : gmap cid Component.t)
  : Prop :=
  forall x y, child cs x y -> is_Some (cs !! y) /\ height y < height x.

(** What a step of the scanner does to the store. *)
Definition scanned (cs cs' : gmap cid Component.t) : Prop :=
  dependencies_added cs cs' /\ (acyclic cs -> acyclic cs').

(** [mode_ == Mode::REMOVE] *)
Definition reverse_of (c : Component.t) : bool :=
  match Component.mode_ c with
  | Mode.REMOVE => true
  | Mode.CREATE => false
  end.

(** What the first walk of the root does to the map of the Namespace
    components of the tree under [root]: it leaves the store alone, it
    keeps every key, and an entry it adds is a Namespace component of the
    tree under its name. *)
Definition collected (namespace_metadata_name : cid -> string)
    (cs : gmap cid Component.t) (root : cid)
    (st st' : gmap cid Component.t * gmap string cid) : Prop :=
  st'.1 = st.1
  /\ (forall k, is_Some (st.2 !! k) -> is_Some (st'.2 !! k))
  /\ forall k v, st'.2 !! k = Some v ->
       st.2 !! k = Some v
       \/ (rtc (child cs) root v /\ k = namespace_metadata_name v
           /\ exists comp, cs !! v = Some comp
                           /\ Component.kind_ comp = Kind.NAMESPACE).
(** * Properties *)

(** ** Strings *)

Lemma append_cons (a : ascii) (s t : string) :
  String a s +:+ t = String a (s +:+ t).
Proof. reflexivity. Qed.

Lemma append_nil_l (t : string) : EmptyString +:+ t = t.
Proof. reflexivity. Qed.

Lemma append_nil_r (s : string) : s +:+ EmptyString = s.
Proof. induction s as [|a s IH]; [done|]. by rewrite append_cons, IH. Qed.

Lemma append_assoc (s t u : string) : (s +:+ t) +:+ u = s +:+ (t +:+ u).
Proof.
  induction s as [|a s IH]; [done|]. by rewrite !append_cons, IH.
Qed.

Lemma push_back_append (s : string) (ch : ascii) (t : string) :
  push_back s ch +:+ t = s +:+ String ch t.
Proof. unfold push_back. by rewrite append_assoc. Qed.

Lemma c_str_no_NUL (s : string) : has_char NUL s = false -> c_str s = s.
Proof.
  induction s as [|a s IH]; simpl; [done|].
  intros [Ha Hs]%orb_false_elim. rewrite Ha. by rewrite IH.
Qed.

(** ** Kind registry *)

Lemma toKind_entries :
  Forall (fun e => toKind e.1 = Ok e.2) kinds_entries.
Proof. repeat constructor. Qed.

Lemma toKind_unknown (s : string) :
  s ∉ kinds_entries.*1 -> toKind s = Throw out_of_range.
Proof.
  intros Hs. unfold toKind, kinds.
  by rewrite (proj1 (not_elem_of_list_to_map _ _) Hs).
Qed.

(** C5, at the kind name the claim lists as "PersistentVolume": the table
    spells its key "PersitentVolume", so the conversion of the conventional
    name throws and only the misspelt name yields [PERSISTENTVOLUME]. The
    other fifteen conventional names convert to their enum value. *)
Theorem toKind_PersistentVolume_throws :
  toKind "PersistentVolume" = Throw out_of_range
  /\ toKind "PersitentVolume" = Ok Kind.PERSISTENTVOLUME
  /\ Forall (fun e => toKind e.1 = Ok e.2)
       [ ("App", Kind.APP); ("Job", Kind.JOB); ("Deployment", Kind.DEPLOYMENT);
         ("StatefulSet", Kind.STATEFULSET); ("Service", Kind.SERVICE);
         ("ConfigMap", Kind.CONFIGMAP); ("Secret", Kind.SECRET);
         ("Ingress", Kind.INGRESS); ("Namespace", Kind.NAMESPACE);
         ("DaemonSet", Kind.DAEMONSET); ("Role", Kind.ROLE);
         ("ClusterRole", Kind.CLUSTERROLE); ("RoleBinding", Kind.ROLEBINDING);
         ("ClusterRoleBinding", Kind.CLUSTERROLEBINDING);
         ("ServiceAccount", Kind.SERVICEACCOUNT) ].
Proof.
  split; [|split].
  - apply toKind_unknown. vm_compute. intros H.
    repeat (apply elem_of_cons in H as [H|H]; [discriminate H|]).
    by apply elem_of_nil in H.
  - reflexivity.
  - repeat constructor.
Qed.

(** ** Typed accessors *)

Lemma is_bool_word_cases (v : string) :
  is_bool_word v <->
  v = "true" \/ v = "yes" \/ v = "1" \/ v = "false" \/ v = "no" \/ v = "0".
Proof.
  unfold is_bool_word. rewrite !elem_of_cons, elem_of_nil. tauto.
Qed.

(** C10: on a key absent from the effective arguments [getBoolArg] returns
    the empty optional and does not throw; it throws exactly when the key is
    present with a value outside {true, yes, 1, false, no, 0}. *)
Theorem getBoolArg_absent_is_empty (effectiveArgs_ : conf_t) (name : string) :
  (effectiveArgs_ !! name = None -> getBoolArg effectiveArgs_ name = Ok None)
  /\ ((exists e, getBoolArg effectiveArgs_ name = Throw e)
      <-> exists v, effectiveArgs_ !! name = Some v /\ ~ is_bool_word v).
Proof.
  unfold getBoolArg. split; [by intros ->|].
  destruct (effectiveArgs_ !! name) as [v|] eqn:Hv; cycle 1.
  { split; [intros [e He]; discriminate He|].
    intros (v & Hv' & _). discriminate Hv'. }
  destruct (String.eqb_spec v "true") as [->|H1];
    [|destruct (String.eqb_spec v "yes") as [->|H2];
      [|destruct (String.eqb_spec v "1") as [->|H3];
        [|destruct (String.eqb_spec v "false") as [->|H4];
          [|destruct (String.eqb_spec v "no") as [->|H5];
            [|destruct (String.eqb_spec v "0") as [->|H6]]]]]]; simpl.
  1-6: split; [intros [e He]; discriminate He|];
       intros (v & [= <-] & Hn); exfalso; apply Hn;
       apply is_bool_word_cases; tauto.
  split; [|eauto]. intros _. exists v. split; [done|].
  rewrite is_bool_word_cases. tauto.
Qed.

Lemma getBoolArg_absent_is_empty_witness :
  (<["replicas" := "2"]> ∅ : conf_t) !! "service.enabled" = None
  /\ getBoolArg (<["replicas" := "2"]> ∅) "service.enabled" = Ok None.
Proof.
  split; [reflexivity|].
  apply (proj1 (getBoolArg_absent_is_empty (<["replicas" := "2"]> ∅) "service.enabled")).
  reflexivity.
Defined.

(** C4, at the input [a'b]: the quote inside the unquoted token ends it, so
    the code returns the two tokens [a] and [b], where the tokenizer of the
    specification returns the single token [a'b]. *)
Theorem getArgAsStringList_quote_splits_unquoted_token :
  getArgAsStringList "a'b" = ["a"; "b"]
  /\ stringList_spec "a'b" = ["a'b"].
Proof. split; reflexivity. Qed.

(** Where no quote occurs the two tokenizers agree: the difference is the
    fall-through alone. *)
Lemma getArgAsStringList_loop_no_quote (values : string) :
  has_char "'" values = false ->
  forall state value rval,
    getArgAsStringList_loop values state value rval
    = stringList_spec_loop values state value rval.
Proof.
  induction values as [|ch rest IH]; [done|].
  simpl has_char. intros [Hq Hrest]%orb_false_elim state value rval.
  simpl. unfold is_quote. rewrite Hq.
  destruct state; repeat case_match; auto.
Qed.

(** ** Variable expansion *)

Lemma is_name_char_no_NUL (s : string) :
  all_name_chars s -> has_char NUL s = false.
Proof.
  unfold all_name_chars.
  induction s as [|a s IH]; simpl; [done|].
  intros [Ha Hs]%Forall_cons. rewrite (IH Hs), orb_false_r.
  destruct (Ascii.eqb_spec a NUL) as [->|]; [discriminate Ha|done].
Qed.

(** Scanning a name: the characters are appended to [varName]. *)
Lemma expandVariables_scan_name env vars (name rest expanded varName : string)
    (d : option string) :
  all_name_chars name ->
  expandVariables_loop env vars (name +:+ rest) ExpandState.SCAN_NAME
    expanded varName d
  = expandVariables_loop env vars rest ExpandState.SCAN_NAME
      expanded (varName +:+ name) d.
Proof.
  unfold all_name_chars. revert varName.
  induction name as [|a name IH]; intros varName; simpl list_ascii_of_string.
  - intros _. by rewrite append_nil_l, append_nil_r.
  - intros [Ha Hs]%Forall_cons. rewrite append_cons. simpl.
    rewrite Ha, (IH _ Hs). by rewrite push_back_append.
Qed.

(** Scanning a default value: the characters are appended to the default,
    double quotes escaped, up to the closing brace. *)
Lemma expandVariables_scan_default env vars
    (def rest expanded varName d0 : string) :
  has_char "}" def = false ->
  expandVariables_loop env vars (def +:+ rest) ExpandState.SCAN_DEFAUT_VALUE
    expanded varName (Some d0)
  = expandVariables_loop env vars rest ExpandState.SCAN_DEFAUT_VALUE
      expanded varName (Some (d0 +:+ escape_quotes def)).
Proof.
  revert d0. induction def as [|a def IH]; intros d0; simpl has_char.
  - intros _. simpl. by rewrite append_nil_l, append_nil_r.
  - intros [Ha Hs]%orb_false_elim. rewrite append_cons. simpl.
    rewrite Ha, (IH _ Hs). f_equal. f_equal.
    destruct (Ascii.eqb a DQUOTE); by rewrite ?push_back_append.
Qed.

Lemma commit_default_plain env (d : string) :
  starts_with "$" d = false -> commit_default env (Some d) = Some d.
Proof.
  destruct d as [|a d]; [done|]. simpl. rewrite andb_true_r.
  intros Ha. destruct a as [[] [] [] [] [] [] [] []]; try reflexivity.
  discriminate Ha.
Qed.

Lemma starts_with_escape_quotes (d : string) :
  starts_with "$" d = false -> starts_with "$" (escape_quotes d) = false.
Proof.
  destruct d as [|a d]; [done|]. simpl.
  destruct (Ascii.eqb a DQUOTE); [intros _; reflexivity|]. by simpl.
Qed.

#[local] Arguments commit_default : simpl never.
#[local] Arguments getVar : simpl never.

Lemma getVar_resolve_code env (name : string) vars (d : option string) :
  all_name_chars name ->
  getVar env name vars d = resolve_code env name vars d.
Proof.
  intros Hn. unfold getVar, resolve_code, getenv.
  rewrite (c_str_no_NUL _ (is_name_char_no_NUL _ Hn)).
  by destruct d.
Qed.

(** C3 (amended): a token [${name,default}] resolves to the value bound to
    [name] in the variable map; if [name] is unknown there, to the value of
    [name] in the process environment; if that is unset too, to the given
    default (each double quote in it escaped by a backslash); and a token
    [${name}] with no default resolves to the variable map, then the process
    environment, then the empty string. Defaults that begin with '$' are
    left out of the statement. *)
Theorem expandVariables_resolution_order env (vars : variables_t)
    (name def : string) :
  all_name_chars name ->
  has_char "}" def = false ->
  starts_with "$" def = false ->
  expandVariables env ("${" +:+ name +:+ "," +:+ def +:+ "}") vars
  = Ok (match vars !! name with
        | Some v => v
        | None =>
            match env name with
            | Some val => val
            | None => escape_quotes def
            end
        end)
  /\ expandVariables env ("${" +:+ name +:+ "}") vars
     = Ok (match vars !! name with
           | Some v => v
           | None =>
               match env name with
               | Some val => val
               | None => EmptyString
               end
           end).
Proof.
  intros Hn Hd Hs. unfold expandVariables. split.
  - rewrite !append_cons, append_nil_l. simpl.
    rewrite (expandVariables_scan_name _ _ _ _ _ _ _ Hn).
    rewrite !append_nil_l. simpl.
    rewrite (expandVariables_scan_default _ _ _ _ _ _ _ Hd).
    rewrite append_nil_l. simpl.
    rewrite (commit_default_plain _ _ (starts_with_escape_quotes _ Hs)).
    by rewrite append_nil_l, (getVar_resolve_code _ _ _ _ Hn).
  - rewrite !append_cons, append_nil_l. simpl.
    rewrite (expandVariables_scan_name _ _ _ _ _ _ _ Hn).
    rewrite append_nil_l. simpl.
    by rewrite append_nil_l, (getVar_resolve_code _ _ _ _ Hn).
Qed.

Lemma expandVariables_resolution_order_witness :
  expandVariables env_PORT "${PORT,8080}" ∅ = Ok "9090"
  /\ expandVariables env_PORT "${PORT}" ∅ = Ok "9090".
Proof.
  exact (expandVariables_resolution_order env_PORT ∅ "PORT" "8080"
           ltac:(repeat constructor) eq_refl eq_refl).
Defined.

(** C3 as stated fails where the name is unknown to the variable map, a
    default is given and the process environment binds the name: the
    environment wins over the default. *)
Lemma expandVariables_default_does_not_win :
  expandVariables env_PORT "${PORT,8080}" ∅
  <> Ok (resolve_spec env_PORT "PORT" ∅ (Some "8080")).
Proof. vm_compute. discriminate. Qed.

(** A default of the form [$ENVVAR] becomes the first character of the
    value of [ENVVAR], not the value. *)
Example expandVariables_env_default_first_char :
  expandVariables env_PORT "${Q,$PORT}" ∅ = Ok "9".
Proof. reflexivity. Qed.

(** *** Text without tokens *)












(** ** Argument merge *)

Lemma path_to_root_det cs (x : cid) (l1 l2 : list cid) :
  path_to_root cs x l1 -> path_to_root cs x l2 -> l1 = l2.
Proof.
  intros H1. revert l2.
  induction H1 as [x Hx|x p path Hp _ IH]; intros l2 H2;
    inversion H2; subst; try congruence.
  f_equal. apply IH. congruence.
Qed.

Lemma path_to_root_tail cs (x : cid) (l : list cid) :
  path_to_root cs x l ->
  forall y, y ∈ tail l ->
    y ∈ dom cs /\ exists l', path_to_root cs y l' /\ length l' < length l.
Proof.
  induction 1 as [x Hx|x p path Hp Hpath IH]; simpl; intros y Hy.
  { by apply elem_of_nil in Hy. }
  inversion Hpath; subst; simpl in *.
  - apply list_elem_of_singleton in Hy as ->. split.
    + unfold parentPtr in Hp. apply elem_of_dom.
      destruct (cs !! x) as [c|]; simplify_option_eq; eauto.
    + exists [p]. split; [done|]. simpl. lia.
  - apply elem_of_cons in Hy as [->|Hy].
    + split.
      * unfold parentPtr in Hp. apply elem_of_dom.
        destruct (cs !! x) as [c|]; simplify_option_eq; eauto.
      * eexists. split; [done|]. simpl. lia.
    + destruct (IH y Hy) as (Hd & l' & Hl' & Hlen). split; [done|].
      exists l'. split; [done|]. simpl in *. lia.
Qed.

Lemma path_to_root_NoDup cs (x : cid) (l : list cid) :
  path_to_root cs x l -> NoDup l.
Proof.
  intros Hl. induction Hl as [x Hx|x p path Hp Hpath IH].
  { apply NoDup_singleton. }
  apply NoDup_cons. split; [|done].
  intros Hin.
  destruct (path_to_root_tail cs x (x :: path)) with (y := x)
    as (_ & l' & Hl' & Hlen); [by econstructor|done|].
  assert (l' = x :: path) as ->
    by (eapply path_to_root_det; [done|by econstructor]).
  lia.
Qed.

Lemma path_to_root_length cs (x : cid) (l : list cid) :
  path_to_root cs x l -> length l <= S (size cs).
Proof.
  intros Hl.
  assert (Hnd : NoDup (tail l)).
  { apply path_to_root_NoDup in Hl. destruct l; [done|].
    by apply NoDup_cons in Hl as [_ ?]. }
  assert (Hsub : (list_to_set (tail l) : gset nat) ⊆ dom cs).
  { intros y Hy%elem_of_list_to_set.
    by apply (path_to_root_tail _ _ _ Hl). }
  apply subseteq_size in Hsub.
  rewrite size_list_to_set, size_dom in Hsub by done.
  destruct l; simpl in *; lia.
Qed.

Lemma getPathToRoot_loop_path cs (x : cid) (l : list cid) (fuel : nat) :
  path_to_root cs x l -> length l <= fuel ->
  getPathToRoot_loop fuel cs x = Some l.
Proof.
  intros Hl. revert fuel.
  induction Hl as [x Hx|x p path Hp Hpath IH]; intros [|fuel] Hlen;
    simpl in *; try lia.
  - by rewrite Hx.
  - rewrite Hp, IH by lia. done.
Qed.

Lemma getPathToRoot_path cs (x : cid) (l : list cid) :
  path_to_root cs x l -> getPathToRoot cs x = Some l.
Proof.
  intros Hl. apply getPathToRoot_loop_path; [done|].
  by apply (path_to_root_length cs x).
Qed.

Lemma merge_entry_lookup (i v k : string) (merged : conf_t) :
  merge_entry i v merged !! k
  = if decide (i = k) then merged_value k (merged !! k) (Some v)
    else merged !! k.
Proof.
  unfold merge_entry, merged_value. case_decide as Hik.
  - subst i. destruct (is_accumulated k).
    + by rewrite lookup_insert_eq.
    + destruct (merged !! k) eqn:Hm; [done|]. by rewrite lookup_insert_eq.
  - destruct (is_accumulated i).
    + by rewrite lookup_insert_ne.
    + destruct (merged !! i) eqn:Hm; [done|]. by rewrite lookup_insert_ne.
Qed.

Lemma map_fold_merge_entry_lookup (d merged : conf_t) (k : string) :
  map_fold merge_entry merged d !! k = merged_value k (merged !! k) (d !! k).
Proof.
  apply (map_fold_weak_ind
           (fun r (m : conf_t) => r !! k = merged_value k (merged !! k) (m !! k))).
  - by rewrite lookup_empty.
  - intros i x m r Hi IH. rewrite merge_entry_lookup. case_decide as Hik.
    + subst i. rewrite lookup_insert_eq, IH, Hi. done.
    + by rewrite lookup_insert_ne.
Qed.

Lemma merge_node_lookup cs (merged : conf_t) (node : cid) (k : string) :
  merge_node cs merged node !! k
  = merged_value k (merged !! k)
      (n ← cs !! node; Component.defaultArgs n !! k).
Proof.
  unfold merge_node. destruct (cs !! node) as [n|]; simpl; [|done].
  apply map_fold_merge_entry_lookup.
Qed.

Lemma foldl_merge_node_lookup cs (path : list cid) (merged : conf_t)
    (k : string) :
  foldl (merge_node cs) merged path !! k
  = if is_accumulated k
    then foldl (fun acc v => Some (concat_arg acc v)) (merged !! k)
           (defaults_on_path cs path k)
    else match merged !! k with
         | Some x => Some x
         | None => head (defaults_on_path cs path k)
         end.
Proof.
  revert merged. unfold defaults_on_path.
  induction path as [|node path IH]; intros merged; simpl.
  { by destruct (is_accumulated k), (merged !! k). }
  rewrite IH, merge_node_lookup. unfold merged_value.
  destruct (cs !! node ≫= _) as [v|]; simpl; [|done].
  destruct (is_accumulated k); [done|].
  by destruct (merged !! k).
Qed.

(** C2 (amended): the effective arguments exist for every component whose
    chain of parents ends at a root, and for every key [k]: if [k] is
    "pod.args" or "pod.env", the merged value is the local value followed by
    the [defaultArgs] values met on the way from the component itself up to
    the root, nearest first, each appended after a single space when the
    value so far is not empty; for every other key it is the local value if
    present, otherwise the [defaultArgs] value of the nearest node on that
    way (the component itself included), never overridden by a farther
    one. *)
Theorem mergeArgs_lookup cs (this : cid) (c : Component.t)
    (path : list cid) (k : string) :
  cs !! this = Some c ->
  path_to_root cs this path ->
  exists merged,
    mergeArgs cs this = Some merged
    /\ merged !! k
       = if is_accumulated k
         then foldl (fun acc v => Some (concat_arg acc v))
                (Component.args c !! k) (defaults_on_path cs path k)
         else match Component.args c !! k with
              | Some x => Some x
              | None => head (defaults_on_path cs path k)
              end.
Proof.
  intros Hc Hpath. unfold mergeArgs.
  rewrite Hc, (getPathToRoot_path _ _ _ Hpath). simpl.
  eexists. split; [done|]. apply foldl_merge_node_lookup.
Qed.

Lemma args_tree_path : path_to_root args_tree 2 [2; 1; 0].
Proof.
  apply path_step with (p := 1); [reflexivity|].
  apply path_step with (p := 0); [reflexivity|].
  apply path_root. reflexivity.
Qed.

Lemma mergeArgs_lookup_witness :
  exists merged,
    mergeArgs args_tree 2 = Some merged
    /\ merged !! "pod.args" = Some "a p g".
Proof.
  exact (mergeArgs_lookup args_tree 2 _ [2; 1; 0] "pod.args"
           eq_refl args_tree_path).
Defined.

(** C2 as stated fails on the order: the ancestors' values follow the local
    value nearest first, where the claim has them root first. *)
Lemma mergeArgs_not_root_to_near :
  (mergeArgs args_tree 2 ≫= (.!! "pod.args")) = Some "a p g"
  /\ accumulated_spec args_tree
       (plain_component "leaf" Kind.DEPLOYMENT (Some 1) []
          {["pod.args" := "a"]} ∅)
       [2; 1; 0] "pod.args" = "a g p".
Proof. split; vm_compute; reflexivity. Qed.

(** ** Dependencies between components *)

Section dependency_search.
Variable cs : gmap cid Component.t.

Lemma visit_dependencies_searched
    (visit : cid -> gset cid -> option (gset cid)) :
  (forall w contains R, visit w contains = Some R ->
     searched cs (edge cs w) contains R) ->
  forall ws contains R,
    visit_dependencies visit cs ws contains = Some R ->
    searched cs (fun y => y ∈ ws /\ is_Some (cs !! y)) contains R.
Proof.
  intros Hvisit ws.
  induction ws as [|w ws IH]; intros contains R; simpl.
  { intros [= <-]. repeat split; set_solver. }
  destruct (cs !! w) as [cw|] eqn:Hw; cycle 1.
  { intros (H1 & H2 & H3 & H4)%IH. split; [done|]. split; [|split; [done|]].
    - intros y [[->|Hy]%elem_of_cons Hl]; [|by apply H2].
      rewrite Hw in Hl. by destruct Hl.
    - intros v Hv Hn. destruct (H4 v Hv Hn) as (s & [Hs Hl] & Hr).
      exists s. set_solver. }
  case_decide as Hin.
  { intros (H1 & H2 & H3 & H4)%IH. split; [done|]. split; [|split; [done|]].
    - intros y [[->|Hy]%elem_of_cons Hl]; [set_solver|by apply H2].
    - intros v Hv Hn. destruct (H4 v Hv Hn) as (s & [Hs Hl] & Hr).
      exists s. set_solver. }
  destruct (visit w ({[w]} ∪ contains)) as [R1|] eqn:HR1; simpl; [|done].
  apply Hvisit in HR1 as (V1 & V2 & V3 & V4).
  intros (H1 & H2 & H3 & H4)%IH. split; [set_solver|]. split; [|split].
  - intros y [[->|Hy]%elem_of_cons Hl]; [set_solver|by apply H2].
  - intros v Hv Hn y Hy. destruct (decide (v ∈ R1)) as [Hv1|Hv1].
    + destruct (decide (v = w)) as [->|Hne].
      * apply H1. by apply V2.
      * apply H1. apply (V3 v); [done|set_solver|done].
    + by apply (H3 v).
  - intros v Hv Hn. destruct (decide (v ∈ R1)) as [Hv1|Hv1].
    + destruct (decide (v = w)) as [->|Hne].
      * exists w. split; [|done]. split; [set_solver|by rewrite Hw].
      * destruct (V4 v) as (s & Hs & Hr); [done|set_solver|].
        exists w. split; [split; [set_solver|by rewrite Hw]|].
        by eapply rtc_l.
    + destruct (H4 v Hv Hv1) as (s & [Hs Hl] & Hr). exists s. set_solver.
Qed.

Lemma addDependenciesRecursively_searched (fuel : nat) :
  forall this contains R,
    addDependenciesRecursively fuel cs this contains = Some R ->
    searched cs (edge cs this) contains R.
Proof.
  induction fuel as [|fuel IH]; intros this contains R; simpl; [done|].
  destruct (cs !! this) as [c|] eqn:Hc.
  - intros (H1 & H2 & H3 & H4)%(visit_dependencies_searched _ IH).
    split; [done|]. split; [|split; [done|]].
    + intros y (c' & Hc' & Hy & Hl). apply H2. split; [|done]. congruence.
    + intros v Hv Hn. destruct (H4 v Hv Hn) as (s & [Hs Hl] & Hr).
      exists s. split; [|done]. by exists c.
  - intros [= <-]. repeat split; try set_solver.
    intros y (c' & Hc' & _). congruence.
Qed.

(** The search ends: each call takes one object out of those not yet in
    the set. *)
Lemma visit_dependencies_ends
    (visit : cid -> gset cid -> option (gset cid)) (n : nat) :
  (forall w contains,
     size (dom cs ∖ contains) < n -> is_Some (visit w contains)) ->
  (forall w contains R, visit w contains = Some R -> contains ⊆ R) ->
  forall ws contains,
    size (dom cs ∖ contains) < S n ->
    is_Some (visit_dependencies visit cs ws contains).
Proof.
  intros Hends Hmono ws.
  induction ws as [|w ws IH]; intros contains Hsize; simpl; [by eexists|].
  destruct (cs !! w) as [cw|] eqn:Hw; [|by apply IH].
  case_decide as Hin; [by apply IH|].
  assert (Hlt : size (dom cs ∖ ({[w]} ∪ contains)) < size (dom cs ∖ contains)).
  { apply subset_size. split; [set_solver|].
    intros Hsub. assert (w ∈ dom cs ∖ contains) as Hw'%Hsub.
    { apply elem_of_difference. split; [|done].
      apply elem_of_dom. by rewrite Hw. }
    set_solver. }
  destruct (Hends w ({[w]} ∪ contains)) as [R1 HR1]; [lia|].
  rewrite HR1. simpl. apply IH.
  apply Hmono in HR1.
  assert (size (dom cs ∖ R1) <= size (dom cs ∖ ({[w]} ∪ contains))); [|lia].
  apply subseteq_size. set_solver.
Qed.

Lemma addDependenciesRecursively_ends (fuel : nat) :
  forall this contains,
    size (dom cs ∖ contains) < fuel ->
    is_Some (addDependenciesRecursively fuel cs this contains).
Proof.
  induction fuel as [|fuel IH]; intros this contains Hsize; [lia|].
  simpl. destruct (cs !! this) as [c|]; [|by eexists].
  apply visit_dependencies_ends with (n := fuel); [|  |done].
  - intros w S HS. apply IH. lia.
  - intros w S R HR. by apply addDependenciesRecursively_searched in HR as [? _].
Qed.

(** The set that [addDependency] searches for: the objects that
    [component] transitively depends on. *)
Lemma addDependenciesRecursively_closure (component : cid) :
  exists deps,
    addDependenciesRecursively (S (size cs)) cs component ∅ = Some deps
    /\ forall y, y ∈ deps <-> dependsOnClosure cs component y.
Proof.
  destruct (addDependenciesRecursively_ends (S (size cs)) component ∅)
    as [deps Hdeps].
  { rewrite difference_empty_L, size_dom. lia. }
  exists deps. split; [done|].
  apply addDependenciesRecursively_searched in Hdeps as (_ & H2 & H3 & H4).
  assert (Hclosed : forall v y, rtc (edge cs) v y -> v ∈ deps -> y ∈ deps).
  { induction 1 as [|v y z Hvy _ IH]; [done|].
    intros Hv. apply IH, (H3 v); [done|set_solver|done]. }
  intros y. split.
  - intros Hy. destruct (H4 y Hy) as (s & Hs & Hr); [set_solver|].
    by eapply tc_rtc_r; [apply tc_once|].
  - intros Hy. destruct Hy as [x y Hxy|x y z Hxy Hyz].
    + by apply H2.
    + apply (Hclosed y); [by apply tc_rtc|by apply H2].
Qed.
End dependency_search.

Lemma edge_with_dependsOn (cs : gmap cid Component.t) (src dst : cid) (c : Component.t) (x y : cid) :
  cs !! src = Some c ->
  edge (<[src := Component.with_dependsOn_
                   (Component.dependsOn_ c ++ [dst]) c]> cs) x y
  <-> edge cs x y \/ (x = src /\ y = dst /\ is_Some (cs !! dst)).
Proof.
  intros Hc. unfold edge.
  assert (Hlive : forall z,
            is_Some (<[src := Component.with_dependsOn_
                                (Component.dependsOn_ c ++ [dst]) c]> cs !! z)
            <-> is_Some (cs !! z)).
  { intros z. destruct (decide (src = z)) as [->|Hne].
    - rewrite lookup_insert_eq, Hc. split; eauto.
    - by rewrite lookup_insert_ne. }
  split.
  - intros (c' & Hc' & Hy & Hl%Hlive).
    destruct (decide (src = x)) as [->|Hne].
    + rewrite lookup_insert_eq in Hc'. injection Hc' as <-. simpl in Hy.
      apply elem_of_app in Hy as [Hy|Hy%list_elem_of_singleton].
      * left. by exists c.
      * right. by subst y.
    + rewrite lookup_insert_ne in Hc' by done. left. by exists c'.
  - intros [(c' & Hc' & Hy & Hl)|(-> & -> & Hl)].
    + destruct (decide (src = x)) as [->|Hne].
      * eexists. rewrite lookup_insert_eq. split; [done|].
        simpl. split; [|by apply Hlive].
        apply elem_of_app. left. congruence.
      * exists c'. rewrite lookup_insert_ne by done.
        split; [done|]. split; [done|]. by apply Hlive.
    + eexists. rewrite lookup_insert_eq. split; [done|].
      simpl. split; [|by apply Hlive]. apply elem_of_app. right.
      by apply list_elem_of_singleton.
Qed.

(** A new edge that closes no path back keeps the graph acyclic. *)
Lemma acyclic_with_dependsOn (cs : gmap cid Component.t) (src dst : cid) (c : Component.t) :
  cs !! src = Some c ->
  src <> dst ->
  ~ dependsOnClosure cs dst src ->
  acyclic cs ->
  acyclic (<[src := Component.with_dependsOn_
                      (Component.dependsOn_ c ++ [dst]) c]> cs).
Proof.
  intros Hc Hne Hback Hacyclic.
  set (cs' := <[src := _]> cs).
  assert (Hsplit : forall x y,
            tc (edge cs') x y ->
            tc (edge cs) x y \/ (rtc (edge cs) x src /\ rtc (edge cs) dst y)).
  { induction 1 as [x y Hxy|x y z Hxy _ IH].
    - apply (edge_with_dependsOn _ _ _ _ _ _ Hc) in Hxy as [Hxy|(-> & -> & _)].
      + left. by apply tc_once.
      + by right.
    - apply (edge_with_dependsOn _ _ _ _ _ _ Hc) in Hxy as [Hxy|(-> & -> & _)].
      + destruct IH as [IH|[IH1 IH2]].
        * left. by eapply tc_l.
        * right. split; [by eapply rtc_l|done].
      + destruct IH as [IH|[IH1 IH2]].
        * right. split; [done|by apply tc_rtc].
        * by right. }
  intros x [Hx|[Hx1 Hx2]]%Hsplit.
  - by apply (Hacyclic x).
  - assert (Hr : rtc (edge cs) dst src) by (by etrans).
    apply rtc_tc in Hr as [Hr|Hr]; [by subst|done].
Qed.

Lemma existsb_dependsOn (cs : gmap cid Component.t) (deps : list cid)
    (component : cid) :
  is_Some (cs !! component) ->
  existsb (fun w => bool_decide (is_Some (cs !! w) /\ w = component)) deps = true
  <-> component ∈ deps.
Proof.
  intros Hl. rewrite existsb_exists. split.
  - intros (w & Hw%list_elem_of_In & (_ & ->)%bool_decide_eq_true). done.
  - intros Hin. exists component. split; [by apply list_elem_of_In|].
    by apply bool_decide_eq_true.
Qed.

Lemma addDependency_acyclic (cs : gmap cid Component.t) (src dst : cid) cs' :
  acyclic cs -> addDependency cs src dst = Some (Ok cs') -> acyclic cs'.
Proof.
  intros Hacyclic. unfold addDependency.
  case_decide as Hne; [done|].
  destruct (addDependenciesRecursively_closure cs dst) as (deps & -> & Hdeps).
  simpl. case_decide as Hin; [done|].
  destruct (cs !! src) as [c|] eqn:Hc; simpl; [|done].
  destruct (existsb _ _); intros [= <-]; [done|].
  apply acyclic_with_dependsOn; [done|done| |done].
  by rewrite <- Hdeps.
Qed.

Lemma addDependencies_acyclic (es : list (cid * cid)) :
  forall cs cs', acyclic cs -> addDependencies cs es = Some cs' -> acyclic cs'.
Proof.
  induction es as [|[src dst] es IH]; intros cs cs' Hacyclic; simpl.
  { by intros [= <-]. }
  destruct (addDependency cs src dst) as [[cs1|]|] eqn:Hadd; [|done..].
  apply IH. by eapply addDependency_acyclic.
Qed.

(** C6: [src.addDependency(dst)] throws when [src] and [dst] are the same
    component; throws "Circular dependency" when [dst] transitively depends
    on [src], over paths of any length; changes nothing when [src] already
    lists [dst]; and otherwise appends [dst] to the [dependsOn_] of [src].
    So a sequence of successful insertions into an acyclic graph (one with
    no edges, say) leaves the [dependsOn_] edges acyclic. *)
Theorem addDependency_spec (cs : gmap cid Component.t) :
  (forall src dst c,
     cs !! src = Some c -> is_Some (cs !! dst) ->
     (src = dst ->
      addDependency cs src dst
      = Some (Throw (runtime_error "Cannot depend on myself!")))
     /\ (src <> dst -> dependsOnClosure cs dst src ->
         addDependency cs src dst
         = Some (Throw (runtime_error "Circular dependency")))
     /\ (src <> dst -> ~ dependsOnClosure cs dst src ->
         dst ∈ Component.dependsOn_ c ->
         addDependency cs src dst = Some (Ok cs))
     /\ (src <> dst -> ~ dependsOnClosure cs dst src ->
         dst ∉ Component.dependsOn_ c ->
         addDependency cs src dst
         = Some (Ok (<[src := Component.with_dependsOn_
                                (Component.dependsOn_ c ++ [dst]) c]> cs))))
  /\ (forall es cs',
        acyclic cs -> addDependencies cs es = Some cs' -> acyclic cs').
Proof.
  split; [|intros es cs'; apply addDependencies_acyclic].
  intros src dst c Hc Hl. unfold addDependency.
  destruct (addDependenciesRecursively_closure cs dst) as (deps & -> & Hdeps).
  simpl. rewrite Hc. simpl.
  pose proof (existsb_dependsOn cs (Component.dependsOn_ c) dst Hl) as Hex.
  repeat split.
  - intros ->. by case_decide.
  - intros Hne Hcl%Hdeps. case_decide; [congruence|]. by case_decide.
  - intros Hne Hcl Hin. case_decide; [congruence|].
    case_decide as Hd; [by apply Hdeps in Hd|].
    by rewrite (proj2 Hex Hin).
  - intros Hne Hcl Hin. case_decide; [congruence|].
    case_decide as Hd; [by apply Hdeps in Hd|].
    destruct (existsb _ _); [|done]. destruct Hin. by apply Hex.
Qed.

Lemma chain_world_closure : dependsOnClosure chain_world 0 2.
Proof.
  apply tc_l with (y := 1).
  - eexists. split; [reflexivity|]. split; [set_solver|by eexists].
  - apply tc_once. eexists. split; [reflexivity|].
    split; [set_solver|by eexists].
Qed.

Lemma addDependency_spec_witness :
  addDependency chain_world 2 0
  = Some (Throw (runtime_error "Circular dependency")).
Proof.
  refine (proj1 (proj2 (proj1 (addDependency_spec chain_world) 2 0 _ eq_refl _))
            _ chain_world_closure).
  - by eexists.
  - discriminate.
Defined.
(** ** Component state *)

Lemma State_eqb_eq (a b : State.t) : State.eqb a b = true <-> a = b.
Proof. destruct a, b; simpl; split; (done || discriminate). Qed.

Lemma State_eqb_neq (a b : State.t) : State.eqb a b = false <-> a <> b.
Proof. destruct a, b; simpl; split; (done || discriminate). Qed.

Lemma TaskState_eqb_eq (a b : TaskState.t) : TaskState.eqb a b = true <-> a = b.
Proof. destruct a, b; simpl; split; (done || discriminate). Qed.

(** *** More fuel changes nothing *)

Lemma scheduleRunTasks_with_mono (f g : World -> cid -> option World) :
  (forall w x w', f w x = Some w' -> g w x = Some w') ->
  forall w x w',
    scheduleRunTasks_with f w x = Some w' ->
    scheduleRunTasks_with g w x = Some w'.
Proof.
  intros Hfg w x w'. unfold scheduleRunTasks_with.
  destruct (negb (cluster_executing w)); [done|].
  destruct (f w x) as [w1|] eqn:Hf; [|done].
  by rewrite (Hfg _ _ _ Hf).
Qed.

Lemma Component_setState_body_mono (f g : World -> cid -> option World) :
  (forall w x w', f w x = Some w' -> g w x = Some w') ->
  forall w x s w',
    Component_setState_body f w x s = Some w' ->
    Component_setState_body g w x s = Some w'.
Proof.
  intros Hfg w x s w'. unfold Component_setState_body.
  destruct (components w !! x) as [c|]; [|done]. simpl.
  destruct (State.eqb s (Component.state_ c)); [done|].
  destruct (State.leb State.RUNNING s); [|done].
  destruct (parentPtr _ x) as [p|]; [|done].
  destruct (f _ p) as [w2|] eqn:Hf; [|done].
  rewrite (Hfg _ _ _ Hf). simpl.
  by apply scheduleRunTasks_with_mono.
Qed.

Lemma Component_evaluate_body_mono
    (f g : World -> cid -> State.t -> option World) :
  (forall w x s w', f w x s = Some w' -> g w x s = Some w') ->
  forall w x w',
    Component_evaluate_body f w x = Some w' ->
    Component_evaluate_body g w x = Some w'.
Proof.
  intros Hfg w x w'. unfold Component_evaluate_body.
  destruct (components w !! x) as [c|]; [|done]. simpl.
  destruct (getRoot _ x) as [root|]; [|done]. simpl.
  destruct (components w !! root) as [rc|]; [|done]. simpl.
  destruct (Component.tasks_ rc) as [t|]; [|done].
  destruct (evaluate_tasks _ _ _ _ _ _ _) as [[[allDone numTasks] newState] failed].
  assert (Hlast : forall w1 c1,
            (if (negb (Nat.eqb numTasks 0) && State.ltb (Component.state_ c1) newState)%bool
             then f w1 x newState else Some w1) = Some w' ->
            (if (negb (Nat.eqb numTasks 0) && State.ltb (Component.state_ c1) newState)%bool
             then g w1 x newState else Some w1) = Some w').
  { intros w1 c1. destruct (_ && _)%bool; [apply Hfg|done]. }
  destruct failed.
  - destruct (f w x State.FAILED) as [w1|] eqn:Hf; [|done].
    rewrite (Hfg _ _ _ _ Hf). simpl.
    destruct (components w1 !! x) as [c1|]; [|done]. simpl.
    destruct allDone; [|apply Hlast].
    destruct (evaluate_children _ _ _) as [b|]; [|apply Hfg].
    destruct (isBlockedOnDependency _ _); [done|].
    destruct (negb b); [apply Hfg|apply Hlast].
  - simpl. destruct (components w !! x) as [c1|]; [|done]. simpl.
    destruct allDone; [|apply Hlast].
    destruct (evaluate_children _ _ _) as [b|]; [|apply Hfg].
    destruct (isBlockedOnDependency _ _); [done|].
    destruct (negb b); [apply Hfg|apply Hlast].
Qed.

Lemma Component_fuel_mono (n : nat) :
  (forall w x w', Component_evaluate n w x = Some w' ->
     forall m, n <= m -> Component_evaluate m w x = Some w')
  /\ (forall w x s w', Component_setState n w x s = Some w' ->
        forall m, n <= m -> Component_setState m w x s = Some w').
Proof.
  induction n as [|n [IHe IHs]]; [by split|].
  split.
  - intros w x w' H [|m] Hm; [lia|]. simpl in *.
    eapply Component_evaluate_body_mono; [|done].
    intros. apply IHs; [done|lia].
  - intros w x s w' H [|m] Hm; [lia|]. simpl in *.
    eapply Component_setState_body_mono; [|done].
    intros. apply IHe; [done|lia].
Qed.

Lemma Component_evaluate_mono (n m : nat) w x w' :
  Component_evaluate n w x = Some w' -> n <= m ->
  Component_evaluate m w x = Some w'.
Proof. intros H Hm. by apply (proj1 (Component_fuel_mono n) _ _ _ H). Qed.

Lemma Component_setState_mono (n m : nat) w x s w' :
  Component_setState n w x s = Some w' -> n <= m ->
  Component_setState m w x s = Some w'.
Proof. intros H Hm. by apply (proj2 (Component_fuel_mono n) _ _ _ _ H). Qed.

(** *** The tree does not change *)

Lemma same_tree_lookup (cs cs' : gmap cid Component.t) (x : cid) :
  same_tree cs cs' ->
  Shape.erase <$> (cs !! x) = Shape.erase <$> (cs' !! x).
Proof.
  intros H. unfold same_tree in H.
  by rewrite <- !lookup_fmap, H.
Qed.

Lemma same_tree_Some (cs cs' : gmap cid Component.t) (x : cid) c :
  same_tree cs cs' -> cs !! x = Some c ->
  exists c', cs' !! x = Some c' /\ Shape.erase c' = Shape.erase c.
Proof.
  intros H%(same_tree_lookup _ _ x) Hc. rewrite Hc in H.
  destruct (cs' !! x) as [c'|]; [|done]. exists c'. split; [done|].
  simpl in H. congruence.
Qed.

Lemma same_tree_None (cs cs' : gmap cid Component.t) (x : cid) :
  same_tree cs cs' -> cs !! x = None -> cs' !! x = None.
Proof.
  intros H%(same_tree_lookup _ _ x) Hc. rewrite Hc in H.
  by destruct (cs' !! x).
Qed.

Lemma same_tree_sym (cs cs' : gmap cid Component.t) :
  same_tree cs cs' -> same_tree cs' cs.
Proof. done. Qed.

Lemma same_tree_trans (cs1 cs2 cs3 : gmap cid Component.t) :
  same_tree cs1 cs2 -> same_tree cs2 cs3 -> same_tree cs1 cs3.
Proof. unfold same_tree. congruence. Qed.

Lemma same_tree_insert (cs : gmap cid Component.t) (x : cid) c c' :
  cs !! x = Some c -> Shape.erase c' = Shape.erase c ->
  same_tree cs (<[x := c']> cs).
Proof.
  intros Hc He. unfold same_tree. apply map_eq. intros y.
  rewrite !lookup_fmap. destruct (decide (x = y)) as [->|Hne].
  - rewrite lookup_insert_eq, Hc. simpl. by rewrite He.
  - by rewrite lookup_insert_ne.
Qed.

Lemma erase_parent_ c c' :
  Shape.erase c' = Shape.erase c -> Component.parent_ c' = Component.parent_ c.
Proof. intros H. by apply (f_equal Component.parent_) in H. Qed.

Lemma erase_children_ c c' :
  Shape.erase c' = Shape.erase c ->
  Component.children_ c' = Component.children_ c.
Proof. intros H. by apply (f_equal Component.children_) in H. Qed.

Lemma erase_dependsOn_ c c' :
  Shape.erase c' = Shape.erase c ->
  Component.dependsOn_ c' = Component.dependsOn_ c.
Proof. intros H. by apply (f_equal Component.dependsOn_) in H. Qed.

Lemma erase_mode_ c c' :
  Shape.erase c' = Shape.erase c -> Component.mode_ c' = Component.mode_ c.
Proof. intros H. by apply (f_equal Component.mode_) in H. Qed.

Lemma erase_tasks_ c c' :
  Shape.erase c' = Shape.erase c -> Component.tasks_ c' = Component.tasks_ c.
Proof. intros H. by apply (f_equal Component.tasks_) in H. Qed.

Lemma same_tree_parentPtr (cs cs' : gmap cid Component.t) (x : cid) :
  same_tree cs cs' -> parentPtr cs' x = parentPtr cs x.
Proof.
  intros H. unfold parentPtr.
  destruct (cs !! x) as [c|] eqn:Hc.
  - destruct (same_tree_Some _ _ _ _ H Hc) as (c' & -> & He). simpl.
    rewrite (erase_parent_ _ _ He).
    destruct (Component.parent_ c) as [p|]; [|done]. simpl.
    destruct (cs !! p) as [pc|] eqn:Hp.
    + by destruct (same_tree_Some _ _ _ _ H Hp) as (pc' & -> & _).
    + by rewrite (same_tree_None _ _ _ H Hp).
  - by rewrite (same_tree_None _ _ _ H Hc).
Qed.

Lemma same_tree_size (cs cs' : gmap cid Component.t) :
  same_tree cs cs' -> size cs' = size cs.
Proof.
  intros H. unfold same_tree in H.
  by rewrite <- (map_size_fmap Shape.erase cs'), <- H, map_size_fmap.
Qed.

Lemma same_tree_getRoot (cs cs' : gmap cid Component.t) (x : cid) :
  same_tree cs cs' -> getRoot cs' x = getRoot cs x.
Proof.
  intros H. unfold getRoot. rewrite (same_tree_size _ _ H).
  generalize (S (size cs)). intros fuel. revert x.
  induction fuel as [|fuel IH]; intros x; simpl; [done|].
  rewrite (same_tree_parentPtr _ _ _ H).
  destruct (parentPtr cs x); [apply IH|done].
Qed.

Lemma same_tree_task_list (cs cs' : gmap cid Component.t) (x : cid) :
  same_tree cs cs' -> task_list cs' x = task_list cs x.
Proof.
  intros H. unfold task_list. rewrite (same_tree_getRoot _ _ _ H).
  destruct (getRoot cs x) as [root|]; [|done]. simpl.
  destruct (cs !! root) as [rc|] eqn:Hrc.
  - destruct (same_tree_Some _ _ _ _ H Hrc) as (rc' & -> & He). simpl.
    by rewrite (erase_tasks_ _ _ He).
  - by rewrite (same_tree_None _ _ _ H Hrc).
Qed.

Lemma same_tree_wf (depth : cid -> nat) (cs cs' : gmap cid Component.t) :
  same_tree cs cs' -> tree_wf depth cs -> tree_wf depth cs'.
Proof.
  intros H Hwf x c' Hc'.
  destruct (same_tree_Some _ _ _ _ (same_tree_sym _ _ H) Hc') as (c & Hc & He).
  destruct (Hwf x c Hc) as [Hp Hch]. split.
  - intros p. rewrite (same_tree_parentPtr _ _ _ H). apply Hp.
  - intros ch. rewrite <- (erase_children_ _ _ He). apply Hch.
Qed.

(** *** The root is found *)

Lemma parentPtr_live (cs : gmap cid Component.t) (x p : cid) :
  parentPtr cs x = Some p -> is_Some (cs !! x) /\ is_Some (cs !! p).
Proof.
  unfold parentPtr. destruct (cs !! x) as [c|]; [|done]. simpl.
  destruct (Component.parent_ c) as [q|]; [|done]. simpl.
  destruct (cs !! q) eqn:Hq; [|done]. simpl. intros [= <-].
  rewrite Hq. eauto.
Qed.

Lemma tree_wf_path (depth : cid -> nat) (cs : gmap cid Component.t) :
  tree_wf depth cs -> forall x, exists l, path_to_root cs x l.
Proof.
  intros Hwf x.
  remember (depth x) as k eqn:Hk. revert x Hk.
  induction (lt_wf k) as [k _ IH]. intros x ->.
  destruct (parentPtr cs x) as [p|] eqn:Hp.
  - destruct (parentPtr_live _ _ _ Hp) as [[c Hc] _].
    destruct (IH (depth p) (proj1 (Hwf x c Hc) p Hp) p eq_refl) as [l Hl].
    exists (x :: l). by eapply path_step.
  - exists [x]. by apply path_root.
Qed.

Lemma getRoot_loop_path cs (x : cid) (l : list cid) (fuel : nat) :
  path_to_root cs x l -> length l <= fuel ->
  exists root, getRoot_loop fuel cs x = Some root
               /\ (is_Some (cs !! x) -> is_Some (cs !! root)).
Proof.
  intros Hl. revert fuel.
  induction Hl as [x Hx|x p path Hp Hpath IH]; intros [|fuel] Hlen;
    simpl in *; try lia.
  - rewrite Hx. by exists x.
  - rewrite Hp. destruct (IH fuel) as (root & Hroot & Hlive); [lia|].
    exists root. split; [done|]. intros _. apply Hlive.
    by apply (parentPtr_live _ _ _ Hp).
Qed.

Lemma getRoot_live (depth : cid -> nat) (cs : gmap cid Component.t) (x : cid) :
  tree_wf depth cs -> is_Some (cs !! x) ->
  exists root, getRoot cs x = Some root /\ is_Some (cs !! root).
Proof.
  intros Hwf Hx. destruct (tree_wf_path _ _ Hwf x) as [l Hl].
  destruct (getRoot_loop_path cs x l (S (size cs)) Hl) as (root & Hr & Hlive).
  { by apply (path_to_root_length cs x). }
  exists root. split; [done|by apply Hlive].
Qed.

(** *** What the loops of [evaluate] compute *)

Lemma evaluate_tasks_spec (ts : gmap tid Task.t) (x : cid) (s : State.t)
    (t : list tid) :
  forall allDone numTasks newState,
    exists numTasks' newState',
      evaluate_tasks ts x s t allDone numTasks newState
      = ((allDone && forallb task_done (own_states ts x t))%bool, numTasks',
         newState',
         (existsb task_failed (own_states ts x t) && State.ltb s State.FAILED)%bool)
      /\ (newState' = newState \/ newState' = State.RUNNING /\ s = State.CREATING).
Proof.
  induction t as [|id t IH]; intros allDone numTasks newState; simpl.
  { exists numTasks, newState. rewrite andb_true_r. by split; [|left]. }
  destruct (ts !! id) as [task|]; simpl; [|apply IH].
  destruct (Nat.eqb (Task.component_ task) x); simpl; [|apply IH].
  unfold task_done at 1, task_failed at 1.
  destruct (State.ltb s State.FAILED) eqn:Hs.
  - destruct (TaskState.ltb TaskState.DONE (Task.state_ task)) eqn:Hf; simpl.
    + eexists _, _. split.
      * assert (TaskState.eqb (Task.state_ task) TaskState.DONE = false) as ->
          by (by destruct (Task.state_ task)).
        by rewrite andb_false_r.
      * destruct (TaskState.leb _ _ && _)%bool eqn:Hb; [right|by left].
        apply andb_true_iff in Hb as [_ Hb%State_eqb_eq]. done.
    + destruct (IH (if TaskState.eqb (Task.state_ task) TaskState.DONE
                    then allDone else false) (S numTasks)
                  (if (TaskState.leb TaskState.BLOCKED (Task.state_ task)
                       && State.eqb s State.CREATING)%bool
                   then State.RUNNING else newState))
        as (n' & ns' & -> & Hns).
      exists n', ns'. split.
      * rewrite andb_true_r. f_equal. f_equal. f_equal.
        destruct (TaskState.eqb _ _); simpl; [done|].
        by rewrite andb_false_r.
      * destruct (TaskState.leb _ _ && _)%bool eqn:Hb; [|done].
        apply andb_true_iff in Hb as [_ Hb%State_eqb_eq].
        destruct Hns as [->|[-> _]]; by right.
  - rewrite !andb_false_r.
    destruct (IH (if TaskState.eqb (Task.state_ task) TaskState.DONE
                  then allDone else false) (S numTasks)
                (if (TaskState.leb TaskState.BLOCKED (Task.state_ task)
                     && State.eqb s State.CREATING)%bool
                 then State.RUNNING else newState))
      as (n' & ns' & -> & Hns).
    exists n', ns'. rewrite !andb_false_r. split.
    + f_equal. f_equal. f_equal.
      destruct (TaskState.eqb _ _); simpl; [done|].
      by rewrite andb_false_r.
    + destruct (TaskState.leb _ _ && _)%bool eqn:Hb; [|done].
      apply andb_true_iff in Hb as [_ Hb%State_eqb_eq].
      destruct Hns as [->|[-> _]]; by right.
Qed.

Lemma evaluate_children_spec (cs : gmap cid Component.t) (c : Component.t) :
  forall blockedOnChild,
    evaluate_children cs (Component.children_ c) blockedOnChild
    = if existsb child_failed (child_states cs c) then None
      else Some (blockedOnChild
                 || negb (forallb child_done (child_states cs c)))%bool.
Proof.
  unfold child_states.
  induction (Component.children_ c) as [|ch chs IH]; intros b; simpl.
  { by rewrite orb_false_r. }
  destruct (cs !! ch) as [child|]; simpl; [|apply IH].
  unfold child_done at 1, child_failed at 1.
  destruct (Component.state_ child); simpl; rewrite ?IH; try done.
  - destruct (existsb _ _); [done|]. by rewrite orb_true_r.
  - destruct (existsb _ _); [done|]. by rewrite orb_true_r.
Qed.

(** *** Frames *)

Lemma evaluate_frame_refl depth (x : cid) (w : World) :
  evaluate_frame depth x w w.
Proof. unfold evaluate_frame. by split_and!. Qed.

Lemma evaluate_frame_trans depth (x : cid) (w1 w2 w3 : World) :
  evaluate_frame depth x w1 w2 -> evaluate_frame depth x w2 w3 ->
  evaluate_frame depth x w1 w3.
Proof.
  intros (A1 & A2 & A3 & A4 & A5 & A6) (B1 & B2 & B3 & B4 & B5 & B6).
  do 4 (split; [congruence|]). split.
  - by eapply same_tree_trans.
  - intros y Hy Hd. by rewrite B6, A6.
Qed.

Lemma evaluate_frame_above depth (x p : cid) (w1 w2 : World) :
  depth p < depth x ->
  evaluate_frame depth p w1 w2 ->
  evaluate_frame depth x w1 w2
  /\ components w2 !! x = components w1 !! x.
Proof.
  intros Hd (A1 & A2 & A3 & A4 & A5 & A6). split.
  - unfold evaluate_frame. split_and!; try done.
    intros y Hy Hdy. apply A6; [|lia]. intros ->. lia.
  - apply A6; [|lia]. intros ->. lia.
Qed.

Lemma evaluate_frame_post depth (x : cid) (j : Job) (w : World) :
  evaluate_frame depth x w (post j w).
Proof. unfold evaluate_frame. by split_and!. Qed.

Lemma evaluate_frame_live depth (x y : cid) (w w' : World) :
  evaluate_frame depth x w w' ->
  is_Some (components w !! y) -> is_Some (components w' !! y).
Proof.
  intros (_ & _ & _ & _ & Htree & _) [c Hc].
  destruct (same_tree_Some _ _ _ _ Htree Hc) as (c' & -> & _). eauto.
Qed.

Lemma evaluate_frame_wf depth (x : cid) (w w' : World) :
  evaluate_frame depth x w w' ->
  tree_wf depth (components w) -> tree_wf depth (components w').
Proof. intros (_ & _ & _ & _ & Htree & _). by apply same_tree_wf. Qed.

(** The tasks and the children that decide the rank of [x] are out of the
    reach of a call on [x]. *)
Lemma evaluate_frame_rank depth (x : cid) (w w' : World) c c' :
  tree_wf depth (components w) ->
  evaluate_frame depth x w w' ->
  components w !! x = Some c ->
  components w' !! x = Some c' ->
  evaluate_rank w' x = rank_with w x c (Component.state_ c').
Proof.
  intros Hwf (A1 & A2 & A3 & A4 & A5 & A6) Hc Hc'.
  unfold evaluate_rank, rank_with.
  rewrite Hc', A1, (same_tree_task_list _ _ _ A5).
  f_equal. unfold child_states.
  destruct (same_tree_Some _ _ _ _ A5 Hc) as (c2 & Hc2 & He).
  assert (c2 = c') as -> by congruence.
  rewrite (erase_children_ _ _ He).
  apply list_omap_ext, Forall2_same_length_lookup_2; [done|].
  intros i ch ch' Hch [= <-]%(eq_trans (eq_sym Hch)).
  apply list_elem_of_lookup_2 in Hch.
  rewrite A6; [done| |].
  - intros ->. pose proof (proj2 (Hwf x c Hc) x Hch). lia.
  - pose proof (proj2 (Hwf x c Hc) ch Hch). lia.
Qed.


Lemma Component_setState_write_spec (w : World) (x : cid) (s : State.t) c :
  exists c1,
    components (Component_setState_write w x c s) = <[x := c1]> (components w)
    /\ Shape.erase c1 = Shape.erase c
    /\ Component.state_ c1 = s
    /\ tasks (Component_setState_write w x c s) = tasks w
    /\ cluster_executing (Component_setState_write w x c s) = cluster_executing w
    /\ clock (Component_setState_write w x c s) = clock w
    /\ requests (Component_setState_write w x c s) = requests w.
Proof.
  unfold Component_setState_write, calculateElapsed.
  destruct (State.eqb s State.DONE), (State.eqb s State.FAILED),
    (Component.startTime c) eqn:Hst; simpl;
    try destruct (Component.executionPromise_ c); simpl; rewrite ?Hst;
    (eexists; split; [reflexivity|]; by split_and!).
Qed.

Lemma evaluate_frame_write depth (x : cid) (w w1 : World) c c1 :
  components w !! x = Some c ->
  components w1 = <[x := c1]> (components w) ->
  Shape.erase c1 = Shape.erase c ->
  tasks w1 = tasks w ->
  cluster_executing w1 = cluster_executing w ->
  clock w1 = clock w ->
  requests w1 = requests w ->
  evaluate_frame depth x w w1.
Proof.
  intros Hc Hcs He Ht Hx Hk Hr. unfold evaluate_frame.
  do 4 (split; [done|]). rewrite Hcs. split.
  - by eapply same_tree_insert.
  - intros y Hy _. by rewrite lookup_insert_ne.
Qed.

Lemma evaluate_rank_post (j : Job) (w : World) (x : cid) :
  evaluate_rank (post j w) x = evaluate_rank w x.
Proof. done. Qed.

(** *** [evaluate] and [setState] return *)

Lemma env_frame depth (x : cid) (w w' : World) c c' :
  tree_wf depth (components w) ->
  evaluate_frame depth x w w' ->
  components w !! x = Some c ->
  components w' !! x = Some c' ->
  own_states (tasks w') x (task_list (components w') x)
  = own_states (tasks w) x (task_list (components w) x)
  /\ child_states (components w') c' = child_states (components w) c.
Proof.
  intros Hwf Hf Hc Hc'.
  pose proof Hf as (A1 & A2 & A3 & A4 & A5 & A6).
  destruct (same_tree_Some _ _ _ _ A5 Hc) as (c2 & Hc2 & He).
  assert (c2 = c') as -> by congruence.
  rewrite A1, (same_tree_task_list _ _ _ A5). split; [done|].
  unfold child_states. rewrite (erase_children_ _ _ He).
  apply list_omap_ext, Forall2_same_length_lookup_2; [done|].
  intros i ch ch' Hch [= <-]%(eq_trans (eq_sym Hch)).
  apply list_elem_of_lookup_2 in Hch.
  rewrite A6; [done| |].
  - intros ->. pose proof (proj2 (Hwf x c Hc) x Hch). lia.
  - pose proof (proj2 (Hwf x c Hc) ch Hch). lia.
Qed.

Lemma rank_with_frame depth (x : cid) (w w' : World) c c' (s : State.t) :
  tree_wf depth (components w) ->
  evaluate_frame depth x w w' ->
  components w !! x = Some c ->
  components w' !! x = Some c' ->
  rank_with w' x c' s = rank_with w x c s.
Proof.
  intros Hwf Hf Hc Hc'. unfold rank_with.
  by destruct (env_frame depth x w w' c c' Hwf Hf Hc Hc') as [-> ->].
Qed.

Lemma failed_env_frame depth (x : cid) (w w' : World) c c' :
  tree_wf depth (components w) ->
  evaluate_frame depth x w w' ->
  components w !! x = Some c ->
  components w' !! x = Some c' ->
  failed_env w' x c' = failed_env w x c.
Proof.
  intros Hwf Hf Hc Hc'. unfold failed_env.
  by destruct (env_frame depth x w w' c c' Hwf Hf Hc Hc') as [-> ->].
Qed.

Lemma target_env_frame depth (x : cid) (w w' : World) c c' (s : State.t) :
  tree_wf depth (components w) ->
  evaluate_frame depth x w w' ->
  components w !! x = Some c ->
  components w' !! x = Some c' ->
  target_env w' x c' s = target_env w x c s.
Proof.
  intros Hwf Hf Hc Hc'. unfold target_env, failed_env, done_env.
  by destruct (env_frame depth x w w' c c' Hwf Hf Hc Hc') as [-> ->].
Qed.

Section evaluate_returns.
Variable depth : cid -> nat.
Variables k r : nat.

(** The calls on a higher component, and the calls on a component of the
    same depth and a lower rank, return. *)
Hypothesis IHk : forall w x,
  depth x < k -> tree_wf depth (components w) ->
  is_Some (components w !! x) -> evaluate_ok depth w x.
Hypothesis IHr : forall w x,
  depth x = k -> evaluate_rank w x < r -> tree_wf depth (components w) ->
  is_Some (components w !! x) -> evaluate_ok depth w x.

Lemma Component_setState_step (w : World) (x : cid) (s : State.t) c :
  depth x = k ->
  tree_wf depth (components w) ->
  components w !! x = Some c ->
  s <> Component.state_ c ->
  rank_with w x c s < r ->
  exists n w',
    Component_setState n w x s = Some w'
    /\ evaluate_frame depth x w w'
    /\ evaluate_rank w' x <= rank_with w x c s
    /\ (forall c', components w' !! x = Some c' ->
          Component.state_ c' = s
          \/ target_env w x c (Component.state_ c') = true).
Proof.
  intros Hk Hwf Hc Hs Hr.
  destruct (Component_setState_write_spec w x s c)
    as (c1 & Hcs & He & Hs1 & Ht & Hx & Hclk & Hrq).
  set (w1 := Component_setState_write w x c s) in *.
  assert (Hf1 : evaluate_frame depth x w w1)
    by (by eapply evaluate_frame_write).
  assert (Hc1 : components w1 !! x = Some c1)
    by (by rewrite Hcs, lookup_insert_eq).
  assert (Hwf1 : tree_wf depth (components w1))
    by (by eapply evaluate_frame_wf).
  assert (Hr1 : evaluate_rank w1 x = rank_with w x c s).
  { rewrite (evaluate_frame_rank depth x w w1 c c1) by done.
    by rewrite Hs1. }
  assert (Hbody : forall ev,
            Component_setState_body ev w x s
            = if State.leb State.RUNNING s
              then match parentPtr (components w1) x with
                   | Some parent =>
                       w ← ev w1 parent; scheduleRunTasks_with ev w x
                   | None => Some w1
                   end
              else Some w1).
  { intros ev. unfold Component_setState_body. rewrite Hc. simpl.
    by rewrite (proj2 (State_eqb_neq _ _) Hs). }
  destruct (State.leb State.RUNNING s) eqn:Hrun; cycle 1.
  { exists 1, w1. simpl. rewrite Hbody. split; [done|]. split; [done|].
    split; [lia|]. intros c' Hc'. left. congruence. }
  destruct (parentPtr (components w1) x) as [p|] eqn:Hp; cycle 1.
  { exists 1, w1. simpl. rewrite Hbody. split; [done|]. split; [done|].
    split; [lia|]. intros c' Hc'. left. congruence. }
  assert (Hdp : depth p < depth x) by (by apply (Hwf1 x c1 Hc1)).
  destruct (IHk w1 p) as (n1 & w2 & He1 & Hf2 & _);
    [lia|done|by apply (parentPtr_live _ _ _ Hp)|].
  destruct (evaluate_frame_above depth x p w1 w2 Hdp Hf2) as [Hf2x Hx2].
  assert (Hc2 : components w2 !! x = Some c1) by congruence.
  assert (Hwf2 : tree_wf depth (components w2))
    by (by eapply evaluate_frame_wf).
  assert (Hf02 : evaluate_frame depth x w w2)
    by (by eapply evaluate_frame_trans).
  assert (Hr2 : evaluate_rank w2 x = rank_with w x c s).
  { rewrite (evaluate_frame_rank depth x w w2 c c1) by done.
    by rewrite Hs1. }
  destruct (cluster_executing w2) eqn:Hexec; cycle 1.
  { exists (S n1), w2. simpl. rewrite Hbody, He1. simpl.
    unfold scheduleRunTasks_with. rewrite Hexec. simpl.
    split; [done|]. split; [done|]. split; [lia|].
    intros c' Hc'. left. congruence. }
  destruct (IHr w2 x) as (n2 & w3 & He2 & Hf3 & Hr3 & Hp3);
    [done|lia|done|by eexists|].
  assert (Hwf3 : tree_wf depth (components w3))
    by (by eapply evaluate_frame_wf).
  destruct (getRoot_live depth (components w3) x Hwf3) as (root & Hroot & _).
  { eapply evaluate_frame_live; [done|by eexists]. }
  exists (S (max n1 n2)), (post (JobRunTasks x root) w3). simpl.
  rewrite Hbody.
  rewrite (Component_evaluate_mono n1 (max n1 n2) _ _ _ He1) by lia.
  simpl. unfold scheduleRunTasks_with. rewrite Hexec. simpl.
  rewrite (Component_evaluate_mono n2 (max n1 n2) _ _ _ He2) by lia.
  simpl. rewrite Hroot. simpl. split; [done|]. split; [|split].
  - eapply evaluate_frame_trans; [|apply evaluate_frame_post].
    by eapply evaluate_frame_trans.
  - rewrite evaluate_rank_post. lia.
  - intros c' Hc'. simpl in Hc'.
    destruct (Hp3 c1 c' Hc2 Hc') as [H|H]; [left; congruence|].
    right. by rewrite <- (target_env_frame depth x w w2 c c1).
Qed.

(** A call of [setState] from [evaluate]: it changes nothing, or it
    lowers the rank. *)
Lemma Component_setState_any (w : World) (x : cid) (s : State.t) c :
  depth x = k ->
  evaluate_rank w x = r ->
  tree_wf depth (components w) ->
  components w !! x = Some c ->
  (s <> Component.state_ c -> rank_with w x c s < r) ->
  exists n w',
    Component_setState n w x s = Some w'
    /\ evaluate_frame depth x w w'
    /\ evaluate_rank w' x <= evaluate_rank w x
    /\ (forall c', components w' !! x = Some c' ->
          Component.state_ c' = Component.state_ c
          \/ Component.state_ c' = s
          \/ target_env w x c (Component.state_ c') = true).
Proof.
  intros Hk Hr Hwf Hc Hlt.
  destruct (State.eqb s (Component.state_ c)) eqn:He.
  - exists 1, w. simpl. unfold Component_setState_body. rewrite Hc. simpl.
    rewrite He. split; [done|]. split; [apply evaluate_frame_refl|].
    split; [lia|]. intros c' Hc'. left. congruence.
  - apply State_eqb_neq in He as Hne.
    destruct (Component_setState_step w x s c)
      as (n & w' & H1 & H2 & H3 & H4); [done..|by apply Hlt|].
    exists n, w'. split; [done|]. split; [done|].
    specialize (Hlt Hne). split; [lia|].
    intros c' Hc'. right. by apply (H4 c').
Qed.

Lemma Component_evaluate_step (w : World) (x : cid) :
  depth x = k ->
  evaluate_rank w x = r ->
  tree_wf depth (components w) ->
  is_Some (components w !! x) ->
  evaluate_ok depth w x.
Proof.
  intros Hk Hr Hwf [c Hc].
  destruct (getRoot_live depth (components w) x Hwf) as (root & Hroot & [rc Hrc]);
    [by eexists|].
  assert (Hbody : forall n,
            Component_evaluate (S n) w x
            = Component_evaluate_body (Component_setState n) w x) by done.
  assert (Hsame : forall w',
          evaluate_frame depth x w w'
          /\ evaluate_rank w' x <= evaluate_rank w x ->
          (forall c', components w' !! x = Some c' ->
             Component.state_ c' = Component.state_ c
             \/ target_env w x c (Component.state_ c') = true) ->
          evaluate_frame depth x w w'
          /\ evaluate_rank w' x <= evaluate_rank w x
          /\ (forall c0 c',
                components w !! x = Some c0 ->
                components w' !! x = Some c' ->
                Component.state_ c' = Component.state_ c0
                \/ target_env w x c0 (Component.state_ c') = true)).
  { intros w' [H1 H2] H3. split; [done|]. split; [done|].
    intros c0 c' Hc0 Hc'. assert (c0 = c) as -> by congruence. eauto. }
  assert (Hrefl : evaluate_frame depth x w w
                  /\ evaluate_rank w x <= evaluate_rank w x
                  /\ (forall c0 c',
                        components w !! x = Some c0 ->
                        components w !! x = Some c' ->
                        Component.state_ c' = Component.state_ c0
                        \/ target_env w x c0 (Component.state_ c') = true)).
  { apply Hsame; [split; [apply evaluate_frame_refl|lia]|].
    intros c' Hc'. left. congruence. }
  unfold evaluate_ok.
  destruct (Component.tasks_ rc) as [t|] eqn:Ht; cycle 1.
  { exists 1, w. split; [|exact Hrefl].
    rewrite Hbody. unfold Component_evaluate_body.
    rewrite Hc. simpl. rewrite Hroot. simpl. rewrite Hrc. simpl. by rewrite Ht. }
  assert (Hlist : task_list (components w) x = t).
  { unfold task_list. rewrite Hroot. simpl. rewrite Hrc. simpl. by rewrite Ht. }
  destruct (evaluate_tasks_spec (tasks w) x (Component.state_ c) t
              true 0 State.CREATING) as (numTasks & newState & Hscan & Hns).
  pose proof (evaluate_children_spec (components w) c false) as Hchildren.
  assert (Hrank : forall s,
            rank_with w x c s
            = rank_of (own_states (tasks w) x t)
                (child_states (components w) c) s).
  { intros s. unfold rank_with. by rewrite Hlist. }
  assert (Henv : failed_env w x c
                 = failed_env_of (own_states (tasks w) x t)
                     (child_states (components w) c)).
  { unfold failed_env. by rewrite Hlist. }
  assert (HenvD : done_env w x c
                  = (forallb task_done (own_states (tasks w) x t)
                     && forallb child_done (child_states (components w) c))%bool).
  { unfold done_env. by rewrite Hlist. }
  assert (Hr' : r = rank_of (own_states (tasks w) x t)
                      (child_states (components w) c) (Component.state_ c)).
  { rewrite <- Hr. unfold evaluate_rank. by rewrite Hc, Hrank. }
  set (own := own_states (tasks w) x t) in *.
  set (chs := child_states (components w) c) in *.
  assert (Heval : forall n,
            Component_evaluate_body (Component_setState n) w x
            = let '(allDone, numTasks, newState, failed) :=
                ((true && forallb task_done own)%bool, numTasks, newState,
                 (existsb task_failed own
                  && State.ltb (Component.state_ c) State.FAILED)%bool) in
              w ← (if failed then Component_setState n w x State.FAILED
                   else Some w);
              c ← components w !! x;
              let last_test :=
                if (negb (Nat.eqb numTasks 0)
                    && State.ltb (Component.state_ c) newState)%bool
                then Component_setState n w x newState
                else Some w in
              if allDone
              then
                match evaluate_children (components w)
                        (Component.children_ c) false with
                | None => Component_setState n w x State.FAILED
                | Some blockedOnChild =>
                    if isBlockedOnDependency (components w) c then Some w
                    else if negb blockedOnChild
                    then Component_setState n w x State.DONE
                    else last_test
                end
              else last_test).
  { intros n. unfold Component_evaluate_body.
    rewrite Hc. simpl. rewrite Hroot. simpl. rewrite Hrc. simpl.
    by rewrite Ht, Hscan. }
  simpl in Heval.
  assert (Hlast : forall s,
            (negb (Nat.eqb numTasks 0) && State.ltb s newState)%bool = true ->
            newState = State.RUNNING /\ s = State.CREATING
            /\ Component.state_ c = State.CREATING).
  { intros s [_ Hlt]%andb_true_iff.
    destruct Hns as [->|[-> ->]]; [by destruct s|].
    by destruct s. }
  destruct (existsb task_failed own) eqn:Hfailed.
  - (* a task of the component has failed *)
    assert (Hnd : forallb task_done own = false).
    { apply not_true_iff_false. intros Hd.
      apply existsb_exists in Hfailed as (ts & Hin & Hts).
      rewrite forallb_forall in Hd. specialize (Hd ts Hin).
      by destruct ts. }
    rewrite Hnd in Heval.
    assert (HenvF : failed_env w x c = true).
    { rewrite Henv. unfold failed_env_of. by rewrite Hfailed. }
    assert (HrankF : forall s,
              rank_of own chs s
              = match s with
                | State.CREATING => 2 | State.FAILED => 0 | _ => 1
                end).
    { intros s. unfold rank_of. by rewrite <- Henv, HenvF. }
    destruct (State.ltb (Component.state_ c) State.FAILED) eqn:Hlt;
      simpl in Heval.
    + destruct (Component_setState_step w x State.FAILED c)
        as (n1 & w1 & Hs1 & Hf1 & Hr1 & _); [done..| | |].
      { intros He. rewrite <- He in Hlt. discriminate Hlt. }
      { rewrite Hrank, Hr', !HrankF.
        destruct (Component.state_ c); simpl; (lia || discriminate Hlt). }
      destruct (evaluate_frame_live depth x x w w1 Hf1) as [c1 Hc1];
        [by eexists|].
      rewrite Hrank, HrankF in Hr1.
      rewrite (evaluate_frame_rank depth x w w1 c c1) in Hr1 by done.
      rewrite Hrank, HrankF in Hr1.
      assert (Component.state_ c1 = State.FAILED) as Hst1
        by (destruct (Component.state_ c1); simpl in Hr1; done || lia).
      exists (S n1), w1. split.
      { rewrite Hbody, Heval, Hs1. simpl. rewrite Hc1. simpl.
        rewrite Hst1. replace (State.ltb State.FAILED newState) with false
          by (by destruct newState).
        by rewrite andb_false_r. }
      apply Hsame; [|intros c' Hc'; right;
                      assert (c' = c1) as -> by congruence;
                      by rewrite Hst1]. split; [done|].
      rewrite (evaluate_frame_rank depth x w w1 c c1) by done.
      rewrite Hst1, Hrank, HrankF. lia.
    + destruct (negb (Nat.eqb numTasks 0)
                && State.ltb (Component.state_ c) newState)%bool eqn:Hb.
      { apply Hlast in Hb as (_ & _ & Hb). rewrite Hb in Hlt. discriminate Hlt. }
      exists 1, w. split; [|exact Hrefl].
      rewrite Hbody, Heval. simpl. rewrite Hc. simpl. by rewrite Hb.
  - (* no task of the component has failed *)
    simpl in Heval. setoid_rewrite Hc in Heval. simpl in Heval.
    assert (Hany : forall s,
            (s <> Component.state_ c -> rank_of own chs s < r) ->
            (s <> Component.state_ c -> target_env w x c s = true) ->
            exists n w',
              Component_setState n w x s = Some w'
              /\ evaluate_frame depth x w w'
              /\ evaluate_rank w' x <= evaluate_rank w x
              /\ (forall c0 c',
                    components w !! x = Some c0 ->
                    components w' !! x = Some c' ->
                    Component.state_ c' = Component.state_ c0
                    \/ target_env w x c0 (Component.state_ c') = true)).
  { intros s Hs HsT.
    destruct (Component_setState_any w x s c)
      as (n & w' & H1 & H2 & H3 & H4); try done.
    { by rewrite Hrank. }
    exists n, w'. split; [done|]. apply Hsame; [done|].
    intros c' Hc'. destruct (H4 c' Hc') as [H|[H|H]]; eauto.
    destruct (State.eqb s (Component.state_ c)) eqn:He.
    - apply State_eqb_eq in He. left. congruence.
    - apply State_eqb_neq in He. right. rewrite H. by apply HsT. }
  remember (negb (Nat.eqb numTasks 0)
              && State.ltb (Component.state_ c) newState)%bool as b eqn:Hb.
    assert (Hlast_test :
              exists n w',
                (forallb task_done own && forallb child_done chs)%bool = false ->
                (forallb task_done own && existsb child_failed chs)%bool = false ->
                (if b then Component_setState n w x newState else Some w)
                = Some w'
                /\ evaluate_frame depth x w w'
                /\ evaluate_rank w' x <= evaluate_rank w x
                
                /\ (forall c0 c',
                      components w !! x = Some c0 ->
                      components w' !! x = Some c' ->
                      Component.state_ c' = Component.state_ c0
                      \/ target_env w x c0 (Component.state_ c') = true)).
    { destruct b; cycle 1.
      { exists 0, w. intros _ _. by split; [|exact Hrefl]. }
      symmetry in Hb. apply Hlast in Hb as (-> & _ & Hst).
      destruct (forallb task_done own && forallb child_done chs)%bool eqn:H1;
        [by exists 0, w|].
      destruct (forallb task_done own && existsb child_failed chs)%bool eqn:H2;
        [by exists 0, w|].
      destruct (Hany State.RUNNING) as (n & w' & H); [|done|].
      { intros _. rewrite Hr'. unfold rank_of, failed_env_of.
        rewrite Hfailed, H1, H2, Hst. simpl. lia. }
      by exists n, w'. }
    destruct Hlast_test as (nl & wl & Hlast_test).
    destruct (forallb task_done own) eqn:Hd; simpl in Heval.
    + setoid_rewrite Hchildren in Heval. fold chs in Heval.
      destruct (existsb child_failed chs) eqn:Hcf.
      * destruct (Hany State.FAILED) as (n & w' & H).
        { intros Hne. rewrite Hr'. unfold rank_of, failed_env_of.
          rewrite Hfailed, Hd, Hcf. simpl.
          destruct (Component.state_ c); done || lia. }
        { intros _. simpl. rewrite Henv. unfold failed_env_of.
          by rewrite Hfailed, Hd, Hcf. }
        exists (S n), w'. by rewrite Hbody, Heval.
      * simpl in Heval.
        destruct (isBlockedOnDependency (components w) c) eqn:Hblocked.
        { exists 1, w. split; [by rewrite Hbody, Heval|exact Hrefl]. }
        destruct (forallb child_done chs) eqn:Hcd; simpl in Heval.
        -- destruct (Hany State.DONE) as (n & w' & H);
           [|by intros _; simpl; rewrite HenvD|].
           { intros Hne. rewrite Hr'. unfold rank_of, failed_env_of.
             rewrite Hfailed, Hd, Hcf, Hcd. simpl.
             destruct (Component.state_ c); done || (simpl; lia). }
           exists (S n), w'. by rewrite Hbody, Heval.
        -- exists (S nl), wl. rewrite Hbody, Heval. by apply Hlast_test.
    + exists (S nl), wl. rewrite Hbody, Heval. by apply Hlast_test.
Qed.
End evaluate_returns.

(** [evaluate] returns on every live component of a tree. *)
Lemma Component_evaluate_returns depth (w : World) (x : cid) :
  tree_wf depth (components w) ->
  is_Some (components w !! x) ->
  evaluate_ok depth w x.
Proof.
  remember (depth x) as k eqn:Hk. revert w x Hk.
  induction (lt_wf k) as [k _ IHk]. intros w x Hk.
  remember (evaluate_rank w x) as r eqn:Hr. revert w x Hk Hr.
  induction (lt_wf r) as [r _ IHr]. intros w x Hk Hr Hwf Hlive.
  apply (Component_evaluate_step depth k r); try done.
  - intros w' x' Hlt. by apply (IHk (depth x')); [lia|].
  - intros w' x' Hd Hlt. by apply (IHr (evaluate_rank w' x')); [|congruence|].
Qed.
(** ** Tasks *)

Lemma Component_evaluate_total depth (w : World) (x : cid) :
  tree_wf depth (components w) ->
  is_Some (components w !! x) ->
  exists N w',
    (forall fuel, N <= fuel -> Component_evaluate fuel w x = Some w')
    /\ evaluate_frame depth x w w'
    /\ evaluate_rank w' x <= evaluate_rank w x
    
    /\ (forall c c',
          components w !! x = Some c -> components w' !! x = Some c' ->
          Component.state_ c' = Component.state_ c
          \/ target_env w x c (Component.state_ c') = true).
Proof.
  intros Hwf Hlive.
  destruct (Component_evaluate_returns depth w x Hwf Hlive)
    as (n & w' & He & Hrest).
  exists n, w'. split; [|done].
  intros fuel Hfuel. by eapply Component_evaluate_mono.
Qed.

Lemma Component_setState_total depth (w : World) (x : cid) (s : State.t) c :
  tree_wf depth (components w) ->
  components w !! x = Some c ->
  exists N w',
    (forall fuel, N <= fuel -> Component_setState fuel w x s = Some w')
    /\ evaluate_frame depth x w w'
    /\ (forall c', components w' !! x = Some c' ->
          (evaluate_rank w' x <= rank_with w x c s
           \/ s = Component.state_ c /\ c' = c)
          
          /\ (Component.state_ c' = Component.state_ c
              \/ Component.state_ c' = s
              \/ target_env w x c (Component.state_ c') = true)).
Proof.
  intros Hwf Hc.
  destruct (State.eqb s (Component.state_ c)) eqn:He.
  - exists 1, w. split; [|split; [apply evaluate_frame_refl|]].
    + intros [|fuel] Hfuel; [lia|]. simpl. unfold Component_setState_body.
      rewrite Hc. simpl. by rewrite He.
    
    + intros c' Hc'. assert (c' = c) as -> by congruence.
      apply State_eqb_eq in He. split; [by right|]. by left.
  - apply State_eqb_neq in He.
    destruct (Component_setState_step depth (depth x)
                (S (rank_with w x c s))) with (w := w) (x := x) (s := s) (c := c)
      as (n & w' & H1 & H2 & H3 & H4); try done; try lia.
    { intros w0 x0 _. apply Component_evaluate_returns. }
    { intros w0 x0 _ _. apply Component_evaluate_returns. }
    exists n, w'. split; [|split; [done|]].
    + intros fuel Hfuel. by eapply Component_setState_mono.
    
    + intros c' Hc'. split; [by left|]. right. by apply (H4 c').
Qed.

Lemma Component_scheduleRunTasks_total depth (w : World) (x : cid) :
  tree_wf depth (components w) ->
  is_Some (components w !! x) ->
  exists N w',
    (forall fuel, N <= fuel -> Component_scheduleRunTasks fuel w x = Some w')
    /\ evaluate_frame depth x w w'
    /\ evaluate_rank w' x <= evaluate_rank w x
    
    /\ (forall c c',
          components w !! x = Some c -> components w' !! x = Some c' ->
          Component.state_ c' = Component.state_ c
          \/ target_env w x c (Component.state_ c') = true).
Proof.
  intros Hwf Hlive. unfold Component_scheduleRunTasks, scheduleRunTasks_with.
  destruct (cluster_executing w) eqn:Hexec; simpl; cycle 1.
  { exists 0, w. split; [done|]. split; [apply evaluate_frame_refl|].
    
    split; [lia|]. intros c c' Hc Hc'. left. congruence. }
  destruct (Component_evaluate_total depth w x Hwf Hlive)
    as (N & w1 & He & Hf & Hr & Hp).
  destruct (getRoot_live depth (components w1) x) as (root & Hroot & _).
  { by eapply evaluate_frame_wf. }
  { by eapply evaluate_frame_live. }
  exists N, (post (JobRunTasks x root) w1). split; [|split; [|split]].
  - intros fuel Hfuel. rewrite (He fuel Hfuel). simpl. by rewrite Hroot.
  - eapply evaluate_frame_trans; [done|apply evaluate_frame_post].
  - by rewrite evaluate_rank_post.
  - done.
Qed.

Lemma evaluate_dependencies_spec (ts : gmap tid Task.t) (task : Task.t) :
  forall blocked,
    evaluate_dependencies ts (Task.dependencies_ task) blocked
    = if existsb (TaskState.leb TaskState.ABORTED) (dependency_states ts task)
      then None
      else Some (blocked
                 || negb (forallb (fun s => TaskState.eqb s TaskState.DONE)
                            (dependency_states ts task)))%bool.
Proof.
  unfold dependency_states.
  induction (Task.dependencies_ task) as [|dep deps IH]; intros b; simpl.
  { by rewrite orb_false_r. }
  destruct (ts !! dep) as [dt|]; simpl; [|apply IH].
  destruct (TaskState.leb TaskState.ABORTED (Task.state_ dt)) eqn:Hab; [done|].
  simpl. rewrite IH. destruct (existsb _ _); [done|].
  destruct (TaskState.eqb (Task.state_ dt) TaskState.DONE); simpl; [done|].
  by rewrite orb_true_r.
Qed.

Lemma isBlockedOnDependency_erase (cs : gmap cid Component.t) c c' :
  Shape.erase c' = Shape.erase c ->
  isBlockedOnDependency cs c' = isBlockedOnDependency cs c.
Proof.
  intros He. unfold isBlockedOnDependency.
  by rewrite (erase_mode_ _ _ He), (erase_dependsOn_ _ _ He).
Qed.

Lemma Task_with_state_id (task : Task.t) :
  Task.with_state_ (Task.state_ task) task = task.
Proof. by destruct task. Qed.

(** The first step of the BLOCKED branch: in CREATE mode the component is
    evaluated and asked whether it is blocked on a dependency. *)
Lemma Task_evaluate_onDependency depth (w0 : World) (comp : cid) c :
  tree_wf depth (components w0) ->
  components w0 !! comp = Some c ->
  exists N w1,
    match Component.mode_ c with
    | Mode.CREATE =>
        forall fuel, N <= fuel -> Component_evaluate fuel w0 comp = Some w1
    | Mode.REMOVE => w1 = w0
    end
    /\ tasks w1 = tasks w0
    /\ tree_wf depth (components w1)
    /\ is_Some (components w1 !! comp)
    /\ forall fuel, N <= fuel ->
         match Component.mode_ c with
         | Mode.CREATE =>
             w ← Component_evaluate fuel w0 comp;
             c ← components w !! comp;
             Some (w, isBlockedOnDependency (components w) c)
         | Mode.REMOVE => Some (w0, false)
         end = Some (w1, isBlockedOnDependency (components w1) c).
Proof.
  intros Hwf Hc. destruct (Component.mode_ c) eqn:Hmode.
  - destruct (Component_evaluate_total depth w0 comp Hwf) as (N & w1 & He & Hf & _);
      [by eexists|].
    pose proof Hf as (Ht & _ & _ & _ & Htree & _).
    destruct (same_tree_Some _ _ _ _ Htree Hc) as (c1 & Hc1 & Herase).
    exists N, w1. split; [done|]. split; [done|].
    split; [by eapply evaluate_frame_wf|]. split; [by eexists|].
    intros fuel Hfuel. rewrite (He fuel Hfuel). simpl. rewrite Hc1. simpl.
    by rewrite (isBlockedOnDependency_erase _ _ _ Herase).
  - exists 0, w0. split; [done|]. split; [done|]. split; [done|].
    split; [by eexists|]. intros fuel _.
    unfold isBlockedOnDependency. by rewrite Hmode.
Qed.

(** What [Task::evaluate] does, given the answer of
    [isBlockedOnDependency] in the world [w1] in which it is asked. *)
Lemma Task_evaluate_steps depth (w : World) (this : tid)
    (task : Task.t) (c : Component.t) :
  tree_wf depth (components w) ->
  tasks w !! this = Some task ->
  components w !! Task.component_ task = Some c ->
  exists N w1,
    match Component.mode_ c with
    | Mode.CREATE =>
        forall fuel, N <= fuel ->
          Component_evaluate fuel (Task_evaluate_enter w this task)
            (Task.component_ task) = Some w1
    | Mode.REMOVE => w1 = Task_evaluate_enter w this task
    end
    /\ forall fuel, N <= fuel ->
         exists w',
           Task_evaluate fuel w this
           = Some (w', snd (Task_evaluate_spec
                              (isBlockedOnDependency (components w1) c)
                              (dependency_states
                                 (tasks (Task_evaluate_enter w this task)) task)
                              (Task.state_ task)))
           /\ tasks w'
              = <[this := Task.with_state_
                            (fst (Task_evaluate_spec
                                    (isBlockedOnDependency (components w1) c)
                                    (dependency_states
                                       (tasks (Task_evaluate_enter w this task))
                                       task)
                                    (Task.state_ task))) task]> (tasks w).
Proof.
  intros Hwf Htask Hc.
  set (w0 := Task_evaluate_enter w this task).
  set (comp := Task.component_ task) in *.
  assert (Hcs0 : components w0 = components w).
  { unfold w0, Task_evaluate_enter. by destruct (TaskState.eqb _ _). }
  destruct (Task_evaluate_onDependency depth w0 comp c)
    as (N1 & w1 & Hw1 & Ht1 & Hwf1 & Hlive1 & Hfirst);
    [by rewrite Hcs0..|].
  set (deps := dependency_states (tasks w0) task).
  assert (Hcases : (Task.state_ task = TaskState.PRE
                    \/ Task.state_ task = TaskState.BLOCKED)
                   \/ ~ (Task.state_ task = TaskState.PRE
                         \/ Task.state_ task = TaskState.BLOCKED)).
  { destruct (Task.state_ task); eauto; right; intros [|]; discriminate. }
  destruct Hcases as [Hst|Hst]; cycle 1.
  { (* neither PRE nor BLOCKED: nothing to do *)
    exists N1, w1. split; [done|]. intros fuel _. exists w.
    assert (Task_evaluate_spec (isBlockedOnDependency (components w1) c) deps (Task.state_ task)
            = (Task.state_ task, false)) as ->
      by (destruct (Task.state_ task); try done; destruct Hst; eauto).
    simpl. rewrite Task_with_state_id, insert_id by done.
    unfold Task_evaluate. rewrite Htask. simpl.
    destruct (Task.state_ task) eqn:Hs; simpl; rewrite ?Hs; simpl; try done;
      destruct Hst; eauto. }
  (* PRE or BLOCKED *)
  set (changed := TaskState.eqb (Task.state_ task) TaskState.PRE).
  set (task0 := if changed then Task.with_state_ TaskState.BLOCKED task
                else task).
  assert (Hst0 : Task.state_ task0 = TaskState.BLOCKED).
  { unfold task0, changed. by destruct Hst as [Hs | Hs]; rewrite Hs; simpl. }
  assert (Htask0 : task0 = Task.with_state_ TaskState.BLOCKED task).
  { unfold task0, changed. destruct Hst as [Hs | Hs]; rewrite Hs; simpl; [done|].
    by rewrite <- Hs, Task_with_state_id. }
  assert (Hts0 : tasks w0 = <[this := task0]> (tasks w)).
  { unfold w0, Task_evaluate_enter, task0, changed.
    destruct (TaskState.eqb _ _); [done|]. by rewrite insert_id. }
  assert (Hw0 : (if changed
                 then with_tasks (<[this := task0]> (tasks w)) w else w) = w0).
  { unfold w0, Task_evaluate_enter, task0, changed.
    by destruct (TaskState.eqb _ _). }
  assert (Hdeps0 : Task.dependencies_ task0 = Task.dependencies_ task).
  { by rewrite Htask0. }
  assert (Hcomp0 : Task.component_ task0 = comp) by (by rewrite Htask0).
  assert (Hscan : evaluate_dependencies (tasks w1) (Task.dependencies_ task0) false
                  = if existsb (TaskState.leb TaskState.ABORTED) deps then None
                    else Some (negb (forallb (fun s => TaskState.eqb s TaskState.DONE)
                                       deps))).
  { rewrite Ht1, Hdeps0. apply (evaluate_dependencies_spec (tasks w0) task). }
  assert (Hspec : Task_evaluate_spec (isBlockedOnDependency (components w1) c) deps (Task.state_ task)
                  = if (isBlockedOnDependency (components w1) c) then (TaskState.BLOCKED, changed)
                    else if existsb (TaskState.leb TaskState.ABORTED) deps
                    then (TaskState.DEPENDENCY_FAILED, true)
                    else if forallb (fun s => TaskState.eqb s TaskState.DONE) deps
                    then (TaskState.READY, true)
                    else (TaskState.BLOCKED, changed)).
  { unfold changed. by destruct Hst as [Hs | Hs]; rewrite Hs. }
  assert (Hthis1 : tasks w1 !! this = Some task0).
  { by rewrite Ht1, Hts0, lookup_insert_eq. }
  assert (Hset : forall fuel s,
            s <> TaskState.EXECUTING ->
            Task_setState fuel w1 this s false
            = Some (with_tasks (<[this := Task.with_state_ s task]> (tasks w)) w1)).
  { intros fuel s Hs. unfold Task_setState. rewrite Hthis1. simpl.
    rewrite andb_false_r.
    replace (TaskState.eqb s TaskState.EXECUTING) with false
      by (by destruct s).
    rewrite andb_false_r, Ht1, Hts0, insert_insert_eq.
    by rewrite Htask0. }
  assert (Henter : forall fuel, N1 <= fuel ->
            Task_evaluate fuel w this
            = if (isBlockedOnDependency (components w1) c) then Some (w1, changed)
              else match evaluate_dependencies (tasks w1)
                           (Task.dependencies_ task0) false with
                   | None =>
                       w ← Task_setState fuel w1 this
                             TaskState.DEPENDENCY_FAILED false;
                       Some (w, true)
                   | Some blocked =>
                       if negb blocked
                       then
                         w ← Task_setState fuel w1 this TaskState.READY false;
                         w ← Component_evaluate fuel w comp;
                         Some (w, true)
                       else Some (w1, changed)
                   end).
  { intros fuel Hfuel. unfold Task_evaluate. rewrite Htask. simpl.
    fold changed. fold task0. rewrite Hw0, Hst0. simpl.
    unfold Task_mode. rewrite Hcomp0, Hcs0, Hc. simpl.
    rewrite (Hfirst fuel Hfuel). simpl.
    by destruct (isBlockedOnDependency (components w1) c). }
  destruct (isBlockedOnDependency (components w1) c) eqn:Hon.
  { exists N1, w1. split; [done|]. intros fuel Hfuel. exists w1.
    rewrite Hon, (Henter fuel Hfuel), Hspec. simpl.
    by rewrite Ht1, Hts0, Htask0. }
  rewrite Hscan in Henter.
  destruct (existsb (TaskState.leb TaskState.ABORTED) deps) eqn:Hab.
  { exists N1, w1. split; [done|]. intros fuel Hfuel. eexists.
    rewrite Hon, (Henter fuel Hfuel), Hspec, Hset by done. simpl. done. }
  destruct (forallb (fun s => TaskState.eqb s TaskState.DONE) deps) eqn:Hdone;
    simpl in Henter; cycle 1.
  { exists N1, w1. split; [done|]. intros fuel Hfuel. exists w1.
    rewrite Hon, (Henter fuel Hfuel), Hspec. simpl.
    by rewrite Ht1, Hts0, Htask0. }
  set (w2 := with_tasks (<[this := Task.with_state_ TaskState.READY task]> (tasks w)) w1).
  destruct (Component_evaluate_total depth w2 comp) as (N2 & w3 & He3 & Hf3 & _);
    [done..|].
  exists (max N1 N2), w1. split.
  { destruct (Component.mode_ c); [|done].
    intros fuel Hfuel. apply Hw1. lia. }
  intros fuel Hfuel. exists w3.
  rewrite Hon, (Henter fuel) by lia. rewrite Hspec, Hset by done. simpl.
  fold w2. rewrite (He3 fuel) by lia. simpl. split; [done|].
  by destruct Hf3 as (-> & _).
Qed.


(** [isBlockedOnDependency] answers what the specification asks: CREATE
    mode, and a live [dependsOn] component that is not DONE. *)
Lemma isBlockedOnDependency_spec (cs : gmap cid Component.t)
    (c : Component.t) :
  isBlockedOnDependency cs c = true <-> blocked_on_dependsOn cs c.
Proof.
  unfold isBlockedOnDependency, blocked_on_dependsOn.
  destruct (Component.mode_ c); cycle 1.
  { split; [done|]. by intros [? _]. }
  rewrite existsb_exists. split.
  - intros (d & Hd & Hcomp). split; [done|].
    destruct (cs !! d) as [comp|] eqn:Hlookup; [|done].
    exists d, comp. split; [by apply list_elem_of_In|]. split; [done|].
    intros Hdone. by rewrite Hdone in Hcomp.
  - intros (_ & d & comp & Hd & Hlookup & Hstate).
    exists d. split; [by apply list_elem_of_In|]. rewrite Hlookup.
    apply negb_true_iff, not_true_iff_false. intros Heq.
    by apply State_eqb_eq in Heq.
Qed.

(** C8: [Task::evaluate] returns, and implements the transitions of the
    specification: a task in PRE is moved to BLOCKED, and the rule for
    BLOCKED then applies in the same call; a BLOCKED task stays BLOCKED
    exactly when, in CREATE mode, its component, once evaluated, has a
    live [dependsOn] component whose state is not DONE; otherwise it
    becomes DEPENDENCY_FAILED, "changed", if a dependency is at or beyond
    ABORTED, stays BLOCKED if a dependency is not DONE, and becomes READY
    if all are DONE; in every other state nothing changes. [w1] is the
    world in which the component is asked whether it is blocked, and
    [onDependency] the answer, which is that of the specification. *)
Theorem Task_evaluate_implements depth (w : World) (this : tid)
    (task : Task.t) (c : Component.t) :
  tree_wf depth (components w) ->
  tasks w !! this = Some task ->
  components w !! Task.component_ task = Some c ->
  exists N w1 onDependency,
    match Component.mode_ c with
    | Mode.CREATE =>
        forall fuel, N <= fuel ->
          Component_evaluate fuel (Task_evaluate_enter w this task)
            (Task.component_ task) = Some w1
    | Mode.REMOVE => w1 = Task_evaluate_enter w this task
    end
    /\ (onDependency = true <-> blocked_on_dependsOn (components w1) c)
    /\ forall fuel, N <= fuel ->
         exists w',
           Task_evaluate fuel w this
           = Some (w', snd (Task_evaluate_spec onDependency
                              (dependency_states
                                 (tasks (Task_evaluate_enter w this task)) task)
                              (Task.state_ task)))
           /\ tasks w'
              = <[this := Task.with_state_
                            (fst (Task_evaluate_spec onDependency
                                    (dependency_states
                                       (tasks (Task_evaluate_enter w this task))
                                       task)
                                    (Task.state_ task))) task]> (tasks w).
Proof.
  intros Hwf Htask Hc.
  destruct (Task_evaluate_steps depth w this task c Hwf Htask Hc)
    as (N & w1 & Hw1 & Hsteps).
  exists N, w1, (isBlockedOnDependency (components w1) c).
  split; [done|]. split; [|done].
  apply isBlockedOnDependency_spec.
Qed.

Lemma deployment_world_wf : tree_wf (fun x => x) (components deployment_world).
Proof.
  intros x c Hc. simpl in Hc.
  destruct x as [|[|[|x]]].
  - injection Hc as <-. split.
    + intros p Hp. vm_compute in Hp. discriminate Hp.
    + intros ch Hch. simpl in Hch. set_solver by lia.
  - injection Hc as <-. split.
    + intros p Hp. vm_compute in Hp. injection Hp as <-. lia.
    + intros ch Hch. simpl in Hch. set_solver by lia.
  - injection Hc as <-. split.
    + intros p Hp. vm_compute in Hp. injection Hp as <-. lia.
    + intros ch Hch. simpl in Hch. set_solver.
  - rewrite !lookup_insert_ne, lookup_empty in Hc by lia. discriminate Hc.
Qed.

Lemma blocked_world_wf : tree_wf (fun x => x) (components blocked_world).
Proof.
  intros x c Hc. simpl in Hc.
  destruct x as [|[|[|x]]].
  - injection Hc as <-. split.
    + intros p Hp. vm_compute in Hp. discriminate Hp.
    + intros ch Hch. simpl in Hch.
      repeat (apply elem_of_cons in Hch as [->|Hch]; [lia|]).
      by apply elem_of_nil in Hch.
  - injection Hc as <-. split.
    + intros p Hp. vm_compute in Hp. injection Hp as <-. lia.
    + intros ch Hch. simpl in Hch. by apply elem_of_nil in Hch.
  - injection Hc as <-. split.
    + intros p Hp. vm_compute in Hp. injection Hp as <-. lia.
    + intros ch Hch. simpl in Hch. by apply elem_of_nil in Hch.
  - rewrite !lookup_insert_ne, lookup_empty in Hc by lia. discriminate Hc.
Qed.

(** [evaluate] on [web] returns and leaves [db] RUNNING. *)
Lemma blocked_world_evaluated :
  exists w1,
    Component_evaluate 8 (Task_evaluate_enter blocked_world 1
                            (Task.mk 2 "web" TaskState.PRE [])) 2 = Some w1
    /\ exists comp, components w1 !! 1 = Some comp
                    /\ Component.state_ comp = State.RUNNING.
Proof. eexists. split; [vm_compute; reflexivity|]. by eexists. Qed.

Lemma Task_evaluate_implements_witness :
  exists N,
    forall fuel, N <= fuel ->
      exists w',
        Task_evaluate fuel blocked_world 1 = Some (w', true)
        /\ tasks w'
           = <[1 := Task.mk 2 "web" TaskState.BLOCKED []]>
               (tasks blocked_world).
Proof.
  destruct (Task_evaluate_implements (fun x => x) blocked_world 1 _ _
              blocked_world_wf eq_refl eq_refl)
    as (N & w1 & onDependency & Hw1 & Hon & Hsteps).
  destruct blocked_world_evaluated as (w1' & He & comp & Hcomp & Hstate).
  assert (w1 = w1') as ->.
  { simpl in Hw1. specialize (Hw1 (max N 8) (Nat.le_max_l _ _)).
    apply (Component_evaluate_mono _ (max N 8)) in He; [|apply Nat.le_max_r].
    congruence. }
  assert (onDependency = true) as ->.
  { apply Hon. split; [done|]. exists 1, comp. split; [|split; [done|]].
    - apply list_elem_of_here.
    - by rewrite Hstate. }
  exists N. intros fuel Hfuel. exact (Hsteps fuel Hfuel).
Defined.


(** ** Requests *)

Lemma with_task_state_wf depth (w : World) (task : tid) (t : Task.t)
    (s : TaskState.t) :
  tree_wf depth (components w) ->
  tree_wf depth (components (with_task_state w task t s)).
Proof. done. Qed.

(** [Task::setState] to a state other than EXECUTING: the task changes
    state, and the owning component is evaluated if this is a change and
    the caller asks for it. *)
Lemma Task_setState_total depth (w : World) (task : tid) (t : Task.t)
    (s : TaskState.t) (scheduleRunTasks : bool) c :
  s <> TaskState.EXECUTING ->
  tree_wf depth (components w) ->
  tasks w !! task = Some t ->
  components w !! Task.component_ t = Some c ->
  exists N w',
    (forall fuel, N <= fuel ->
       Task_setState fuel w task s scheduleRunTasks = Some w')
    /\ evaluate_frame depth (Task.component_ t) (with_task_state w task t s) w'
    
    /\ (forall c', components w' !! Task.component_ t = Some c' ->
          Component.state_ c' = Component.state_ c
          \/ target_env (with_task_state w task t s) (Task.component_ t) c
               (Component.state_ c') = true).
Proof.
  intros Hs Hwf Ht Hc. unfold Task_setState. rewrite Ht. simpl.
  replace (TaskState.eqb s TaskState.EXECUTING) with false by (by destruct s).
  rewrite andb_false_r. fold (with_task_state w task t s).
  destruct (negb (TaskState.eqb (Task.state_ t) s) && scheduleRunTasks)%bool.
  - destruct (Component_scheduleRunTasks_total depth
                (with_task_state w task t s) (Task.component_ t))
      as (N & w' & He & Hf & _ & Hp); [done|by eexists|].
    exists N, w'. split; [done|]. split; [done|].
    
    intros c' Hc'. by apply (Hp c c').
  - exists 0, (with_task_state w task t s). split; [done|].
    split; [apply evaluate_frame_refl|].
    
    intros c' Hc'. left. simpl in Hc'. congruence.
Qed.

Lemma own_states_failed (ts : gmap tid Task.t) (x : cid) (l : list tid)
    (task : tid) (t : Task.t) :
  task ∈ l -> ts !! task = Some t -> Task.component_ t = x ->
  task_failed (Task.state_ t) = true ->
  existsb task_failed (own_states ts x l) = true.
Proof.
  intros Hin Ht Hx Hf. apply existsb_exists. exists (Task.state_ t).
  split; [|done]. apply list_elem_of_In. unfold own_states.
  apply list_elem_of_omap. exists task. split; [done|].
  rewrite Ht. simpl. by rewrite Hx, Nat.eqb_refl.
Qed.

(** C7: [sendDelete] sends a DELETE for the URL and returns; on a reply and
    on the error 404 the task is DONE, and so it is on any other error when
    [ignoreErrors] is set; in these cases [sendDelete] does not fail the
    component: a component that was not FAILED, and has no other failed
    task and no failed child to make [evaluate] fail it, is not FAILED
    afterwards. On any other error with [ignoreErrors] unset the task is
    FAILED and the owning component is FAILED. *)
Theorem sendDelete_outcomes depth (w : World) (this : cid) (url : string)
    (task : tid) (ignoreErrors : bool) (outcome : HttpOutcome)
    (t : Task.t) (c : Component.t) :
  tree_wf depth (components w) ->
  tasks w !! task = Some t ->
  Task.component_ t = this ->
  task ∈ task_list (components w) this ->
  components w !! this = Some c ->
  exists N,
    forall fuel, N <= fuel ->
      exists w',
        sendDelete fuel w this url task ignoreErrors outcome = Some w'
        /\ requests w' = (requests w ++ [(HttpDELETE, url)])%list
        /\ if (delete_succeeded outcome || ignoreErrors)%bool
           then task_state_of w' task = Some TaskState.DONE
                /\ (Component.state_ c <> State.FAILED ->
                    failed_env (with_task_state w task t TaskState.DONE) this c
                    = false ->
                    state_of w' this <> Some State.FAILED)
           else task_state_of w' task = Some TaskState.FAILED
                /\ state_of w' this = Some State.FAILED.
Proof.
  intros Hwf Ht Hthis Hin Hc. subst this.
  set (this := Task.component_ t) in *.
  set (ws := send HttpDELETE url w).
  assert (Hdone : exists N,
            forall fuel, N <= fuel ->
              exists w',
                setState_if_alive fuel ws task TaskState.DONE = Some w'
                /\ requests w' = (requests w ++ [(HttpDELETE, url)])%list
                /\ task_state_of w' task = Some TaskState.DONE
                /\ (Component.state_ c <> State.FAILED ->
                    failed_env (with_task_state w task t TaskState.DONE) this c
                    = false ->
                    state_of w' this <> Some State.FAILED)).
  { destruct (Task_setState_total depth ws task t TaskState.DONE
                Task_setState_scheduleRunTasks_default c)
      as (N & w' & He & Hf & Hp); [done..|].
    exists N. intros fuel Hfuel. exists w'.
    unfold setState_if_alive. change (tasks ws) with (tasks w).
    rewrite Ht. split; [by apply He|].
    destruct Hf as (Hts & _ & _ & Hrq & Htree & _).
    split; [by rewrite Hrq|]. split.
    - unfold task_state_of. rewrite Hts. simpl. by rewrite lookup_insert_eq.
    - intros Hnf Henv. unfold state_of.
      destruct (same_tree_Some _ _ _ _ Htree Hc) as (c' & Hc' & _).
      rewrite Hc'. simpl. intros [= Hst].
      
      destruct (Hp c' Hc') as [H|H]; [congruence|].
      rewrite Hst in H.
      change (failed_env (with_task_state w task t TaskState.DONE) this c
              = true) in H.
      congruence. }
  assert (Hfailed : exists N,
            forall fuel, N <= fuel ->
              exists w',
                (w ← setState_if_alive fuel ws task TaskState.FAILED;
                 Component_setState fuel w this State.FAILED) = Some w'
                /\ requests w' = (requests w ++ [(HttpDELETE, url)])%list
                /\ task_state_of w' task = Some TaskState.FAILED
                /\ state_of w' this = Some State.FAILED).
  { destruct (Task_setState_total depth ws task t TaskState.FAILED
                Task_setState_scheduleRunTasks_default c)
      as (N1 & w1 & He1 & Hf1 & _); [done..|].
    pose proof Hf1 as (Hts1 & _ & _ & Hrq1 & Htree1 & _).
    destruct (same_tree_Some _ _ _ _ Htree1 Hc) as (c1 & Hc1 & Herase1).
    assert (Hwf1 : tree_wf depth (components w1))
      by (by eapply (evaluate_frame_wf depth this _ w1)).
    destruct (Component_setState_total depth w1 this State.FAILED c1 Hwf1 Hc1)
      as (N2 & w2 & He2 & Hf2 & Hp2).
    pose proof Hf2 as (Hts2 & _ & _ & Hrq2 & Htree2 & _).
    destruct (same_tree_Some _ _ _ _ Htree2 Hc1) as (c2 & Hc2 & Herase2).
    exists (max N1 N2). intros fuel Hfuel. exists w2.
    unfold setState_if_alive. change (tasks ws) with (tasks w).
    rewrite Ht, He1 by lia. simpl. split; [apply He2; lia|].
    split; [by rewrite Hrq2, Hrq1|]. split.
    { unfold task_state_of. rewrite Hts2, Hts1. simpl.
      by rewrite lookup_insert_eq. }
    unfold state_of. rewrite Hc2. simpl. f_equal.
    destruct (Hp2 c2 Hc2) as [[Hr|[Hr ->]] _]; [|done].
    assert (Henv : existsb task_failed
                     (own_states (tasks w1) this (task_list (components w1) this))
                   = true).
    { rewrite Hts1, (same_tree_task_list _ _ _ Htree1).
      apply (own_states_failed _ _ _ task (Task.with_state_ TaskState.FAILED t));
        [done| | |done].
      - simpl. by rewrite lookup_insert_eq.
      - done. }
    assert (Hrank : forall s,
              rank_with w1 this c1 s
              = match s with
                | State.CREATING => 2 | State.FAILED => 0 | _ => 1
                end).
    { intros s. unfold rank_with, rank_of, failed_env_of. by rewrite Henv. }
    rewrite (evaluate_frame_rank depth this w1 w2 c1 c2) in Hr by done.
    rewrite !Hrank in Hr.
    destruct (Component.state_ c2); simpl in Hr; done || lia. }
  destruct Hdone as [Nd Hdone], Hfailed as [Nf Hfailed].
  exists (max Nd Nf). intros fuel Hfuel.
  unfold sendDelete. fold ws.
  destruct outcome as [code|status_code|]; simpl.
  - apply Hdone. lia.
  - destruct (Nat.eqb status_code 404); simpl; [apply Hdone; lia|].
    destruct ignoreErrors; simpl.
    + destruct (Hdone fuel) as (w' & -> & H); [lia|]. by exists w'.
    + apply Hfailed. lia.
  - destruct ignoreErrors; simpl.
    + destruct (Hdone fuel) as (w' & -> & H); [lia|]. by exists w'.
    + apply Hfailed. lia.
Qed.

Lemma delete_world_wf : tree_wf (fun x => x) (components delete_world).
Proof.
  intros x c Hc. simpl in Hc.
  destruct x as [|[|x]].
  - injection Hc as <-. split.
    + intros p Hp. vm_compute in Hp. discriminate Hp.
    + intros ch Hch. simpl in Hch. set_solver by lia.
  - injection Hc as <-. split.
    + intros p Hp. vm_compute in Hp. injection Hp as <-. lia.
    + intros ch Hch. simpl in Hch. set_solver.
  - rewrite !lookup_insert_ne, lookup_empty in Hc by lia. discriminate Hc.
Qed.

Lemma delete_world_task_list : 0 ∈ task_list (components delete_world) 1.
Proof. vm_compute. apply list_elem_of_here. Qed.

Lemma sendDelete_outcomes_witness :
  exists N,
    forall fuel, N <= fuel ->
      exists w',
        sendDelete fuel delete_world 1 delete_url 0 false
          (RequestFailedWithErrorException 404) = Some w'
        /\ requests w' = [(HttpDELETE, delete_url)]
        /\ task_state_of w' 0 = Some TaskState.DONE
        /\ (State.RUNNING <> State.FAILED ->
            failed_env
              (with_task_state delete_world 0
                 (Task.mk 1 "web" TaskState.EXECUTING []) TaskState.DONE)
              1 (removing_component "web" Kind.DEPLOYMENT (Some 0) [] None)
            = false ->
            state_of w' 1 <> Some State.FAILED).
Proof.
  exact (sendDelete_outcomes (fun x => x) delete_world 1 delete_url 0 false
           (RequestFailedWithErrorException 404) _ _
           delete_world_wf eq_refl eq_refl delete_world_task_list eq_refl).
Defined.

(** ** The handlers that set a component DONE themselves *)

(** [Component::evaluate] returns, and it leaves its component DONE only if
    the component was DONE already or all its tasks and all its children
    are DONE. *)
Lemma Component_evaluate_DONE_guarded depth (w : World) (x : cid) c :
  tree_wf depth (components w) ->
  components w !! x = Some c ->
  exists N w',
    (forall fuel, N <= fuel -> Component_evaluate fuel w x = Some w')
    /\ forall c', components w' !! x = Some c' ->
         Component.state_ c' = State.DONE ->
         Component.state_ c = State.DONE \/ done_env w x c = true.
Proof.
  intros Hwf Hc.
  destruct (Component_evaluate_total depth w x Hwf) as (N & w' & He & _ & _ & Hp);
    [by eexists|].
  exists N, w'. split; [done|]. intros c' Hc' Hst.
  destruct (Hp c c' Hc Hc') as [H|H]; [left; congruence|].
  right. by rewrite Hst in H.
Qed.

(** C1, at a Deployment that owns a Service: on the event that its pod was
    created, the closure of the Deployment's task sets the component DONE
    while its child Service is RUNNING and the Service's task is still
    BLOCKED (and the root, seeing its only child DONE, becomes DONE too);
    and the coroutine of [ServiceComponent::doDeploy] sets a Service DONE on
    a reply while its child is RUNNING. [Component::evaluate], the other
    path to DONE, tests the children first. *)
Theorem handlers_set_DONE_before_child :
  (w ← DeploymentComponent_task 16 deployment_world 1 0 (Some pod_created);
   Some (task_state_of w 0, state_of w 1, state_of w 2, task_state_of w 1,
         state_of w 0))
  = Some (Some TaskState.DONE, Some State.DONE, Some State.RUNNING,
          Some TaskState.BLOCKED, Some State.DONE)
  /\ (w ← ServiceComponent_doDeploy 16 service_world 1
            "https://127.0.0.1:6443/api/v1/namespaces/default/services" 0
            (HttpReply 201);
      Some (task_state_of w 0, state_of w 1, state_of w 2, task_state_of w 1))
     = Some (Some TaskState.DONE, Some State.DONE, Some State.RUNNING,
             Some TaskState.BLOCKED).
Proof. split; vm_compute; reflexivity. Qed.


(** ** Lists of variables and key-value pairs *)

Lemma find_char_Some (ch : ascii) (v : string) (pos : nat) :
  find_char ch v = Some pos ->
  pos < String.length v
  /\ has_char ch (string_take pos v) = false
  /\ v = string_take pos v +:+ String ch (string_drop (pos + 1) v).
Proof.
  revert pos. induction v as [|c v IH]; intros pos; simpl; [done|].
  destruct (Ascii.eqb_spec c ch) as [->|Hne].
  - intros [= <-]. simpl. split; [lia|]. split; [done|].
    by destruct v.
  - destruct (find_char ch v) as [p|]; simpl; [|done].
    intros [= <-]. destruct (IH p eq_refl) as (H1 & H2 & H3).
    simpl. split; [lia|]. split.
    + by rewrite (proj2 (Ascii.eqb_neq c ch) Hne).
    + rewrite append_cons. by rewrite <- H3.
Qed.

Lemma find_char_None (ch : ascii) (v : string) :
  find_char ch v = None <-> has_char ch v = false.
Proof.
  induction v as [|c v IH]; simpl; [done|].
  destruct (Ascii.eqb c ch); simpl; [done|].
  rewrite <- IH. by destruct (find_char ch v).
Qed.

Lemma has_char_append (ch : ascii) (s t : string) :
  has_char ch (s +:+ t) = (has_char ch s || has_char ch t)%bool.
Proof.
  induction s as [|c s IH]; [done|].
  rewrite append_cons. simpl. rewrite IH. by destruct (Ascii.eqb c ch).
Qed.

Lemma substr_from_in_range (pos : nat) (v : string) :
  pos <= String.length v -> substr_from pos v = Ok (string_drop pos v).
Proof.
  intros Hpos. unfold substr_from.
  by rewrite (proj2 (Nat.ltb_ge _ _) Hpos).
Qed.

(** What [Cluster::split] returns. *)
Lemma Cluster_split_spec (str : string) (ch : ascii) :
  exists a b,
    Cluster_split str ch = Ok (a, b)
    /\ has_char ch a = false
    /\ if has_char ch str then str = a +:+ String ch b
       else a = str /\ b = EmptyString.
Proof.
  unfold Cluster_split.
  destruct (find_char ch str) as [pos|] eqn:Hfind.
  - destruct (find_char_Some _ _ _ Hfind) as (Hlt & Hfree & Heq).
    rewrite substr_from_in_range by lia. simpl.
    eexists _, _. split; [done|]. split; [done|].
    destruct (has_char ch str) eqn:Hhas; [done|].
    apply find_char_None in Hhas. congruence.
  - exists str, EmptyString. split; [done|].
    apply find_char_None in Hfind. by rewrite Hfind.
Qed.

(** X5. [Cluster::split] never throws, and it loses nothing: where the
    separator occurs, the two parts around its first occurrence make up
    the string again and the first part is free of it; where it does not
    occur, the first part is the whole string and the second is empty. *)
Theorem Cluster_split_parts (str : string) (ch : ascii) :
  exists a b,
    Cluster_split str ch = Ok (a, b)
    /\ has_char ch a = false
    /\ if has_char ch str then str = a +:+ String ch b
       else a = str /\ b = EmptyString.
Proof. apply Cluster_split_spec. Qed.

Lemma string_take_empty (pos : nat) (v : string) :
  pos < String.length v ->
  String.eqb (string_take pos v) EmptyString = negb (Nat.ltb 0 pos).
Proof. destruct pos, v; simpl; done || lia. Qed.

Lemma split_assignment_spec (v : string) :
  split_assignment v
  = Ok (match find_char "=" v with
        | Some pos => KeyValue.mk (string_take pos v) (string_drop (pos + 1) v)
        | None => KeyValue.mk v EmptyString
        end).
Proof.
  unfold split_assignment.
  destruct (find_char "=" v) as [pos|] eqn:Hfind; [|done].
  destruct (find_char_Some _ _ _ Hfind) as (Hlt & _ & _).
  rewrite (proj2 (Nat.ltb_lt _ _) Hlt).
  by rewrite substr_from_in_range by lia.
Qed.

(** The two loops read the tokens alike: what one appends, the other
    assigns. *)
Lemma getArgAs_loops (tokens : list string) :
  exists l,
    Forall (fun ev => KeyValue.name ev <> EmptyString
                      /\ has_char "=" (KeyValue.name ev) = false) l
    /\ forall rval m,
         getArgAsEnvList_loop tokens rval = Ok (rval ++ l)%list
         /\ getArgAsKv_loop tokens m
            = Ok (foldl (fun m ev => <[KeyValue.name ev := KeyValue.value ev]> m)
                        m l).
Proof.
  induction tokens as [|v tokens (l & Hl & IH)].
  { exists []. split; [done|]. intros rval m. simpl. by rewrite app_nil_r. }
  destruct (find_char "=" v) as [pos|] eqn:Hfind.
  - destruct (find_char_Some _ _ _ Hfind) as (Hlt & Hfree & _).
    pose proof (string_take_empty pos v Hlt) as Hempty.
    destruct (Nat.ltb 0 pos) eqn:Hpos; simpl in Hempty.
    + exists (KeyValue.mk (string_take pos v) (string_drop (pos + 1) v) :: l).
      split.
      { constructor; [|done]. simpl. split; [|done].
        intros Heq. by rewrite Heq in Hempty. }
      intros rval m. simpl.
      rewrite split_assignment_spec, Hfind. simpl. rewrite Hempty.
      rewrite (proj2 (Nat.ltb_lt _ _) Hlt), Hpos.
      rewrite substr_from_in_range by lia. simpl.
      destruct (IH ((rval ++ [KeyValue.mk (string_take pos v)
                               (string_drop (pos + 1) v)])%list)
                  (<[substr_to pos v := string_drop (pos + 1) v]> m))
        as [-> ->].
      by rewrite <- app_assoc.
    + exists l. split; [done|]. intros rval m. simpl.
      rewrite split_assignment_spec, Hfind. simpl. rewrite Hempty.
      rewrite (proj2 (Nat.ltb_lt _ _) Hlt), Hpos.
      apply IH.
  - destruct (String.eqb v EmptyString) eqn:Hv.
    + exists l. split; [done|]. intros rval m. simpl.
      rewrite split_assignment_spec, Hfind. simpl. rewrite Hv. simpl.
      apply IH.
    + exists (KeyValue.mk v EmptyString :: l). split.
      { constructor; [|done]. simpl. split.
        - intros ->. by rewrite String.eqb_refl in Hv.
        - by apply find_char_None. }
      intros rval m. simpl.
      rewrite split_assignment_spec, Hfind. simpl. rewrite Hv. simpl.
      destruct (IH ((rval ++ [KeyValue.mk v EmptyString])%list)
                  (<[v := EmptyString]> m)) as [-> ->].
      by rewrite <- app_assoc.
Qed.

(** X6. [getArgAsEnvList] never throws (the [substr] past the '=' stays in
    range), and every variable it returns has a name that is not empty and
    holds no '=': a token that starts with '=' is dropped. *)
Theorem getArgAsEnvList_names (values : string) :
  exists l,
    getArgAsEnvList values = Ok l
    /\ Forall (fun ev => KeyValue.name ev <> EmptyString
                         /\ has_char "=" (KeyValue.name ev) = false) l.
Proof.
  destruct (getArgAs_loops (getArgAsStringList values)) as (l & Hl & Hloops).
  exists l. split; [|done]. unfold getArgAsEnvList.
  by rewrite (proj1 (Hloops [] ∅)).
Qed.

(** X7. [getArgAsKv] reads its argument as [getArgAsEnvList] does: its
    result is the map in which the variables of [getArgAsEnvList] have been
    assigned one after the other, so that of two tokens with the same name
    the later one decides the value. *)
Theorem getArgAsKv_assigns_EnvList (values : string) :
  exists l,
    getArgAsEnvList values = Ok l
    /\ getArgAsKv values
       = Ok (foldl (fun m ev => <[KeyValue.name ev := KeyValue.value ev]> m)
                   ∅ l).
Proof.
  destruct (getArgAs_loops (getArgAsStringList values)) as (l & Hl & Hloops).
  exists l. unfold getArgAsEnvList, getArgAsKv.
  destruct (Hloops [] ∅) as [-> ->]. done.
Qed.

(** ** The arguments of a cluster *)

Lemma binding_of_cases (pair' : string) :
  (pair' = EmptyString /\ binding_of pair' = None)
  \/ (String.eqb pair' EmptyString = false
      /\ exists k v, Cluster_split pair' "=" = Ok (k, v)
                     /\ binding_of pair' = Some (k, v)).
Proof.
  unfold binding_of. destruct (String.eqb_spec pair' EmptyString) as [->|Hne].
  - by left.
  - right. split; [done|].
    destruct (Cluster_split_spec pair' "=") as (k & v & Hsplit & _).
    exists k, v. by rewrite Hsplit.
Qed.

Lemma first_binding_cons (k : string) (pair' : string) (pairs : list string) :
  first_binding k (pair' :: pairs)
  = match binding_of pair' with
    | Some (k', v) => if decide (k' = k) then Some v else first_binding k pairs
    | None => first_binding k pairs
    end.
Proof.
  unfold first_binding. simpl. destruct (binding_of pair') as [[k' v]|]; [|done].
  rewrite filter_cons. simpl. by destruct (decide (k' = k)).
Qed.

Lemma parseArgs_pairs_spec (pairs : list string) :
  forall variables_ : variables_t,
  exists m : variables_t,
    parseArgs_pairs pairs variables_ = Ok m
    /\ forall k, m !! k = match variables_ !! k with
                          | Some v => Some v
                          | None => first_binding k pairs
                          end.
Proof.
  induction pairs as [|pair' pairs IH]; intros variables_.
  { exists variables_. split; [done|]. intros k. by destruct (variables_ !! k). }
  destruct (binding_of_cases pair') as [[-> Hb]|(Hne & k' & v & Hsplit & Hb)].
  - destruct (IH variables_) as (m & Hm & Hlookup).
    exists m. split; [done|]. intros k.
    by rewrite first_binding_cons, Hb, Hlookup.
  - simpl. rewrite Hne, Hsplit. simpl.
    destruct (variables_ !! k') as [old|] eqn:Hold.
    + destruct (IH variables_) as (m & Hm & Hlookup).
      exists m. split; [done|]. intros k.
      rewrite first_binding_cons, Hb, Hlookup.
      destruct (variables_ !! k) eqn:Hk; [done|].
      case_decide; [congruence|done].
    + destruct (IH (<[k' := v]> variables_)) as (m & Hm & Hlookup).
      exists m. split; [done|]. intros k.
      rewrite first_binding_cons, Hb, Hlookup.
      case_decide as Hkk.
      * subst k'. by rewrite lookup_insert_eq, Hold.
      * by rewrite lookup_insert_ne.
Qed.

(** What [parseArgs] makes of its argument. *)
Lemma parseArgs_spec (args : string) :
  exists kubeconfig vars n rest c,
    Cluster_split args ":" = Ok (kubeconfig, vars)
    /\ Cluster_split kubeconfig "." = Ok (n, rest)
    /\ parseArgs args = Ok c
    /\ Cluster.kubeconfig_ c = kubeconfig
    /\ Cluster.variables_ c !! "name" = Some (Cluster.name_ c)
    /\ Cluster.name_ c
       = (let fallback := if String.eqb n EmptyString then "default" else n in
          match first_binding "name" (boost_split "," vars) with
          | Some name => if String.eqb name EmptyString then fallback else name
          | None => fallback
          end)
    /\ forall k, k <> "name" ->
         Cluster.variables_ c !! k = first_binding k (boost_split "," vars).
Proof.
  destruct (Cluster_split_spec args ":") as (kubeconfig & vars & Hsplit & _).
  destruct (Cluster_split_spec kubeconfig ".") as (n & rest & Hdot & _).
  destruct (parseArgs_pairs_spec (boost_split "," vars) ∅)
    as (m & Hm & Hlookup).
  assert (Hm' : forall k, m !! k = first_binding k (boost_split "," vars)).
  { intros k. by rewrite Hlookup, lookup_empty. }
  exists kubeconfig, vars, n, rest. unfold parseArgs.
  rewrite Hsplit. simpl. rewrite Hm. simpl.
  unfold map_subscript at 1. rewrite Hm'.
  destruct (first_binding "name" (boost_split "," vars)) as [name|] eqn:Hname.
  - destruct (String.eqb_spec name EmptyString) as [->|Hne].
    + rewrite Hdot. simpl.
      destruct (String.eqb n EmptyString); simpl; unfold map_subscript;
        rewrite lookup_insert_eq; eexists;
        (split; [done|]); (split; [done|]); (split; [done|]);
        (split; [done|]); simpl; (split; [by rewrite lookup_insert_eq|]);
        (split; [done|]); intros k Hk; by rewrite lookup_insert_ne.
    + simpl. unfold map_subscript. rewrite Hm', Hname.
      eexists. split; [done|]. split; [done|]. split; [done|].
      split; [done|]. simpl. split; [by rewrite Hm'|]. split; [done|].
      intros k Hk. apply Hm'.
  - simpl. rewrite Hdot. simpl.
    destruct (String.eqb n EmptyString); simpl; unfold map_subscript;
      rewrite lookup_insert_eq; eexists;
      (split; [done|]); (split; [done|]); (split; [done|]);
      (split; [done|]); simpl; (split; [by rewrite lookup_insert_eq|]);
      (split; [done|]); intros k Hk; by rewrite !lookup_insert_ne.
Qed.

(** X8. [parseArgs] never throws; the name it gives the cluster is never
    empty, it is what the variable [name] holds afterwards, and the
    kubeconfig is the argument up to its first ':'. *)
Theorem parseArgs_name (args : string) :
  exists c,
    parseArgs args = Ok c
    /\ Cluster.name_ c <> EmptyString
    /\ Cluster.variables_ c !! "name" = Some (Cluster.name_ c)
    /\ has_char ":" (Cluster.kubeconfig_ c) = false
    /\ if has_char ":" args
       then exists vars, args = Cluster.kubeconfig_ c +:+ String ":" vars
       else Cluster.kubeconfig_ c = args.
Proof.
  destruct (parseArgs_spec args)
    as (kubeconfig & vars & n & rest & c & Hsplit & _ & Hc & Hk & Hn & Hname & _).
  exists c. split; [done|]. split; [|split; [done|]].
  - rewrite Hname. simpl.
    destruct (first_binding _ _) as [name|];
      [destruct (String.eqb_spec name EmptyString); [|done]|];
      by destruct (String.eqb_spec n EmptyString).
  - destruct (Cluster_split_spec args ":") as (a & b & Hsplit' & Hfree & Hparts).
    rewrite Hsplit in Hsplit'. injection Hsplit' as <- <-. rewrite Hk.
    split; [done|]. destruct (has_char ":" args); [by exists vars|].
    by destruct Hparts.
Qed.

(** X9. The variables of a cluster are read from the parts of the argument
    between commas, past the first ':': of two parts with the same key the
    first decides the value, since [std::map::insert] does not overwrite.
    The name of the cluster is the first value given for [name] unless that
    is missing or empty; then it is the kubeconfig up to its first '.', and
    "default" if that is empty too. *)
Theorem parseArgs_first_binding (args : string) :
  exists kubeconfig vars n rest c,
    Cluster_split args ":" = Ok (kubeconfig, vars)
    /\ Cluster_split kubeconfig "." = Ok (n, rest)
    /\ parseArgs args = Ok c
    /\ Cluster.name_ c
       = (let fallback := if String.eqb n EmptyString then "default" else n in
          match first_binding "name" (boost_split "," vars) with
          | Some name => if String.eqb name EmptyString then fallback else name
          | None => fallback
          end)
    /\ forall k, k <> "name" ->
         Cluster.variables_ c !! k = first_binding k (boost_split "," vars).
Proof.
  destruct (parseArgs_spec args)
    as (kubeconfig & vars & n & rest & c & H1 & H2 & H3 & _ & _ & H4 & H5).
  by exists kubeconfig, vars, n, rest, c.
Qed.

(** ** Dependencies between tasks *)

Lemma task_edge_iff (ts : gmap tid Task.t) (x y : tid) (t : Task.t) :
  ts !! x = Some t ->
  task_edge ts x y <-> y ∈ Task.dependencies_ t /\ is_Some (ts !! y).
Proof.
  intros Hx. split.
  - intros (t' & Ht' & Hy & Hl). by assert (t' = t) as -> by congruence.
  - intros [Hy Hl]. by exists t.
Qed.

Lemma task_edge_dead (ts : gmap tid Task.t) (x y : tid) :
  ts !! x = None -> ~ tc (task_edge ts) x y.
Proof.
  intros Hx Htc. destruct Htc as [x y (t & Ht & _)|x y z (t & Ht & _) _];
    congruence.
Qed.

Lemma tc_first {A : Type} (R : relation A) (x z : A) :
  tc R x z <-> exists y, R x y /\ (y = z \/ tc R y z).
Proof.
  split.
  - intros Htc. destruct Htc as [x z H|x y z H Htc]; [exists z|exists y]; eauto.
  - intros (y & Hxy & [->|Hyz]); [by apply tc_once|by eapply tc_l].
Qed.

Section task_search.
Variable ts : gmap tid Task.t.

(** What the loop over [dependencies_] returns, if the recursive calls
    return what is reachable. *)
Lemma addAllDependencies_loop_spec
    (visit : tid -> gset tid -> option (gset tid)) (ds : list tid) :
  (forall d S R, d ∈ ds -> visit d S = Some R ->
     forall y, y ∈ R <-> y ∈ S \/ tc (task_edge ts) d y) ->
  forall S R,
    addAllDependencies_loop visit ts ds S = Some R ->
    forall y, y ∈ R
              <-> y ∈ S
                  \/ exists d, d ∈ ds /\ is_Some (ts !! d)
                               /\ (d = y \/ tc (task_edge ts) d y).
Proof.
  induction ds as [|d ds IH]; intros Hvisit S R.
  { simpl. intros [= <-] y. split; [by left|].
    intros [?|(d & Hd & _)]; [done|]. by apply elem_of_nil in Hd. }
  simpl. destruct (ts !! d) as [dt|] eqn:Hd.
  - destruct (visit d ({[d]} ∪ S)) as [S1|] eqn:Hv; simpl; [|done].
    intros Hloop y.
    rewrite (IH (fun d' S' R' Hd' => Hvisit d' S' R' (list_elem_of_further _ _ _ Hd'))
               _ _ Hloop y).
    rewrite (Hvisit d _ _ (list_elem_of_here _ _) Hv y).
    rewrite elem_of_union, elem_of_singleton. split.
    + intros [[[->|Hy]|Hy]|(d' & Hd' & Hl & Hy)].
      * right. exists d. split; [apply list_elem_of_here|]. split; [by eexists|].
        by left.
      * by left.
      * right. exists d. split; [apply list_elem_of_here|]. split; [by eexists|].
        by right.
      * right. exists d'. split; [by apply list_elem_of_further|]. done.
    + intros [Hy|(d' & Hd' & Hl & Hy)]; [by left; left; right|].
      apply elem_of_cons in Hd' as [->|Hd'].
      * left. destruct Hy as [->|Hy]; [by left; left|by right].
      * right. by exists d'.
  - intros Hloop y.
    rewrite (IH (fun d' S' R' Hd' => Hvisit d' S' R' (list_elem_of_further _ _ _ Hd'))
               _ _ Hloop y).
    split.
    + intros [Hy|(d' & Hd' & Hl & Hy)]; [by left|].
      right. exists d'. split; [by apply list_elem_of_further|]. done.
    + intros [Hy|(d' & Hd' & Hl & Hy)]; [by left|].
      apply elem_of_cons in Hd' as [->|Hd'].
      * rewrite Hd in Hl. by destruct Hl.
      * right. by exists d'.
Qed.

Lemma addAllDependencies_reachable (fuel : nat) :
  forall (this : tid) (S R : gset tid),
    addAllDependencies fuel ts this S = Some R ->
    forall y, y ∈ R <-> y ∈ S \/ tc (task_edge ts) this y.
Proof.
  induction fuel as [|fuel IH]; intros this S R; [done|].
  simpl. destruct (ts !! this) as [t|] eqn:Ht.
  - intros Hloop y.
    rewrite (addAllDependencies_loop_spec _ _
               (fun d S' R' _ => IH d S' R') _ _ Hloop y).
    rewrite tc_first. split.
    + intros [Hy|(d & Hd & Hl & Hy)]; [by left|].
      right. exists d. split; [|done]. by apply (task_edge_iff _ _ _ _ Ht).
    + intros [Hy|(d & Hd & Hy)]; [by left|].
      apply (task_edge_iff _ _ _ _ Ht) in Hd as [Hd Hl].
      right. by exists d.
  - intros [= <-] y. split; [by left|].
    intros [Hy|Hy]; [done|]. by destruct (task_edge_dead _ _ _ Ht Hy).
Qed.

(** A loop that returns has made its recursive call for every dependency
    that is alive. *)
Lemma addAllDependencies_loop_calls
    (visit : tid -> gset tid -> option (gset tid)) (ds : list tid) :
  forall S R,
    addAllDependencies_loop visit ts ds S = Some R ->
    forall d, d ∈ ds -> is_Some (ts !! d) ->
      exists S' R', visit d S' = Some R'.
Proof.
  induction ds as [|d ds IH]; intros S R Hloop d' Hd' Hl.
  { by apply elem_of_nil in Hd'. }
  simpl in Hloop. destruct (ts !! d) as [dt|] eqn:Hd.
  - destruct (visit d ({[d]} ∪ S)) as [S1|] eqn:Hv; simpl in Hloop; [|done].
    apply elem_of_cons in Hd' as [->|Hd']; [by eauto|].
    by apply (IH _ _ Hloop).
  - apply elem_of_cons in Hd' as [->|Hd'].
    + rewrite Hd in Hl. by destruct Hl.
    + by apply (IH _ _ Hloop).
Qed.

Lemma addAllDependencies_no_cycle (fuel : nat) :
  forall (this : tid) (S R : gset tid),
    addAllDependencies fuel ts this S = Some R ->
    ~ tc (task_edge ts) this this.
Proof.
  induction fuel as [|fuel IH]; intros this S R; [done|].
  simpl. destruct (ts !! this) as [t|] eqn:Ht.
  - intros Hloop Hcycle.
    apply tc_first in Hcycle as (d & Hedge & Hback).
    pose proof Hedge as Hedge'.
    apply (task_edge_iff _ _ _ _ Ht) in Hedge as [Hd Hl].
    destruct (addAllDependencies_loop_calls _ _ _ _ Hloop d Hd Hl)
      as (S' & R' & Hcall).
    apply (IH _ _ _ Hcall).
    destruct Hback as [->|Hback]; [by apply tc_once|].
    eapply tc_r; [done|done].
  - intros _ Hcycle. by destruct (task_edge_dead _ _ _ Ht Hcycle).
Qed.

Lemma addAllDependencies_loop_ranked (rank : tid -> nat)
    (visit : tid -> gset tid -> option (gset tid)) (ds : list tid) :
  (forall d S, d ∈ ds -> is_Some (ts !! d) -> is_Some (visit d S)) ->
  forall S, is_Some (addAllDependencies_loop visit ts ds S).
Proof.
  induction ds as [|d ds IH]; intros Hvisit S; [by eexists|].
  simpl. destruct (ts !! d) as [dt|] eqn:Hd.
  - destruct (Hvisit d ({[d]} ∪ S) (list_elem_of_here _ _)) as [S1 ->];
      [by eexists|].
    simpl. apply IH. intros d' S' Hd'. apply Hvisit.
    by apply list_elem_of_further.
  - apply IH. intros d' S' Hd'. apply Hvisit. by apply list_elem_of_further.
Qed.

Lemma addAllDependencies_ranked (rank : tid -> nat) :
  (forall x y, task_edge ts x y -> rank y < rank x) ->
  forall fuel this S,
    rank this < fuel -> is_Some (addAllDependencies fuel ts this S).
Proof.
  intros Hrank. induction fuel as [|fuel IH]; intros this S Hfuel; [lia|].
  simpl. destruct (ts !! this) as [t|] eqn:Ht; [|by eexists].
  apply (addAllDependencies_loop_ranked rank). intros d S' Hd Hl.
  apply IH. assert (rank d < rank this); [|lia].
  apply Hrank. by apply (task_edge_iff _ _ _ _ Ht).
Qed.

Lemma prepareTasks_check_no_throw (fuel : nat) (tasks : list tid) (e : exn) :
  prepareTasks_check fuel ts tasks <> Some (Throw e).
Proof.
  induction tasks as [|task tasks IH]; [done|].
  simpl. destruct (addAllDependencies fuel ts task ∅) as [allDeps|] eqn:Hall;
    simpl; [|done].
  case_decide as Hin; [|done].
  apply (addAllDependencies_reachable _ _ _ _ Hall) in Hin as [Hin|Hin].
  - by apply not_elem_of_empty in Hin.
  - by destruct (addAllDependencies_no_cycle _ _ _ _ Hall).
Qed.

Lemma prepareTasks_check_ranked (rank : tid -> nat) (fuel : nat)
    (tasks : list tid) :
  (forall x y, task_edge ts x y -> rank y < rank x) ->
  Forall (fun task => rank task < fuel) tasks ->
  prepareTasks_check fuel ts tasks = Some (Ok tt).
Proof.
  intros Hrank. induction 1 as [|task tasks Htask _ IH]; [done|].
  simpl.
  destruct (addAllDependencies_ranked rank Hrank fuel task ∅ Htask)
    as [allDeps Hall].
  rewrite Hall. simpl. case_decide as Hin; [|done].
  apply (addAllDependencies_reachable _ _ _ _ Hall) in Hin as [Hin|Hin].
  - by apply not_elem_of_empty in Hin.
  - by destruct (addAllDependencies_no_cycle _ _ _ _ Hall).
Qed.
End task_search.

(** X10. [Task::addDependency] with a task that is alive puts it among the
    dependencies; a second call with the same task changes nothing; a list
    without repetitions stays without; and a pointer that has expired is
    not added. *)
Theorem Task_addDependency_once (ts : gmap tid Task.t) (this task : tid)
    (self : Task.t) :
  ts !! this = Some self ->
  (is_Some (ts !! task) ->
   exists self',
     Task_addDependency ts this task !! this = Some self'
     /\ task ∈ Task.dependencies_ self'
     /\ (NoDup (Task.dependencies_ self) -> NoDup (Task.dependencies_ self'))
     /\ Task_addDependency (Task_addDependency ts this task) this task
        = Task_addDependency ts this task)
  /\ (ts !! task = None -> Task_addDependency ts this task = ts).
Proof.
  intros Hthis. split; [|by unfold Task_addDependency; intros ->].
  intros [t Htask].
  destruct (existsb (fun wd => bool_decide (is_Some (ts !! wd) /\ wd = task))
              (Task.dependencies_ self)) eqn:Hex.
  - assert (Heq : Task_addDependency ts this task = ts).
    { unfold Task_addDependency. by rewrite Htask, Hthis, Hex. }
    rewrite !Heq. exists self. split; [done|].
    apply existsb_exists in Hex as (wd & Hwd%list_elem_of_In & Hdec).
    apply bool_decide_eq_true in Hdec as [_ ->]. done.
  - set (self' := Task_with_dependencies_
                    (Task.dependencies_ self ++ [task]) self).
    assert (Heq : Task_addDependency ts this task = <[this := self']> ts).
    { unfold Task_addDependency. by rewrite Htask, Hthis, Hex. }
    assert (Hnotin : task ∉ Task.dependencies_ self).
    { intros Hin. apply not_true_iff_false in Hex. apply Hex.
      apply existsb_exists. exists task. split; [by apply list_elem_of_In|].
      apply bool_decide_eq_true. split; [by eexists|done]. }
    rewrite !Heq. exists self'. split; [apply lookup_insert_eq|].
    split; [simpl; set_solver|]. split.
    + intros Hnodup. simpl. apply NoDup_app. split; [done|].
      split; [|apply NoDup_singleton]. set_solver.
    + unfold Task_addDependency.
      assert (Hlive : is_Some (<[this := self']> ts !! task)).
      { destruct (decide (this = task)) as [->|Hne].
        - rewrite lookup_insert_eq. by eexists.
        - rewrite lookup_insert_ne by done. by eexists. }
      destruct Hlive as [t' Ht']. rewrite Ht', lookup_insert_eq.
      assert (existsb
                (fun wd => bool_decide
                             (is_Some (<[this := self']> ts !! wd) /\ wd = task))
                (Task.dependencies_ self') = true) as ->; [|done].
      apply existsb_exists. exists task. split.
      * apply list_elem_of_In. simpl. set_solver.
      * apply bool_decide_eq_true. split; [by eexists|done].
Qed.

Lemma Task_addDependency_once_witness :
  exists self',
    Task_addDependency diamond_tasks 2 0 !! 2 = Some self'
    /\ 0 ∈ Task.dependencies_ self'.
Proof.
  destruct (proj1 (Task_addDependency_once diamond_tasks 2 0 _ eq_refl))
    as (self' & H1 & H2 & _).
  { by eexists. }
  by exists self'.
Defined.

(** X11. [prepareTasks] never throws "Circular dependency": whenever the
    search of [addAllDependencies] returns, the task it started from is not
    in the set it has collected. (A task that depends on itself through
    others makes the search recurse without end, see X12.) *)
Theorem prepareTasks_never_throws (fuel : nat) (isDelete : bool)
    (parentRelation : cid -> ParentRelation.t) (cs : gmap cid Component.t)
    (ts : gmap tid Task.t) (tasks : list tid) (reverseDependencies : bool)
    (e : exn) :
  prepareTasks fuel isDelete parentRelation cs ts tasks reverseDependencies
  <> Some (Throw e).
Proof.
  unfold prepareTasks.
  destruct (prepareTasks_check _ _ _) as [[[]|e']|] eqn:Hcheck; simpl; [done| |done].
  by destruct (prepareTasks_check_no_throw _ _ _ _ Hcheck).
Qed.

(** X12. [Task::addAllDependencies] recurses into every dependency,
    whether the set holds it already or not. So with a task that depends on
    itself, directly or through others, the recursion does not end,
    whatever the depth allowed; and when the call returns, it has added to
    the set exactly the tasks that the task depends on, directly or through
    others. *)
Theorem addAllDependencies_returns (ts : gmap tid Task.t) (this : tid) :
  (tc (task_edge ts) this this ->
   forall fuel tasks, addAllDependencies fuel ts this tasks = None)
  /\ (forall fuel tasks R,
        addAllDependencies fuel ts this tasks = Some R ->
        forall y, y ∈ R <-> y ∈ tasks \/ tc (task_edge ts) this y).
Proof.
  split.
  - intros Hcycle fuel tasks.
    destruct (addAllDependencies fuel ts this tasks) as [R|] eqn:Hall; [|done].
    by destruct (addAllDependencies_no_cycle _ _ _ _ _ Hall).
  - intros fuel tasks R. apply addAllDependencies_reachable.
Qed.

Lemma cyclic_tasks_cycle : tc (task_edge cyclic_tasks) 0 0.
Proof.
  apply tc_l with (y := 1).
  - eexists. split; [reflexivity|]. split; [set_solver|by eexists].
  - apply tc_once. eexists. split; [reflexivity|].
    split; [set_solver|by eexists].
Qed.

Lemma addAllDependencies_returns_witness :
  addAllDependencies 1000 cyclic_tasks 0 ∅ = None.
Proof.
  exact (proj1 (addAllDependencies_returns cyclic_tasks 0)
           cyclic_tasks_cycle 1000 ∅).
Defined.

(** X13. Where the dependencies between the tasks follow a rank (each
    dependency that is alive ranks below the task that lists it), the
    search returns within a depth of one more than the rank, and the check
    of [prepareTasks] passes; in DELETE mode, where [prepareTasks] adds no
    dependency, it returns with the tasks as they were. *)
Theorem prepareTasks_ranked (rank : tid -> nat) (fuel : nat)
    (parentRelation : cid -> ParentRelation.t) (cs : gmap cid Component.t)
    (ts : gmap tid Task.t) (tasks : list tid) (reverseDependencies : bool) :
  (forall x y, task_edge ts x y -> rank y < rank x) ->
  Forall (fun task => rank task < fuel) tasks ->
  (forall task S, rank task < fuel ->
     is_Some (addAllDependencies fuel ts task S))
  /\ prepareTasks_check fuel ts tasks = Some (Ok tt)
  /\ prepareTasks fuel true parentRelation cs ts tasks reverseDependencies
     = Some (Ok ts).
Proof.
  intros Hrank Htasks. split; [|split].
  - intros task S. by apply (addAllDependencies_ranked ts rank).
  - by apply (prepareTasks_check_ranked ts rank).
  - unfold prepareTasks. simpl.
    by rewrite (prepareTasks_check_ranked ts rank fuel tasks Hrank Htasks).
Qed.

Lemma diamond_tasks_ranked (x y : tid) :
  task_edge diamond_tasks x y -> (3 - y) < (3 - x).
Proof.
  intros (t & Ht & Hy & Hl). unfold diamond_tasks in Ht.
  destruct x as [|[|[|x]]]; simplify_map_eq; simpl in Hy;
    repeat (apply elem_of_cons in Hy as [->|Hy]; [lia|]);
    by apply elem_of_nil in Hy.
Qed.

Lemma prepareTasks_ranked_witness :
  prepareTasks 4 true (fun _ => ParentRelation.AFTER) ∅ diamond_tasks
    [0; 1; 2] false
  = Some (Ok diamond_tasks).
Proof.
  refine (proj2 (proj2
            (prepareTasks_ranked (fun x => 3 - x) 4 _ ∅ diamond_tasks
               [0; 1; 2] false diamond_tasks_ranked _))).
  repeat constructor; simpl; lia.
Defined.

(** ** More on the tokenizer *)

Lemma has_char_push_back (a : ascii) (s : string) (ch : ascii) :
  has_char a (push_back s ch) = (has_char a s || Ascii.eqb ch a)%bool.
Proof.
  unfold push_back. rewrite has_char_append. simpl. by rewrite orb_false_r.
Qed.

Lemma getArgAsStringList_loop_no_quote_in (values : string) :
  forall state value rval,
    has_char "'" value = false ->
    Forall (fun token => has_char "'" token = false) rval ->
    Forall (fun token => has_char "'" token = false)
           (getArgAsStringList_loop values state value rval).
Proof.
  induction values as [|ch rest IH]; intros state value rval Hvalue Hrval.
  { simpl. destruct (String.eqb value EmptyString); [done|].
    apply Forall_app. split; [done|]. by constructor. }
  assert (Hpush : is_quote ch = false ->
                  has_char "'" (push_back value ch) = false).
  { intros Hq. rewrite has_char_push_back, Hvalue. exact Hq. }
  assert (Hrval' : Forall (fun token => has_char "'" token = false)
                          (rval ++ [value])).
  { apply Forall_app. split; [done|]. by constructor. }
  simpl. destruct state, (is_blank ch), (is_quote ch) eqn:Hq; auto.
Qed.

(** X14. No token that [getArgAsStringList] returns holds a single quote,
    whatever the input: a quote always ends or opens a token and is never
    copied, so an argument cannot carry one. *)
Theorem getArgAsStringList_tokens_hold_no_quote (values : string) :
  Forall (fun token => has_char "'" token = false)
         (getArgAsStringList values).
Proof. by apply getArgAsStringList_loop_no_quote_in. Qed.

(** Tokens already returned stay in front. *)
Lemma getArgAsStringList_loop_app (values : string) :
  forall state value (rval0 rval : list string),
    getArgAsStringList_loop values state value (rval0 ++ rval)
    = (rval0 ++ getArgAsStringList_loop values state value rval)%list.
Proof.
  induction values as [|ch rest IH]; intros state value rval0 rval.
  { simpl. destruct (String.eqb value EmptyString); [done|].
    by rewrite app_assoc. }
  simpl. destruct state, (is_blank ch), (is_quote ch);
    rewrite <- ?app_assoc; auto.
Qed.

Lemma push_back_not_empty (s : string) (ch : ascii) :
  String.eqb (push_back s ch) EmptyString = false.
Proof. by destruct s. Qed.

Lemma getArgAsStringList_loop_join (a b : string) :
  has_char "'" a = false ->
  forall state value rval,
    (state = SplitState.SKIPPING /\ value = EmptyString
     \/ state = SplitState.IN_STRING /\ String.eqb value EmptyString = false) ->
    getArgAsStringList_loop (a +:+ String " " b) state value rval
    = (getArgAsStringList_loop a state value rval
       ++ getArgAsStringList b)%list.
Proof.
  induction a as [|ch a IH]; intros Ha state value rval Hstate.
  { rewrite append_nil_l.
    destruct Hstate as [[-> ->]|[-> Hvalue]]; simpl.
    - rewrite <- (app_nil_r rval) at 1.
      by rewrite getArgAsStringList_loop_app.
    - rewrite Hvalue.
      rewrite <- (app_nil_r (rval ++ [value])) at 1.
      by rewrite getArgAsStringList_loop_app. }
  simpl in Ha. apply orb_false_elim in Ha as [Hq Ha].
  rewrite append_cons. simpl. unfold is_quote. rewrite Hq.
  destruct Hstate as [[-> ->]|[-> Hvalue]].
  - destruct (is_blank ch).
    + apply IH; [done|]. by left.
    + apply IH; [done|]. right. split; [done|]. apply push_back_not_empty.
  - destruct (is_blank ch).
    + apply IH; [done|]. by left.
    + apply IH; [done|]. right. split; [done|]. apply push_back_not_empty.
Qed.

(** X15. Where the first of two texts holds no quote, the tokens of the
    texts joined by a space are the tokens of the first followed by the
    tokens of the second. [mergeArgs] joins the values of "pod.args" and of
    "pod.env" in this way, so the tokens of a merged value are those of its
    parts, in order. *)
Theorem getArgAsStringList_join (a b : string) :
  has_char "'" a = false ->
  getArgAsStringList (a +:+ " " +:+ b)
  = (getArgAsStringList a ++ getArgAsStringList b)%list.
Proof.
  intros Ha. unfold getArgAsStringList at 1 2.
  apply getArgAsStringList_loop_join; [done|]. by left.
Qed.

Lemma getArgAsStringList_join_witness :
  getArgAsStringList ("-v --port 80" +:+ " " +:+ "'--name=my app' -q")
  = ["-v"; "--port"; "80"; "--name=my app"; "-q"].
Proof. exact (getArgAsStringList_join "-v --port 80" _ eq_refl). Defined.

(** ** More on variable expansion *)

(** Outside a token the scan does not read the name and the default of the
    token before. *)
Lemma expandVariables_loop_outside env vars (json : string) :
  forall state (e vn vn' : string) (d d' : option string),
    state <> ExpandState.SCAN_NAME ->
    state <> ExpandState.SCAN_DEFAUT_VALUE ->
    expandVariables_loop env vars json state e vn d
    = expandVariables_loop env vars json state e vn' d'.
Proof.
  induction json as [|ch json IH]; intros state e vn vn' d d' H1 H2.
  { by destruct state. }
  destruct state; try done; simpl; repeat case_match; auto.
Qed.

(** What has been written stays in front of what is written next. *)
Lemma expandVariables_loop_written env vars (json : string) :
  forall state (e0 e vn : string) (d : option string),
    expandVariables_loop env vars json state (e0 +:+ e) vn d
    = match expandVariables_loop env vars json state e vn d with
      | Ok r => Ok (e0 +:+ r)
      | Throw x => Throw x
      end.
Proof.
  assert (Hpush : forall e0 e ch,
            push_back (e0 +:+ e) ch = e0 +:+ push_back e ch).
  { intros. unfold push_back. apply append_assoc. }
  induction json as [|ch json IH]; intros state e0 e vn d.
  { by destruct state. }
  destruct state; simpl;
    repeat match goal with
      | |- context [if ?c then _ else _] => destruct c
      end;
    rewrite ?Hpush, ?append_assoc; auto.
Qed.

(** A text that expands on its own leaves the scan outside any token. *)
Lemma expandVariables_loop_prefix env vars (a : string) :
  forall state (e vn : string) (d : option string) (ra : string),
    expandVariables_loop env vars a state e vn d = Ok ra ->
    exists vn' d',
      forall b,
        expandVariables_loop env vars (a +:+ b) state e vn d
        = expandVariables_loop env vars b ExpandState.COPY ra vn' d'.
Proof.
  induction a as [|ch a IH]; intros state e vn d ra.
  { destruct state; simpl; intros [= <-]. by exists vn, d. }
  destruct state; simpl; repeat case_match; try done; apply IH.
Qed.

Lemma expandVariables_append env vars (a b ra : string) :
  expandVariables env a vars = Ok ra ->
  expandVariables env (a +:+ b) vars
  = match expandVariables env b vars with
    | Ok rb => Ok (ra +:+ rb)
    | Throw x => Throw x
    end.
Proof.
  unfold expandVariables. intros Ha.
  destruct (expandVariables_loop_prefix _ _ _ _ _ _ _ _ Ha) as (vn' & d' & ->).
  rewrite (expandVariables_loop_outside _ _ b ExpandState.COPY ra vn'
             EmptyString d' None) by done.
  rewrite <- (append_nil_r ra) at 1.
  apply expandVariables_loop_written.
Qed.

(** X16. Expansion goes through a text from left to right and part by
    part: where a first part expands on its own, the expansion of the whole
    is its expansion followed by that of the rest, and fails where that of
    the rest fails. *)
Theorem expandVariables_distributes env (vars : variables_t)
    (a b ra : string) :
  expandVariables env a vars = Ok ra ->
  expandVariables env (a +:+ b) vars
  = match expandVariables env b vars with
    | Ok rb => Ok (ra +:+ rb)
    | Throw x => Throw x
    end.
Proof. apply expandVariables_append. Qed.

Lemma expandVariables_distributes_witness :
  expandVariables env_PORT ("port=${PORT} " +:+ "host=${HOST,localhost}") ∅
  = Ok "port=9090 host=localhost".
Proof.
  exact (expandVariables_distributes env_PORT ∅ "port=${PORT} "
           "host=${HOST,localhost}" "port=9090 " eq_refl).
Defined.

Lemma expandVariables_loop_unterminated env vars (s : string) :
  has_char "}" s = false ->
  forall state (e vn : string) (d : option string),
    state = ExpandState.SCAN_NAME \/ state = ExpandState.SCAN_DEFAUT_VALUE ->
    expandVariables_loop env vars s state e vn d = Throw expand_error.
Proof.
  induction s as [|ch s IH]; simpl has_char; intros Hs state e vn d Hstate.
  { by destruct Hstate as [-> | ->]. }
  apply orb_false_elim in Hs as [Hch Hs].
  destruct Hstate as [-> | ->]; simpl; rewrite ?Hch;
    repeat case_match; auto.
Qed.

(** X17. A token that is not closed makes the expansion fail: where the
    text after a "${" holds no '}', [expandVariables] throws "Error
    expanding macro", whatever stands in the token and whatever expanded
    before it. *)
Theorem expandVariables_unterminated env (vars : variables_t)
    (a s ra : string) :
  expandVariables env a vars = Ok ra ->
  has_char "}" s = false ->
  expandVariables env (a +:+ "${" +:+ s) vars = Throw expand_error.
Proof.
  intros Ha Hs. rewrite (expandVariables_append _ _ _ _ _ Ha).
  unfold expandVariables. rewrite !append_cons, append_nil_l. simpl.
  rewrite expandVariables_loop_unterminated; auto.
Qed.

Lemma expandVariables_unterminated_witness :
  expandVariables env_PORT ("port=${PORT} " +:+ "${" +:+ "HOST,localhost") ∅
  = Throw expand_error.
Proof.
  exact (expandVariables_unterminated env_PORT ∅ "port=${PORT} "
           "HOST,localhost" "port=9090 " eq_refl eq_refl).
Defined.

Lemma escape_quotes_plain (s : string) :
  has_char DQUOTE s = false -> escape_quotes s = s.
Proof.
  induction s as [|ch s IH]; simpl; [done|].
  intros [Hch Hs]%orb_false_elim. by rewrite Hch, (IH Hs).
Qed.

(** X18. A default of the form [$ENVVAR] whose variable is set in the
    environment contributes the first character of the value and no more
    (the terminating NUL when the value is empty): the assignment
    [*defaultValue = *evar] stores one [char]. *)
Theorem expandVariables_env_default env (vars : variables_t)
    (name evar val : string) :
  all_name_chars name ->
  vars !! name = None ->
  env name = None ->
  has_char "}" evar = false ->
  has_char DQUOTE evar = false ->
  has_char NUL evar = false ->
  env evar = Some val ->
  expandVariables env ("${" +:+ name +:+ ",$" +:+ evar +:+ "}") vars
  = Ok (String (deref_char val) EmptyString).
Proof.
  intros Hname Hvars Henv Hclose Hquote Hnul Hval. unfold expandVariables.
  rewrite !append_cons, append_nil_l. simpl.
  rewrite (expandVariables_scan_name _ _ _ _ _ _ _ Hname).
  rewrite !append_nil_l. simpl.
  rewrite (expandVariables_scan_default _ _ _ _ _ _ _ Hclose).
  simpl. rewrite (escape_quotes_plain _ Hquote), append_nil_l.
  change (push_back EmptyString "$" +:+ evar) with (String "$" evar).
  unfold commit_default, getenv. rewrite (c_str_no_NUL _ Hnul), Hval.
  rewrite (getVar_resolve_code _ _ _ _ Hname).
  unfold resolve_code. by rewrite Hvars, Henv.
Qed.

Lemma expandVariables_env_default_witness :
  expandVariables env_PORT ("${" +:+ "Q" +:+ ",$" +:+ "PORT" +:+ "}") ∅
  = Ok "9".
Proof.
  apply (expandVariables_env_default env_PORT ∅ "Q" "PORT" "9090");
    try reflexivity.
  repeat constructor.
Defined.

(** ** More on the tree and on [evaluate] *)

Lemma getRoot_loop_last cs (x : cid) (l : list cid) (fuel : nat) :
  path_to_root cs x l -> length l <= fuel ->
  getRoot_loop fuel cs x = last l
  /\ exists root, last l = Some root /\ parentPtr cs root = None.
Proof.
  intros Hpath. revert fuel.
  induction Hpath as [x Hx|x p l Hx Hpath IH]; intros fuel Hfuel.
  - destruct fuel as [|fuel]; [simpl in Hfuel; lia|].
    simpl. rewrite Hx. split; [done|]. by exists x.
  - destruct fuel as [|fuel]; [simpl in Hfuel; lia|].
    simpl in Hfuel. destruct (IH fuel) as (Hroot & root & Hlast & Hnone); [lia|].
    simpl getRoot_loop. rewrite Hx, Hroot.
    assert (last (x :: l) = last l) as ->.
    { destruct l; [by inversion Hpath|done]. }
    split; [done|]. by exists root.
Qed.

(** X19. In a tree whose parent links follow a depth, [getPathToRoot] and
    [getRoot] both return: the path starts at the component, repeats no
    component, holds only live components, and ends at the component that
    [getRoot] returns, which has no parent. *)
Theorem getPathToRoot_ends_at_getRoot (depth : cid -> nat)
    (cs : gmap cid Component.t) (this : cid) :
  tree_wf depth cs ->
  is_Some (cs !! this) ->
  exists path root,
    getPathToRoot cs this = Some path
    /\ getRoot cs this = Some root
    /\ head path = Some this
    /\ last path = Some root
    /\ parentPtr cs root = None
    /\ NoDup path
    /\ Forall (fun y => is_Some (cs !! y)) path.
Proof.
  intros Hwf Hthis.
  destruct (tree_wf_path depth cs Hwf this) as [path Hpath].
  destruct (getRoot_loop_last cs this path (S (size cs)) Hpath
              (path_to_root_length _ _ _ Hpath))
    as (Hroot & root & Hlast & Hnone).
  exists path, root. split; [by apply getPathToRoot_path|].
  split; [unfold getRoot; congruence|].
  split; [by destruct Hpath|]. split; [done|]. split; [done|].
  split; [by eapply path_to_root_NoDup|].
  apply Forall_forall. intros y Hy.
  destruct Hpath as [x Hx|x p l Hx Hpath].
  - apply list_elem_of_singleton in Hy as ->. done.
  - apply elem_of_cons in Hy as [->|Hy]; [done|].
    apply elem_of_dom.
    apply (path_to_root_tail cs x (x :: l)); [by eapply path_step|done].
Qed.

Lemma getPathToRoot_ends_at_getRoot_witness :
  exists path root,
    getPathToRoot (components deployment_world) 2 = Some path
    /\ getRoot (components deployment_world) 2 = Some root
    /\ head path = Some 2
    /\ last path = Some root
    /\ parentPtr (components deployment_world) root = None
    /\ NoDup path
    /\ Forall (fun y => is_Some (components deployment_world !! y)) path.
Proof.
  apply (getPathToRoot_ends_at_getRoot (fun x => x)).
  - exact deployment_world_wf.
  - by eexists.
Defined.

(** X20. In such a tree [Component::evaluate] returns, whatever the states
    of the tasks and the components. It leaves the tasks, the state of the
    cluster, the clock and the requests as they were; it changes no link of
    the tree; and it changes no component other than its own and those
    above it. *)
Theorem Component_evaluate_terminates (depth : cid -> nat) (w : World)
    (this : cid) :
  tree_wf depth (components w) ->
  is_Some (components w !! this) ->
  exists N w',
    (forall fuel, N <= fuel -> Component_evaluate fuel w this = Some w')
    /\ tasks w' = tasks w
    /\ cluster_executing w' = cluster_executing w
    /\ clock w' = clock w
    /\ requests w' = requests w
    /\ same_tree (components w) (components w')
    /\ forall y, y <> this -> depth this <= depth y ->
         components w' !! y = components w !! y.
Proof.
  intros Hwf Hthis.
  destruct (Component_evaluate_total depth w this Hwf Hthis)
    as (N & w' & He & Hframe & _).
  exists N, w'. split; [done|]. exact Hframe.
Qed.

Lemma Component_evaluate_terminates_witness :
  exists N w',
    (forall fuel, N <= fuel ->
       Component_evaluate fuel deployment_world 2 = Some w')
    /\ tasks w' = tasks deployment_world
    /\ cluster_executing w' = cluster_executing deployment_world
    /\ clock w' = clock deployment_world
    /\ requests w' = requests deployment_world
    /\ same_tree (components deployment_world) (components w')
    /\ forall y, y <> 2 -> 2 <= y ->
         components w' !! y = components deployment_world !! y.
Proof.
  apply (Component_evaluate_terminates (fun x => x)).
  - exact deployment_world_wf.
  - by eexists.
Defined.

(** X21. The states that [Component::evaluate] can give its component: it
    leaves the state as it was, or sets RUNNING, or sets DONE, and then all
    tasks of the component and all its children were DONE when it was
    called, or sets FAILED, and then a task of the component had failed, or
    its tasks were DONE and a child had failed. It never sets CREATING. *)
Theorem Component_evaluate_transitions (depth : cid -> nat) (w : World)
    (this : cid) (c : Component.t) :
  tree_wf depth (components w) ->
  components w !! this = Some c ->
  exists N w' c',
    (forall fuel, N <= fuel -> Component_evaluate fuel w this = Some w')
    /\ components w' !! this = Some c'
    /\ (Component.state_ c' = Component.state_ c
        \/ Component.state_ c' = State.RUNNING
        \/ Component.state_ c' = State.DONE /\ done_env w this c = true
        \/ Component.state_ c' = State.FAILED /\ failed_env w this c = true).
Proof.
  intros Hwf Hc.
  destruct (Component_evaluate_total depth w this Hwf)
    as (N & w' & He & Hframe & _ & Hp); [by eexists|].
  destruct Hframe as (_ & _ & _ & _ & Htree & _).
  destruct (same_tree_Some _ _ _ _ Htree Hc) as (c' & Hc' & _).
  exists N, w', c'. split; [done|]. split; [done|].
  destruct (Hp c c' Hc Hc') as [H|H]; [by left|].
  right. destruct (Component.state_ c'); simpl in H; [done|auto..].
Qed.

Lemma Component_evaluate_transitions_witness :
  exists N w' c',
    (forall fuel, N <= fuel ->
       Component_evaluate fuel deployment_world 1 = Some w')
    /\ components w' !! 1 = Some c'
    /\ (Component.state_ c' = State.RUNNING
        \/ Component.state_ c' = State.RUNNING
        \/ Component.state_ c' = State.DONE
           /\ done_env deployment_world 1
                (running_component "web" Kind.DEPLOYMENT (Some 0) [2] None 1)
              = true
        \/ Component.state_ c' = State.FAILED
           /\ failed_env deployment_world 1
                (running_component "web" Kind.DEPLOYMENT (Some 0) [2] None 1)
              = true).
Proof.
  exact (Component_evaluate_transitions (fun x => x) deployment_world 1 _
           deployment_world_wf eq_refl).
Defined.

(** ** Children by kind *)

(** X22. [hasKindAsChild] answers whether [getFirstKindAmongChildren] finds
    a child, and the child found is of the kind asked for, is a child, and
    no child before it in [children_] is of that kind. *)
Theorem getFirstKindAmongChildren_first (cs : gmap cid Component.t)
    (c : Component.t) (kind : Kind.t) :
  hasKindAsChild cs c kind
  = bool_decide (is_Some (getFirstKindAmongChildren cs c kind))
  /\ forall child,
       getFirstKindAmongChildren cs c kind = Some child ->
       exists before after ch,
         Component.children_ c = (before ++ child :: after)%list
         /\ cs !! child = Some ch
         /\ Component.kind_ ch = kind
         /\ Forall (fun y => forall ch', cs !! y = Some ch' ->
                               Component.kind_ ch' <> kind) before.
Proof.
  unfold hasKindAsChild, getFirstKindAmongChildren.
  induction (Component.children_ c) as [|y children [IH1 IH2]].
  { split; [done|]. intros child. discriminate. }
  simpl. destruct (cs !! y) as [ch|] eqn:Hy.
  - destruct (decide (Component.kind_ ch = kind)) as [Hkind|Hkind];
      rewrite ?(bool_decide_eq_true_2 _ Hkind),
              ?(bool_decide_eq_false_2 _ Hkind); simpl.
    + split; [done|]. intros child [= <-].
      exists [], children, ch. done.
    + split; [done|]. intros child Hchild.
      destruct (IH2 child Hchild) as (before & after & ch' & -> & H1 & H2 & H3).
      exists (y :: before), after, ch'. split; [done|]. split; [done|].
      split; [done|]. constructor; [|done].
      intros ch0 Hch0. by assert (ch0 = ch) as -> by congruence.
  - split; [done|]. intros child Hchild.
    destruct (IH2 child Hchild) as (before & after & ch' & -> & H1 & H2 & H3).
    exists (y :: before), after, ch'. split; [done|]. split; [done|].
    split; [done|]. constructor; [|done]. intros ? Hy'. congruence.
Qed.

(** ** The requests of a Deployment and of a Service *)

(** With a failed task in its list, [evaluate] can only set the component
    FAILED. *)
Lemma rank_with_failed_task (w : World) (this : cid) (task : tid)
    (t : Task.t) (c : Component.t) (s : State.t) :
  task ∈ task_list (components w) this ->
  tasks w !! task = Some t ->
  Task.component_ t = this ->
  task_failed (Task.state_ t) = true ->
  rank_with w this c s
  = match s with
    | State.CREATING => 2 | State.FAILED => 0 | _ => 1
    end
  /\ done_env w this c = false.
Proof.
  intros Hin Ht Hthis Hfailed.
  pose proof (own_states_failed _ _ _ _ _ Hin Ht Hthis Hfailed) as Henv.
  split.
  - unfold rank_with, rank_of, failed_env_of. by rewrite Henv.
  - unfold done_env. apply andb_false_intro1.
    apply not_true_iff_false. intros Hall.
    apply existsb_exists in Henv as (s' & Hs' & Hf).
    rewrite forallb_forall in Hall. specialize (Hall s' Hs').
    unfold task_done, task_failed in *. by destruct s'.
Qed.

(** What the error paths of the request handlers do: the task is set
    FAILED, then the component. *)
Lemma fail_task_then_component depth (w : World) (this : cid) (task : tid)
    (t : Task.t) (c : Component.t) :
  tree_wf depth (components w) ->
  tasks w !! task = Some t ->
  Task.component_ t = this ->
  task ∈ task_list (components w) this ->
  components w !! this = Some c ->
  exists N w1 c1,
    (forall fuel, N <= fuel ->
       setState_if_alive fuel w task TaskState.FAILED = Some w1)
    /\ requests w1 = requests w
    /\ task_state_of w1 task = Some TaskState.FAILED
    /\ components w1 !! this = Some c1
    /\ (Component.state_ c1 = Component.state_ c
        \/ Component.state_ c1 = State.RUNNING
        \/ Component.state_ c1 = State.FAILED)
    /\ exists N' w2,
         (forall fuel, N' <= fuel ->
            Component_setState fuel w1 this State.FAILED = Some w2)
         /\ requests w2 = requests w
         /\ task_state_of w2 task = Some TaskState.FAILED
         /\ state_of w2 this = Some State.FAILED.
Proof.
  intros Hwf Ht Hthis Hin Hc. subst this.
  set (this := Task.component_ t) in *.
  set (wf := with_task_state w task t TaskState.FAILED).
  assert (Htf : tasks wf !! task = Some (Task.with_state_ TaskState.FAILED t)).
  { simpl. by rewrite lookup_insert_eq. }
  destruct (Task_setState_total depth w task t TaskState.FAILED
              Task_setState_scheduleRunTasks_default c)
    as (N1 & w1 & He1 & Hf1 & Hp1); [done..|].
  pose proof Hf1 as (Hts1 & _ & _ & Hrq1 & Htree1 & _).
  destruct (same_tree_Some _ _ _ _ Htree1 Hc) as (c1 & Hc1 & Herase1).
  assert (Hwf1 : tree_wf depth (components w1))
    by (by eapply (evaluate_frame_wf depth this _ w1)).
  destruct (Component_setState_total depth w1 this State.FAILED c1 Hwf1 Hc1)
    as (N2 & w2 & He2 & Hf2 & Hp2).
  pose proof Hf2 as (Hts2 & _ & _ & Hrq2 & Htree2 & _).
  destruct (same_tree_Some _ _ _ _ Htree2 Hc1) as (c2 & Hc2 & Herase2).
  exists N1, w1, c1. split.
  { intros fuel Hfuel. unfold setState_if_alive. rewrite Ht. by apply He1. }
  split; [done|]. split.
  { unfold task_state_of. rewrite Hts1. simpl. by rewrite lookup_insert_eq. }
  split; [done|]. split.
  { destruct (Hp1 c1 Hc1) as [H|H]; [by left|].
    destruct (rank_with_failed_task wf this task _ c State.DONE Hin Htf
                eq_refl eq_refl) as [_ Hnd].
    destruct (Component.state_ c1); auto; simpl in H; [discriminate H|].
    change (done_env wf this c = true) in H. congruence. }
  exists N2, w2. split; [done|]. split; [by rewrite Hrq2, Hrq1|]. split.
  { unfold task_state_of. rewrite Hts2, Hts1. simpl.
    by rewrite lookup_insert_eq. }
  unfold state_of. rewrite Hc2. simpl. f_equal.
  destruct (Hp2 c2 Hc2) as [[Hr|[Hr ->]] _]; [|done].
  assert (Hin1 : task ∈ task_list (components w1) this).
  { pose proof (same_tree_task_list _ _ this Htree1) as E.
    change (task_list (components w1) this = task_list (components w) this)
      in E.
    by rewrite E. }
  assert (Ht1 : tasks w1 !! task = Some (Task.with_state_ TaskState.FAILED t)).
  { by rewrite Hts1. }
  rewrite (evaluate_frame_rank depth this w1 w2 c1 c2) in Hr by done.
  rewrite (proj1 (rank_with_failed_task w1 this task _ c1 State.FAILED
                    Hin1 Ht1 eq_refl eq_refl)) in Hr.
  rewrite (proj1 (rank_with_failed_task w1 this task _ c1
                    (Component.state_ c2) Hin1 Ht1 eq_refl eq_refl)) in Hr.
  destruct (Component.state_ c2); simpl in Hr; done || lia.
Qed.

(** X23. The request of a Deployment: [doDeploy] posts to the URL and
    returns. On a reply it changes no state, since the task waits for the
    events of the pods; on any error the task is FAILED and the component
    is FAILED. *)
Theorem DeploymentComponent_doDeploy_outcomes depth (w : World) (this : cid)
    (url : string) (task : tid) (outcome : HttpOutcome)
    (t : Task.t) (c : Component.t) :
  tree_wf depth (components w) ->
  tasks w !! task = Some t ->
  Task.component_ t = this ->
  task ∈ task_list (components w) this ->
  components w !! this = Some c ->
  exists N,
    forall fuel, N <= fuel ->
      exists w',
        DeploymentComponent_doDeploy fuel w this url task outcome = Some w'
        /\ requests w' = (requests w ++ [(HttpPOST, url)])%list
        /\ match outcome with
           | HttpReply _ => w' = send HttpPOST url w
           | _ => task_state_of w' task = Some TaskState.FAILED
                  /\ state_of w' this = Some State.FAILED
           end.
Proof.
  intros Hwf Ht Hthis Hin Hc.
  destruct (fail_task_then_component depth (send HttpPOST url w) this task t c
              Hwf Ht Hthis Hin Hc)
    as (N1 & w1 & c1 & He1 & _ & _ & _ & _ & N2 & w2 & He2 & Hrq & Hts & Hst).
  exists (max N1 N2). intros fuel Hfuel. unfold DeploymentComponent_doDeploy.
  destruct outcome as [code|status_code|].
  - by eexists.
  - exists w2. rewrite He1 by lia. simpl. split; [apply He2; lia|]. done.
  - exists w2. rewrite He1 by lia. simpl. split; [apply He2; lia|]. done.
Qed.

Lemma deployment_world_task_list :
  0 ∈ task_list (components deployment_world) 1.
Proof. vm_compute. apply list_elem_of_here. Qed.

Lemma DeploymentComponent_doDeploy_outcomes_witness :
  exists N,
    forall fuel, N <= fuel ->
      exists w',
        DeploymentComponent_doDeploy fuel deployment_world 1 deployments_url 0
          OtherException = Some w'
        /\ requests w' = [(HttpPOST, deployments_url)]
        /\ task_state_of w' 0 = Some TaskState.FAILED
        /\ state_of w' 1 = Some State.FAILED.
Proof.
  exact (DeploymentComponent_doDeploy_outcomes (fun x => x) deployment_world
           1 deployments_url 0 OtherException _ _
           deployment_world_wf eq_refl eq_refl deployment_world_task_list
           eq_refl).
Defined.

(** X24. The request of a Service when [Execute] throws: the task is
    FAILED, and a component that was RUNNING is FAILED when [doDeploy]
    returns. *)
Theorem ServiceComponent_doDeploy_error depth (w : World) (this : cid)
    (url : string) (task : tid) (outcome : HttpOutcome)
    (t : Task.t) (c : Component.t) :
  tree_wf depth (components w) ->
  tasks w !! task = Some t ->
  Task.component_ t = this ->
  task ∈ task_list (components w) this ->
  components w !! this = Some c ->
  (forall code, outcome <> HttpReply code) ->
  exists N,
    forall fuel, N <= fuel ->
      exists w',
        ServiceComponent_doDeploy fuel w this url task outcome = Some w'
        /\ requests w' = (requests w ++ [(HttpPOST, url)])%list
        /\ task_state_of w' task = Some TaskState.FAILED
        /\ (Component.state_ c = State.RUNNING ->
            state_of w' this = Some State.FAILED).
Proof.
  intros Hwf Ht Hthis Hin Hc Herror.
  destruct (fail_task_then_component depth (send HttpPOST url w) this task t c
              Hwf Ht Hthis Hin Hc)
    as (N1 & w1 & c1 & He1 & Hrq1 & Hts1 & Hc1 & Hs1
        & N2 & w2 & He2 & Hrq2 & Hts2 & Hst2).
  exists (max N1 N2). intros fuel Hfuel.
  assert (Hpath :
            (w ← setState_if_alive fuel (send HttpPOST url w) task
                   TaskState.FAILED;
             c ← components w !! this;
             if State.eqb (Component.state_ c) State.RUNNING
             then Component_setState fuel w this State.FAILED
             else Some w)
            = Some (if State.eqb (Component.state_ c1) State.RUNNING
                    then w2 else w1)).
  { rewrite He1 by lia. simpl. rewrite Hc1. simpl.
    destruct (State.eqb (Component.state_ c1) State.RUNNING); [|done].
    apply He2. lia. }
  exists (if State.eqb (Component.state_ c1) State.RUNNING then w2 else w1).
  split.
  { unfold ServiceComponent_doDeploy.
    destruct outcome as [code|status_code|]; [|done..].
    by destruct (Herror code). }
  destruct (State.eqb (Component.state_ c1) State.RUNNING) eqn:Hrun.
  - split; [done|]. split; [done|]. done.
  - split; [done|]. split; [done|]. intros Hrunning.
    unfold state_of. rewrite Hc1. simpl. f_equal.
    destruct Hs1 as [H|[H|H]]; [| |done].
    + rewrite H, Hrunning in Hrun. discriminate Hrun.
    + rewrite H in Hrun. discriminate Hrun.
Qed.

Lemma service_world_wf : tree_wf (fun x => x) (components service_world).
Proof.
  intros x c Hc. simpl in Hc.
  destruct x as [|[|[|x]]].
  - injection Hc as <-. split.
    + intros p Hp. vm_compute in Hp. discriminate Hp.
    + intros ch Hch. simpl in Hch. set_solver by lia.
  - injection Hc as <-. split.
    + intros p Hp. vm_compute in Hp. injection Hp as <-. lia.
    + intros ch Hch. simpl in Hch. set_solver by lia.
  - injection Hc as <-. split.
    + intros p Hp. vm_compute in Hp. injection Hp as <-. lia.
    + intros ch Hch. simpl in Hch. set_solver.
  - rewrite !lookup_insert_ne, lookup_empty in Hc by lia. discriminate Hc.
Qed.

Lemma service_world_task_list : 0 ∈ task_list (components service_world) 1.
Proof. vm_compute. apply list_elem_of_here. Qed.

Lemma ServiceComponent_doDeploy_error_witness :
  exists N,
    forall fuel, N <= fuel ->
      exists w',
        ServiceComponent_doDeploy fuel service_world 1 services_url 0
          (RequestFailedWithErrorException 500) = Some w'
        /\ requests w' = [(HttpPOST, services_url)]
        /\ task_state_of w' 0 = Some TaskState.FAILED
        /\ (State.RUNNING = State.RUNNING ->
            state_of w' 1 = Some State.FAILED).
Proof.
  exact (ServiceComponent_doDeploy_error (fun x => x) service_world
           1 services_url 0 (RequestFailedWithErrorException 500) _ _
           service_world_wf eq_refl eq_refl service_world_task_list
           eq_refl (fun code => ltac:(discriminate))).
Defined.

(** ** Names of kinds *)

(** X4. [toString] and [toKind] are inverse to each other: every enumerator
    has a name, that name converts back to the enumerator, and a string
    that [toKind] accepts is the name of what it converts to. So a kind
    that is written with [toString] and read with [toKind], as [addChild]
    and [createComponent] do, comes back unchanged. *)
Theorem toString_toKind_inverse :
  (forall kind, exists s, toString kind = Ok s /\ toKind s = Ok kind)
  /\ (forall s kind, toKind s = Ok kind <-> toString kind = Ok s).
Proof.
  assert (Hall : forall kind, exists s, toString kind = Ok s /\ toKind s = Ok kind).
  { intros []; eexists; split; vm_compute; reflexivity. }
  split; [done|]. intros s kind. split.
  - unfold toKind. destruct (kinds !! s) as [k|] eqn:Hk; [|done].
    intros [= ->]. apply elem_of_list_to_map_2 in Hk.
    unfold kinds_entries in Hk.
    repeat (apply elem_of_cons in Hk as [[= -> ->]|Hk];
            [vm_compute; reflexivity|]).
    by apply elem_of_nil in Hk.
  - intros Hs. destruct (Hall kind) as (s' & Hs' & Hk).
    rewrite Hs in Hs'. by injection Hs' as ->.
Qed.

(** ** The dependency scanner *)

Lemma dependencies_added_refl (cs : gmap cid Component.t) :
  dependencies_added cs cs.
Proof. by split. Qed.

Lemma dependencies_added_trans (cs1 cs2 cs3 : gmap cid Component.t) :
  dependencies_added cs1 cs2 -> dependencies_added cs2 cs3 ->
  dependencies_added cs1 cs3.
Proof.
  intros [H1 H2] [H3 H4]. split; [congruence|]. auto.
Qed.

Lemma addDependency_Ok (cs cs' : gmap cid Component.t) (src dst : cid) :
  addDependency cs src dst = Some (Ok cs') ->
  dependencies_added cs cs' /\ (acyclic cs -> acyclic cs').
Proof.
  intros Hadd. split; [|intros Hacyclic; by eapply addDependency_acyclic].
  unfold addDependency in Hadd.
  case_decide as Hne; [done|].
  destruct (addDependenciesRecursively _ _ _ _) as [deps|]; simpl in Hadd;
    [|done].
  case_decide as Hin; [done|].
  destruct (cs !! src) as [c|] eqn:Hc; simpl in Hadd; [|done].
  destruct (existsb _ _); injection Hadd as <-;
    [apply dependencies_added_refl|].
  split.
  - rewrite fmap_insert. apply map_eq. intros i.
    destruct (decide (i = src)) as [->|Hi].
    + by rewrite lookup_insert_eq, lookup_fmap, Hc.
    + by rewrite lookup_insert_ne.
  - intros x y Hxy. apply (edge_with_dependsOn _ _ _ _ _ _ Hc). by left.
Qed.

(** What the loops and the walks keep, if each call of the body does. *)
Section walks.
Context {S : Type} (R : S -> S -> Prop).
Hypothesis R_refl : forall st, R st st.
Hypothesis R_trans : forall st1 st2 st3, R st1 st2 -> R st2 st3 -> R st1 st3.

Lemma run_foldl_keeps {A : Type} (f : S -> A -> option (result S))
    (l : list A) :
  (forall st a st', a ∈ l -> f st a = Some (Ok st') -> R st st') ->
  forall st st', run_foldl f st l = Some (Ok st') -> R st st'.
Proof.
  induction l as [|a l IH]; intros Hf st st'; simpl.
  { by intros [= <-]. }
  destruct (f st a) as [[st1|e]|] eqn:Ha; simpl; [|done..].
  intros Hrest. apply (R_trans _ st1).
  - by apply (Hf st a st1 (list_elem_of_here _ _)).
  - apply IH; [|done]. intros st2 b st3 Hb. apply Hf.
    by apply list_elem_of_further.
Qed.

Lemma walkAndExecuteFn_keeps (store : S -> gmap cid Component.t)
    (fn : S -> cid -> option (result S)) (fuel : nat) :
  (forall st c st', fn st c = Some (Ok st') -> R st st') ->
  forall st this st',
    walkAndExecuteFn store fuel fn st this = Some (Ok st') -> R st st'.
Proof.
  intros Hfn. induction fuel as [|fuel IH]; intros st this st'; [done|].
  simpl. destruct (fn st this) as [[st1|e]|] eqn:Hthis; simpl; [|done..].
  intros Hwalk. apply (R_trans _ st1); [by eapply Hfn|].
  destruct (store st1 !! this) as [c|]; [|by injection Hwalk as <-].
  apply (run_foldl_keeps _ _ (fun st a st' _ => IH st a st') _ _ Hwalk).
Qed.

Lemma forAllComponents_keeps (store : S -> gmap cid Component.t)
    (fn : S -> cid -> option (result S)) (fuel : nat) :
  (forall st c st', fn st c = Some (Ok st') -> R st st') ->
  forall st this st',
    forAllComponents store fuel fn st this = Some (Ok st') -> R st st'.
Proof.
  intros Hfn st this st'. unfold forAllComponents.
  destruct (getRoot (store st) this) as [root|]; [|done].
  by apply walkAndExecuteFn_keeps.
Qed.
End walks.

Lemma scanned_refl (cs : gmap cid Component.t) : scanned cs cs.
Proof. split; [apply dependencies_added_refl|done]. Qed.

Lemma scanned_trans (cs1 cs2 cs3 : gmap cid Component.t) :
  scanned cs1 cs2 -> scanned cs2 cs3 -> scanned cs1 cs3.
Proof.
  intros [H1 H2] [H3 H4]. split; [by eapply dependencies_added_trans|auto].
Qed.

Section scanner_keeps.
Variable getNamespace : cid -> string.
Variable namespace_metadata_name : cid -> string.
Variable depends : cid -> list string.

Lemma scanDependencies_scanned (depth fuel : nat) :
  forall cs this cs',
    scanDependencies getNamespace namespace_metadata_name depends
      depth fuel cs this = Some (Ok cs') ->
    scanned cs cs'.
Proof.
  induction fuel as [|fuel IH]; intros cs this cs'; [done|].
  simpl. destruct (cs !! this) as [c|] eqn:Hc;
    [|intros [= <-]; apply scanned_refl].
  set (reverse := match Component.mode_ c with
                  | Mode.REMOVE => true
                  | Mode.CREATE => false
                  end).
  match goal with
  | |- run_bind ?first _ = _ -> _ =>
      destruct first as [[cs1|e]|] eqn:Hfirst; simpl; [|done..]
  end.
  match goal with
  | |- run_bind ?second _ = _ -> _ =>
      destruct second as [[cs2|e]|] eqn:Hsecond; simpl; [|done..]
  end.
  intros Hchildren.
  apply (scanned_trans _ cs1); [|apply (scanned_trans _ cs2)].
  - destruct (isRoot cs this); [|injection Hfirst as <-; apply scanned_refl].
    destruct (forAllComponents fst depth _ _ _) as [[st|e]|]; simpl in Hfirst;
      [|done..].
    destruct (negb (bool_decide (st.2 = ∅)));
      [|injection Hfirst as <-; apply scanned_refl].
    apply (forAllComponents_keeps scanned scanned_refl scanned_trans
             _ _ _ ) in Hfirst; [done|].
    intros st0 c0 st1. unfold scanDependencies_namespace.
    destruct (negb _); [|intros [= <-]; apply scanned_refl].
    destruct (st.2 !! getNamespace c0) as [it|];
      [|intros [= <-]; apply scanned_refl].
    destruct reverse; apply addDependency_Ok.
  - apply (run_foldl_keeps scanned scanned_refl scanned_trans _ _)
      in Hsecond; [done|].
    intros st0 depName st1 _.
    apply (forAllComponents_keeps scanned scanned_refl scanned_trans).
    intros st2 c0 st3. unfold scanDependencies_named.
    destruct (st2 !! c0) as [comp|]; [|intros [= <-]; apply scanned_refl].
    destruct (String.eqb depName (Component.name comp));
      [|intros [= <-]; apply scanned_refl].
    destruct reverse; apply addDependency_Ok.
  - apply (run_foldl_keeps scanned scanned_refl scanned_trans _ _)
      in Hchildren; [done|].
    intros st0 child st1 _. apply IH.
Qed.
End scanner_keeps.

(** X25. Whenever [scanDependencies] returns, it has added dependencies
    and changed nothing else: every component is as it was but for its
    [dependsOn_], every dependency that was there still is, and if the
    dependencies held no cycle before they hold none after. *)
Theorem scanDependencies_keeps_acyclic (getNamespace : cid -> string)
    (namespace_metadata_name : cid -> string) (depends : cid -> list string)
    (depth fuel : nat) (cs cs' : gmap cid Component.t) (this : cid) :
  scanDependencies getNamespace namespace_metadata_name depends
    depth fuel cs this = Some (Ok cs') ->
  dependencies_added cs cs' /\ (acyclic cs -> acyclic cs').
Proof. apply scanDependencies_scanned. Qed.

Lemma scanDependencies_keeps_acyclic_witness :
  exists cs',
    scanDependencies (fun _ => EmptyString) (fun _ => EmptyString)
      (fun c => if Nat.eqb c 2 then ["a"] else []) 3 3 sibling_tree 0
    = Some (Ok cs')
    /\ dependencies_added sibling_tree cs'
    /\ (acyclic sibling_tree -> acyclic cs').
Proof.
  eexists. split; [vm_compute; reflexivity|].
  apply (scanDependencies_keeps_acyclic (fun _ => EmptyString)
           (fun _ => EmptyString) (fun c => if Nat.eqb c 2 then ["a"] else [])
           3 3 sibling_tree _ 0).
  vm_compute. reflexivity.
Defined.

(** *** The walks visit every component, and return *)

Lemma same_shape_refl (cs : gmap cid Component.t) : same_shape cs cs.
Proof. done. Qed.

Lemma same_shape_trans (cs1 cs2 cs3 : gmap cid Component.t) :
  same_shape cs1 cs2 -> same_shape cs2 cs3 -> same_shape cs1 cs3.
Proof. unfold same_shape. congruence. Qed.

Lemma same_shape_sym (cs1 cs2 : gmap cid Component.t) :
  same_shape cs1 cs2 -> same_shape cs2 cs1.
Proof. unfold same_shape. congruence. Qed.

Lemma same_shape_lookup (cs cs' : gmap cid Component.t) (x : cid) c :
  same_shape cs cs' -> cs !! x = Some c ->
  exists c', cs' !! x = Some c'
             /\ Component.with_dependsOn_ [] c' = Component.with_dependsOn_ [] c.
Proof.
  intros Hshape Hc.
  assert (H : (Component.with_dependsOn_ [] <$> cs') !! x
              = (Component.with_dependsOn_ [] <$> cs) !! x) by by rewrite Hshape.
  rewrite !lookup_fmap, Hc in H.
  destruct (cs' !! x) as [c'|]; simpl in H; [|done].
  exists c'. split; [done|]. congruence.
Qed.

Lemma same_shape_None (cs cs' : gmap cid Component.t) (x : cid) :
  same_shape cs cs' -> cs !! x = None -> cs' !! x = None.
Proof.
  intros Hshape Hc.
  assert (H : (Component.with_dependsOn_ [] <$> cs') !! x
              = (Component.with_dependsOn_ [] <$> cs) !! x) by by rewrite Hshape.
  rewrite !lookup_fmap, Hc in H.
  by destruct (cs' !! x).
Qed.

Lemma shape_fields (c c' : Component.t) :
  Component.with_dependsOn_ [] c' = Component.with_dependsOn_ [] c ->
  Component.children_ c' = Component.children_ c
  /\ Component.parent_ c' = Component.parent_ c
  /\ Component.name c' = Component.name c
  /\ Component.kind_ c' = Component.kind_ c
  /\ Component.mode_ c' = Component.mode_ c.
Proof. destruct c, c'. intros [=]. by subst. Qed.

Lemma same_shape_child (cs cs' : gmap cid Component.t) (x y : cid) :
  same_shape cs cs' -> child cs x y -> child cs' x y.
Proof.
  intros Hshape (c & Hc & Hy).
  destruct (same_shape_lookup _ _ _ _ Hshape Hc) as (c' & Hc' & Heq).
  exists c'. split; [done|]. by rewrite (proj1 (shape_fields _ _ Heq)).
Qed.

Lemma same_shape_parentPtr (cs cs' : gmap cid Component.t) (x : cid) :
  same_shape cs cs' -> parentPtr cs' x = parentPtr cs x.
Proof.
  intros Hshape. unfold parentPtr.
  destruct (cs !! x) as [c|] eqn:Hc.
  - destruct (same_shape_lookup _ _ _ _ Hshape Hc) as (c' & -> & Heq).
    simpl. destruct (shape_fields _ _ Heq) as (_ & -> & _).
    destruct (Component.parent_ c) as [p|]; simpl; [|done].
    destruct (cs !! p) as [pc|] eqn:Hp.
    + by destruct (same_shape_lookup _ _ _ _ Hshape Hp) as (pc' & -> & _).
    + by rewrite (same_shape_None _ _ _ Hshape Hp).
  - by rewrite (same_shape_None _ _ _ Hshape Hc).
Qed.

Lemma same_shape_size (cs cs' : gmap cid Component.t) :
  same_shape cs cs' -> size cs' = size cs.
Proof.
  intros Hshape.
  rewrite <- (map_size_fmap (Component.with_dependsOn_ []) cs').
  rewrite <- (map_size_fmap (Component.with_dependsOn_ []) cs).
  by rewrite Hshape.
Qed.

Lemma same_shape_getRoot (cs cs' : gmap cid Component.t) (x : cid) :
  same_shape cs cs' -> getRoot cs' x = getRoot cs x.
Proof.
  intros Hshape. unfold getRoot. rewrite (same_shape_size _ _ Hshape).
  generalize (S (size cs)). intros fuel. revert x.
  induction fuel as [|fuel IH]; intros x; [done|].
  simpl. rewrite (same_shape_parentPtr _ _ _ Hshape).
  destruct (parentPtr cs x); [apply IH|done].
Qed.

Section walks_reach.
Context {S : Type} (store : S -> gmap cid Component.t).
Context (fn : S -> cid -> option (result S)).
Context (cs0 : gmap cid Component.t) (P : cid -> Prop) (R : S -> S -> Prop).
Hypothesis R_refl : forall st, R st st.
Hypothesis R_trans : forall st1 st2 st3, R st1 st2 -> R st2 st3 -> R st1 st3.
Hypothesis R_shape : forall st st', R st st' -> same_shape (store st) (store st').
Hypothesis P_child : forall x y, P x -> child cs0 x y -> P y.
Hypothesis fn_R :
  forall st c st',
    same_shape cs0 (store st) -> P c -> fn st c = Some (Ok st') -> R st st'.

Lemma run_foldl_visits {A : Type} (g : S -> A -> option (result S))
    (l : list A) :
  (forall st a st', same_shape cs0 (store st) -> a ∈ l ->
     g st a = Some (Ok st') -> R st st') ->
  forall st st',
    same_shape cs0 (store st) ->
    run_foldl g st l = Some (Ok st') ->
    R st st'
    /\ forall a, a ∈ l ->
         exists sta stb,
           R st sta /\ g sta a = Some (Ok stb) /\ R stb st'.
Proof.
  induction l as [|a l IH]; intros Hg st st' Hst; simpl.
  { intros [= <-]. split; [done|]. intros a Ha. by apply elem_of_nil in Ha. }
  destruct (g st a) as [[st1|e]|] eqn:Ha; simpl; [|done..].
  intros Hrest.
  pose proof (Hg st a st1 Hst (list_elem_of_here _ _) Ha) as Hstep.
  assert (Hst1 : same_shape cs0 (store st1)).
  { eapply same_shape_trans; [exact Hst|by apply R_shape]. }
  destruct (IH (fun st2 b st3 Hs Hb => Hg st2 b st3 Hs
                                        (list_elem_of_further _ _ _ Hb))
              st1 st' Hst1 Hrest) as [Hall Heach].
  split; [by eapply R_trans|].
  intros b [->|Hb]%elem_of_cons.
  - exists st, st1. by split; [|split].
  - destruct (Heach b Hb) as (sta & stb & H1 & H2 & H3).
    exists sta, stb. split; [by eapply R_trans|]. done.
Qed.

Lemma walkAndExecuteFn_visits (fuel : nat) :
  forall st this st',
    same_shape cs0 (store st) -> P this ->
    walkAndExecuteFn store fuel fn st this = Some (Ok st') ->
    R st st'
    /\ forall c, rtc (child cs0) this c ->
         exists st1 st2,
           R st st1 /\ fn st1 c = Some (Ok st2) /\ R st2 st'.
Proof.
  induction fuel as [|fuel IH]; intros st this st' Hst Hthis; [done|].
  simpl. destruct (fn st this) as [[st1|e]|] eqn:Hfn; simpl; [|done..].
  pose proof (fn_R _ _ _ Hst Hthis Hfn) as Hstep.
  assert (Hst1 : same_shape cs0 (store st1)).
  { eapply same_shape_trans; [exact Hst|by apply R_shape]. }
  destruct (store st1 !! this) as [c1|] eqn:Hc1.
  - intros Hwalk.
    assert (Hchildren : forall y, y ∈ Component.children_ c1 <-> child cs0 this y).
    { intros y. split.
      - intros Hy. apply (same_shape_child (store st1)).
        + by apply same_shape_sym.
        + by exists c1.
      - intros Hy. apply (same_shape_child _ _ _ _ Hst1) in Hy
          as (c' & Hc' & Hy).
        by assert (c' = c1) as <- by congruence. }
    destruct (run_foldl_visits (walkAndExecuteFn store fuel fn)
                (Component.children_ c1)
                (fun st2 y st3 Hs Hy Hw =>
                   proj1 (IH st2 y st3 Hs
                            (P_child _ _ Hthis (proj1 (Hchildren y) Hy)) Hw))
                st1 st' Hst1 Hwalk) as [Hall Heach].
    split; [by eapply R_trans|].
    intros c Hc. apply rtc_inv in Hc as [->|(y & Hy & Hc)].
    + exists st, st1. by split; [|split].
    + destruct (Heach y (proj2 (Hchildren y) Hy)) as (sta & stb & H1 & H2 & H3).
      assert (Hsta : same_shape cs0 (store sta)).
      { eapply same_shape_trans; [exact Hst1|by apply R_shape]. }
      destruct (IH sta y stb Hsta (P_child _ _ Hthis Hy) H2)
        as [_ Hvisit].
      destruct (Hvisit c Hc) as (st2 & st3 & H4 & H5 & H6).
      exists st2, st3. split; [|split; [done|]].
      * eapply R_trans; [exact Hstep|]. by eapply R_trans.
      * by eapply R_trans.
  - intros [= <-]. split; [done|].
    intros c Hc. apply rtc_inv in Hc as [->|(y & (c0 & Hc0 & _) & _)].
    + exists st, st1. by split; [|split].
    + destruct (same_shape_lookup _ _ _ _ Hst1 Hc0) as (c' & Hc' & _).
      congruence.
Qed.
End walks_reach.

Lemma run_bind_is_Some {A B : Type} (r : option (result A))
    (f : A -> option (result B)) :
  is_Some r -> (forall a, r = Some (Ok a) -> is_Some (f a)) ->
  is_Some (run_bind r f).
Proof.
  intros [[a|e] ->] Hf; simpl; [by apply Hf|by eexists].
Qed.

Section walks_return.
Context {S : Type} (store : S -> gmap cid Component.t).
Context (fn : S -> cid -> option (result S)).
Context (cs0 : gmap cid Component.t) (height : cid -> nat).
Hypothesis Hwf : children_wf height cs0.
Hypothesis fn_shape :
  forall st c st',
    same_shape cs0 (store st) -> fn st c = Some (Ok st') ->
    same_shape (store st) (store st').
Hypothesis fn_total :
  forall st c,
    same_shape cs0 (store st) -> is_Some (cs0 !! c) -> is_Some (fn st c).

Lemma run_foldl_returns (g : S -> cid -> option (result S)) (l : list cid) :
  (forall st a, same_shape cs0 (store st) -> a ∈ l -> is_Some (g st a)) ->
  (forall st a st', same_shape cs0 (store st) -> a ∈ l ->
     g st a = Some (Ok st') -> same_shape (store st) (store st')) ->
  forall st, same_shape cs0 (store st) -> is_Some (run_foldl g st l).
Proof.
  induction l as [|a l IH]; intros Hg Hshape st Hst; [by eexists|].
  simpl. apply run_bind_is_Some.
  - apply Hg; [done|apply list_elem_of_here].
  - intros st1 Ha. apply IH.
    + intros st2 b Hs Hb. apply Hg; [done|by apply list_elem_of_further].
    + intros st2 b st3 Hs Hb. apply Hshape; [done|].
      by apply list_elem_of_further.
    + eapply same_shape_trans; [exact Hst|].
      eapply Hshape; [done|apply list_elem_of_here|done].
Qed.

Lemma walkAndExecuteFn_shape (fuel : nat) (st : S) (this : cid) (st' : S) :
  same_shape cs0 (store st) ->
  walkAndExecuteFn store fuel fn st this = Some (Ok st') ->
  same_shape (store st) (store st').
Proof.
  intros Hst Hwalk.
  apply (walkAndExecuteFn_visits store fn cs0 (fun _ => True)
           (fun st st' => same_shape (store st) (store st'))
           (fun st => same_shape_refl _)
           (fun st1 st2 st3 => same_shape_trans _ _ _)
           (fun st st' H => H) (fun _ _ _ _ => I)
           (fun st c st' Hs _ => fn_shape st c st' Hs)
           fuel st this st' Hst I Hwalk).
Qed.

Lemma walkAndExecuteFn_returns (fuel : nat) :
  forall st this,
    same_shape cs0 (store st) -> is_Some (cs0 !! this) ->
    height this < fuel ->
    is_Some (walkAndExecuteFn store fuel fn st this).
Proof.
  induction fuel as [|fuel IH]; intros st this Hst Hthis Hfuel; [lia|].
  simpl. apply run_bind_is_Some; [by apply fn_total|].
  intros st1 Hfn.
  assert (Hst1 : same_shape cs0 (store st1)).
  { eapply same_shape_trans; [exact Hst|by eapply fn_shape]. }
  destruct (store st1 !! this) as [c1|] eqn:Hc1; [|by eexists].
  assert (Hchildren : forall y, y ∈ Component.children_ c1 -> child cs0 this y).
  { intros y Hy. apply (same_shape_child (store st1)).
    - by apply same_shape_sym.
    - by exists c1. }
  apply run_foldl_returns; [| |done].
  - intros st2 y Hs Hy. destruct (Hwf this y (Hchildren y Hy)) as [Hlive Hlt].
    apply IH; [done|done|lia].
  - intros st2 y st3 Hs Hy. by apply walkAndExecuteFn_shape.
Qed.
End walks_return.

Lemma addDependency_total (cs : gmap cid Component.t) (src dst : cid) :
  is_Some (cs !! src) -> is_Some (addDependency cs src dst).
Proof.
  intros [c Hc]. unfold addDependency.
  case_decide; [by eexists|].
  destruct (addDependenciesRecursively_closure cs dst) as (deps & -> & _).
  simpl. case_decide; [by eexists|].
  rewrite Hc. simpl. destruct (existsb _ _); by eexists.
Qed.

Lemma addDependency_same_shape (cs cs' : gmap cid Component.t) (src dst : cid) :
  addDependency cs src dst = Some (Ok cs') -> same_shape cs cs'.
Proof. intros H. by destruct (addDependency_Ok _ _ _ _ H) as [[? _] _]. Qed.

Lemma getRoot_own (cs : gmap cid Component.t) (this : cid) :
  parentPtr cs this = None -> getRoot cs this = Some this.
Proof. intros H. unfold getRoot. simpl. by rewrite H. Qed.

Section scanner_returns.
Variable getNamespace : cid -> string.
Variable namespace_metadata_name : cid -> string.
Variable depends : cid -> list string.
Variable cs0 : gmap cid Component.t.
Variables (level height : cid -> nat) (depth : nat).
Hypothesis Htree : tree_wf level cs0.
Hypothesis Hwf : children_wf height cs0.
Hypothesis Hdepth : forall x, is_Some (cs0 !! x) -> height x < depth.

Lemma same_shape_live (cs : gmap cid Component.t) (x : cid) :
  same_shape cs0 cs -> is_Some (cs0 !! x) -> is_Some (cs !! x).
Proof.
  intros Hshape [c Hc].
  destruct (same_shape_lookup _ _ _ _ Hshape Hc) as (c' & Hc' & _).
  by eexists.
Qed.

Lemma forAllComponents_returns {S : Type}
    (store : S -> gmap cid Component.t)
    (fn : S -> cid -> option (result S)) (st : S) (this : cid) :
  (forall st c st', same_shape cs0 (store st) -> fn st c = Some (Ok st') ->
     same_shape (store st) (store st')) ->
  (forall st c, same_shape cs0 (store st) -> is_Some (cs0 !! c) ->
     is_Some (fn st c)) ->
  same_shape cs0 (store st) -> is_Some (cs0 !! this) ->
  is_Some (forAllComponents store depth fn st this).
Proof.
  intros Hshape Htotal Hst Hthis. unfold forAllComponents.
  rewrite (same_shape_getRoot _ _ _ Hst).
  destruct (getRoot_live level cs0 this Htree Hthis) as (root & -> & Hroot).
  apply (walkAndExecuteFn_returns store fn cs0 height); auto.
Qed.

Lemma scanDependencies_collect_step
    (st : gmap cid Component.t * gmap string cid) (c : cid)
    (st' : gmap cid Component.t * gmap string cid) :
  scanDependencies_collect namespace_metadata_name st c = Some (Ok st') ->
  st'.1 = st.1
  /\ forall k v, st'.2 !! k = Some v ->
       st.2 !! k = Some v
       \/ (v = c /\ k = namespace_metadata_name c
           /\ exists comp, st.1 !! c = Some comp
                           /\ Component.kind_ comp = Kind.NAMESPACE).
Proof.
  unfold scanDependencies_collect.
  destruct (st.1 !! c) as [comp|] eqn:Hc; [|intros [= <-]; by split; [|left]].
  case_bool_decide as Hkind; intros [= <-]; simpl; [|by split; [|left]].
  split; [done|]. intros k v.
  destruct (decide (k = namespace_metadata_name c)) as [->|Hk].
  - rewrite lookup_insert_eq. intros [= <-]. right. by eauto.
  - rewrite lookup_insert_ne by done. by left.
Qed.

Lemma scanDependencies_namespace_step (nsComponents : gmap string cid)
    (reverse : bool) (cs : gmap cid Component.t) (c : cid)
    (cs' : gmap cid Component.t) :
  scanDependencies_namespace getNamespace nsComponents reverse cs c
  = Some (Ok cs') ->
  scanned cs cs'.
Proof.
  unfold scanDependencies_namespace.
  destruct (negb _); [|intros [= <-]; apply scanned_refl].
  destruct (nsComponents !! getNamespace c) as [it|];
    [|intros [= <-]; apply scanned_refl].
  destruct reverse; apply addDependency_Ok.
Qed.

Lemma scanDependencies_named_step (this : cid) (depName : string)
    (reverse : bool) (cs : gmap cid Component.t) (c : cid)
    (cs' : gmap cid Component.t) :
  scanDependencies_named this depName reverse cs c = Some (Ok cs') ->
  scanned cs cs'.
Proof.
  unfold scanDependencies_named.
  destruct (cs !! c) as [comp|]; [|intros [= <-]; apply scanned_refl].
  destruct (String.eqb depName (Component.name comp));
    [|intros [= <-]; apply scanned_refl].
  destruct reverse; apply addDependency_Ok.
Qed.

Lemma scanned_same_shape (cs cs' : gmap cid Component.t) :
  scanned cs cs' -> same_shape cs cs'.
Proof. by intros [[? _] _]. Qed.

Lemma scanDependencies_returns_from (fuel : nat) :
  forall cs this,
    same_shape cs0 cs -> is_Some (cs0 !! this) -> height this < fuel ->
    is_Some (scanDependencies getNamespace namespace_metadata_name depends
               depth fuel cs this).
Proof.
  induction fuel as [|fuel IH]; intros cs this Hcs Hthis Hfuel; [lia|].
  simpl. destruct (same_shape_live cs this Hcs Hthis) as [c Hc]. rewrite Hc.
  set (reverse := match Component.mode_ c with
                  | Mode.REMOVE => true
                  | Mode.CREATE => false
                  end).
  assert (Hnamed : forall (x : cid) depName st this',
            same_shape cs0 st -> is_Some (cs0 !! x) -> is_Some (cs0 !! this') ->
            is_Some (forAllComponents id depth
                       (scanDependencies_named x depName reverse) st this')).
  { intros x depName st this' Hst Hx Hthis'.
    apply forAllComponents_returns; [| |done|done].
    - intros st1 c1 st2 _ Hstep.
      by apply scanned_same_shape, (scanDependencies_named_step x depName reverse _ c1).
    - intros st1 c1 Hst1 Hc1. unfold scanDependencies_named.
      unfold id in Hst1.
      destruct (same_shape_live _ c1 Hst1 Hc1) as [comp ->].
      destruct (String.eqb _ _); [|by eexists].
      destruct reverse; apply addDependency_total;
        by apply same_shape_live. }
  apply run_bind_is_Some.
  - destruct (isRoot cs this); [|by eexists].
    apply run_bind_is_Some.
    + apply forAllComponents_returns; [| |done|done].
      * intros st c1 st' _ Hstep.
        apply scanDependencies_collect_step in Hstep as [-> _]. done.
      * intros st c1 _ _. unfold scanDependencies_collect.
        destruct (st.1 !! c1); [case_bool_decide|]; by eexists.
    + intros st Hcollect.
      destruct (negb (bool_decide (st.2 = ∅))); [|by eexists].
      assert (Hlive : forall k v, st.2 !! k = Some v -> is_Some (cs !! v)).
      { unfold forAllComponents in Hcollect.
        destruct (getRoot _ _) as [root|]; [|done].
        apply (walkAndExecuteFn_keeps
                 (fun s s' : gmap cid Component.t * gmap string cid =>
                    s'.1 = s.1
                    /\ forall k v, s'.2 !! k = Some v ->
                         s.2 !! k = Some v \/ is_Some (s.1 !! v)))
          in Hcollect.
        - destruct Hcollect as [Hst Hvals]. intros k v Hv.
          destruct (Hvals k v Hv) as [H|H]; [done|exact H].
        - intros s. split; [done|]. by left.
        - intros s1 s2 s3 [E1 H1] [E2 H2]. split; [congruence|].
          intros k v Hv. destruct (H2 k v Hv) as [H|H].
          + destruct (H1 k v H) as [H'|H']; [by left|by right].
          + right. by rewrite <- E1.
        - intros s c1 s' Hstep.
          apply scanDependencies_collect_step in Hstep as [E Hvals].
          split; [done|]. intros k v Hv.
          destruct (Hvals k v Hv) as [H|(-> & _ & comp & Hcomp & _)];
            [by left|right; by eexists]. }
      apply forAllComponents_returns; [| |done|done].
      * intros st1 c1 st2 _ Hstep.
        by apply scanned_same_shape,
                 (scanDependencies_namespace_step st.2 reverse _ c1).
      * intros st1 c1 Hst1 Hc1. unfold scanDependencies_namespace.
        destruct (negb _); [|by eexists].
        destruct (st.2 !! getNamespace c1) as [it|] eqn:Hit; [|by eexists].
        assert (is_Some (st1 !! it)).
        { destruct (Hlive _ _ Hit) as [comp Hcomp].
          assert (Hcs1 : same_shape cs st1).
          { eapply same_shape_trans; [by apply same_shape_sym|done]. }
          destruct (same_shape_lookup _ _ _ _ Hcs1 Hcomp) as (? & ? & _).
          by eexists. }
        destruct reverse; apply addDependency_total;
          [done|by apply same_shape_live].
  - intros cs1 Hfirst.
    assert (Hcs1 : same_shape cs0 cs1).
    { eapply same_shape_trans; [exact Hcs|]. apply scanned_same_shape.
      destruct (isRoot cs this); [|injection Hfirst as <-; apply scanned_refl].
      destruct (forAllComponents fst depth _ _ _) as [[st|e]|];
        simpl in Hfirst; [|done..].
      destruct (negb (bool_decide (st.2 = ∅)));
        [|injection Hfirst as <-; apply scanned_refl].
      apply (forAllComponents_keeps scanned scanned_refl scanned_trans)
        in Hfirst; [done|].
      intros st0 c1 st1. apply scanDependencies_namespace_step. }
    apply run_bind_is_Some.
    + clear Hfirst. revert cs1 Hcs1.
      induction (depends this) as [|depName l IHl]; intros cs1 Hcs1;
        [by eexists|].
      simpl. apply run_bind_is_Some; [by apply Hnamed|].
      intros cs2 Hstep. apply IHl.
      eapply same_shape_trans; [exact Hcs1|]. apply scanned_same_shape.
      apply (forAllComponents_keeps scanned scanned_refl scanned_trans)
        in Hstep; [done|].
      intros st0 c1 st1. apply scanDependencies_named_step.
    + intros cs2 Hsecond.
      assert (Hcs2 : same_shape cs0 cs2).
      { eapply same_shape_trans; [exact Hcs1|]. apply scanned_same_shape.
        apply (run_foldl_keeps scanned scanned_refl scanned_trans _ _)
          in Hsecond; [done|].
        intros st0 depName st1 _.
        apply (forAllComponents_keeps scanned scanned_refl scanned_trans).
        intros st2 c1 st3. apply scanDependencies_named_step. }
      assert (Hchildren : forall y, y ∈ Component.children_ c -> child cs0 this y).
      { intros y Hy. apply (same_shape_child cs).
        - by apply same_shape_sym.
        - by exists c. }
      apply (run_foldl_returns id cs0); [| |done].
      * intros st y Hst Hy.
        destruct (Hwf this y (Hchildren y Hy)) as [Hlive Hlt].
        apply IH; [done|done|lia].
      * intros st y st' Hst Hy Hscan.
        apply scanned_same_shape.
        by eapply (scanDependencies_scanned getNamespace
                     namespace_metadata_name depends depth fuel).
Qed.
End scanner_returns.

Lemma addDependency_edge (cs cs' : gmap cid Component.t) (src dst : cid) :
  addDependency cs src dst = Some (Ok cs') ->
  is_Some (cs !! dst) ->
  edge cs' src dst.
Proof.
  intros Hadd Hdst. unfold addDependency in Hadd.
  case_decide as Hne; [done|].
  destruct (addDependenciesRecursively _ _ _ _) as [deps|]; simpl in Hadd;
    [|done].
  case_decide as Hin; [done|].
  destruct (cs !! src) as [c|] eqn:Hc; simpl in Hadd; [|done].
  destruct (existsb _ _) eqn:Hex; injection Hadd as <-.
  - apply (existsb_dependsOn _ _ _ Hdst) in Hex. by exists c.
  - apply (edge_with_dependsOn _ _ _ _ _ _ Hc). right. done.
Qed.

Lemma scanned_edge (cs cs' : gmap cid Component.t) (x y : cid) :
  scanned cs cs' -> edge cs x y -> edge cs' x y.
Proof. intros [[_ H] _]. apply H. Qed.

Section scanner_visits.
Variable getNamespace : cid -> string.
Variable namespace_metadata_name : cid -> string.
Variable depends : cid -> list string.
Variable cs0 : gmap cid Component.t.
Variable depth : nat.

(** The scanner reaches every component below the one it starts from, and
    goes through the names of its [depends]. *)
Lemma scanDependencies_visits (fuel : nat) :
  forall cs this cs',
    same_shape cs0 cs ->
    scanDependencies getNamespace namespace_metadata_name depends
      depth fuel cs this = Some (Ok cs') ->
    forall x cx,
      rtc (child cs0) this x -> cs0 !! x = Some cx ->
      exists cs1 cs2,
        scanned cs cs1
        /\ run_foldl
             (fun cs depName =>
                forAllComponents id depth
                  (scanDependencies_named x depName (reverse_of cx)) cs x)
             cs1 (depends x) = Some (Ok cs2)
        /\ scanned cs2 cs'.
Proof.
  induction fuel as [|fuel IH]; intros cs this cs' Hcs; [done|].
  simpl. destruct (cs !! this) as [c|] eqn:Hc.
  - match goal with
    | |- run_bind ?first _ = _ -> _ =>
        destruct first as [[cs1|e]|] eqn:Hfirst; simpl; [|done..]
    end.
    match goal with
    | |- run_bind ?second _ = _ -> _ =>
        destruct second as [[cs2|e]|] eqn:Hsecond; simpl; [|done..]
    end.
    intros Hchildren x cx Hx Hcx.
    assert (H1 : scanned cs cs1).
    { destruct (isRoot cs this); [|injection Hfirst as <-; apply scanned_refl].
      destruct (forAllComponents fst depth _ _ _) as [[st|e]|];
        simpl in Hfirst; [|done..].
      destruct (negb (bool_decide (st.2 = ∅)));
        [|injection Hfirst as <-; apply scanned_refl].
      apply (forAllComponents_keeps scanned scanned_refl scanned_trans)
        in Hfirst; [done|].
      intros st0 c1 st1. apply scanDependencies_namespace_step. }
    assert (H2 : scanned cs1 cs2).
    { apply (run_foldl_keeps scanned scanned_refl scanned_trans _ _)
        in Hsecond; [done|].
      intros st0 depName st1 _.
      apply (forAllComponents_keeps scanned scanned_refl scanned_trans).
      intros st2 c1 st3. apply scanDependencies_named_step. }
    assert (Hcs2 : same_shape cs0 cs2).
    { eapply same_shape_trans; [exact Hcs|].
      eapply same_shape_trans; by apply scanned_same_shape. }
    destruct (run_foldl_visits (S := gmap cid Component.t) id cs0 scanned
                scanned_refl scanned_trans scanned_same_shape
                (scanDependencies getNamespace namespace_metadata_name depends
                   depth fuel)
                (Component.children_ c)
                (fun st y st' _ _ =>
                   scanDependencies_scanned getNamespace
                     namespace_metadata_name depends depth fuel st y st')
                cs2 cs' Hcs2 Hchildren) as [H3 Heach].
    apply rtc_inv in Hx as [<-|(y & Hy & Hx)].
    + destruct (same_shape_lookup _ _ _ _ Hcs Hcx) as (c' & Hc' & Heq).
      assert (c' = c) as -> by congruence.
      exists cs1, cs2. split; [done|]. split; [|done].
      unfold reverse_of. destruct (shape_fields _ _ Heq) as (_ & _ & _ & _ & <-).
      exact Hsecond.
    + assert (Hy' : y ∈ Component.children_ c).
      { apply (same_shape_child _ _ _ _ Hcs) in Hy as (c' & Hc' & Hy).
        by assert (c' = c) as <- by congruence. }
      destruct (Heach y Hy') as (sta & stb & H4 & H5 & H6).
      assert (Hsta : same_shape cs0 sta).
      { eapply same_shape_trans; [exact Hcs2|by apply scanned_same_shape]. }
      destruct (IH sta y stb Hsta H5 x cx Hx Hcx) as (s1 & s2 & H7 & H8 & H9).
      exists s1, s2. split; [|split; [done|]].
      * eapply scanned_trans; [exact H1|].
        eapply scanned_trans; [exact H2|].
        by eapply scanned_trans.
      * by eapply scanned_trans.
  - intros _ x cx Hx Hcx. exfalso.
    apply rtc_inv in Hx as [<-|(y & (c0 & Hc0 & _) & _)].
    + destruct (same_shape_lookup _ _ _ _ Hcs Hcx) as (c' & Hc' & _).
      congruence.
    + destruct (same_shape_lookup _ _ _ _ Hcs Hc0) as (c' & Hc' & _).
      congruence.
Qed.

(** A component that a name of [depends] matches has become a dependency
    when the loop over the names returns. *)
Lemma scanDependencies_named_edges (x : cid) (cx : Component.t)
    (root : cid) (l : list string) :
  getRoot cs0 x = Some root ->
  forall cs1 cs2,
    same_shape cs0 cs1 ->
    run_foldl
      (fun cs depName =>
         forAllComponents id depth
           (scanDependencies_named x depName (reverse_of cx)) cs x)
      cs1 l = Some (Ok cs2) ->
    scanned cs1 cs2
    /\ forall c comp,
         rtc (child cs0) root c -> cs0 !! c = Some comp ->
         Component.name comp ∈ l ->
         if reverse_of cx then edge cs2 c x else edge cs2 x c.
Proof.
  intros Hroot cs1 cs2 Hcs1 Hloop.
  assert (Hwalk : forall st depName st',
            forAllComponents id depth
              (scanDependencies_named x depName (reverse_of cx)) st x
            = Some (Ok st') -> scanned st st').
  { intros st depName st'.
    apply (forAllComponents_keeps scanned scanned_refl scanned_trans).
    intros st2 c1 st3. apply scanDependencies_named_step. }
  destruct (run_foldl_visits (S := gmap cid Component.t) id cs0 scanned
              scanned_refl scanned_trans scanned_same_shape _ l
              (fun st depName st' _ _ => Hwalk st depName st')
              cs1 cs2 Hcs1 Hloop) as [Hall Heach].
  split; [done|]. intros c comp Hc Hcomp Hname.
  destruct (Heach _ Hname) as (sta & stb & H1 & H2 & H3).
  assert (Hsta : same_shape cs0 sta).
  { eapply same_shape_trans; [exact Hcs1|by apply scanned_same_shape]. }
  unfold forAllComponents in H2. unfold id at 1 in H2.
  rewrite (same_shape_getRoot _ _ _ Hsta), Hroot in H2.
  destruct (walkAndExecuteFn_visits (S := gmap cid Component.t) id
              (scanDependencies_named x (Component.name comp) (reverse_of cx))
              cs0 (fun _ => True) scanned scanned_refl scanned_trans
              scanned_same_shape (fun _ _ _ _ => I)
              (fun st c1 st' _ _ =>
                 scanDependencies_named_step x _ _ st c1 st')
              depth sta root stb Hsta I H2) as [_ Hvisit].
  destruct (Hvisit c Hc) as (st1 & st2 & H4 & H5 & H6).
  assert (Hst1 : same_shape cs0 st1).
  { eapply same_shape_trans; [exact Hsta|by apply scanned_same_shape]. }
  destruct (same_shape_lookup _ _ _ _ Hst1 Hcomp) as (comp' & Hcomp' & Heq).
  unfold scanDependencies_named in H5. rewrite Hcomp' in H5.
  destruct (shape_fields _ _ Heq) as (_ & _ & Hn & _).
  rewrite Hn, String.eqb_refl in H5.
  assert (Hfinal : scanned st2 cs2).
  { eapply scanned_trans; [exact H6|exact H3]. }
  destruct (reverse_of cx).
  - apply (scanned_edge _ _ _ _ Hfinal).
    apply (addDependency_edge _ _ _ _ H5).
    (* [x] is alive: [getRoot] has found its root *)
    destruct (cs0 !! x) as [cx0|] eqn:Hx0.
    + destruct (same_shape_lookup _ _ _ _ Hst1 Hx0) as (? & ? & _).
      by eexists.
    + exfalso. unfold getRoot in Hroot. simpl in Hroot.
      unfold parentPtr in Hroot. rewrite Hx0 in Hroot. simpl in Hroot.
      injection Hroot as <-.
      apply rtc_inv in Hc as [<-|(y & (c0 & Hc0 & _) & _)]; congruence.
  - apply (scanned_edge _ _ _ _ Hfinal).
    apply (addDependency_edge _ _ _ _ H5). by eexists.
Qed.
End scanner_visits.

(** *** What the scanner adds, and when it throws *)

Lemma sibling_tree_wf : tree_wf (fun x => x) sibling_tree.
Proof.
  intros x c Hc. unfold sibling_tree in Hc.
  destruct x as [|[|[|x]]]; simplify_map_eq.
  - split.
    + intros p Hp. vm_compute in Hp. discriminate Hp.
    + intros ch Hch. simpl in Hch.
      repeat (apply elem_of_cons in Hch as [->|Hch]; [lia|]).
      by apply elem_of_nil in Hch.
  - split.
    + intros p Hp. vm_compute in Hp. injection Hp as <-. lia.
    + intros ch Hch. simpl in Hch.
      repeat (apply elem_of_cons in Hch as [->|Hch]; [lia|]).
      by apply elem_of_nil in Hch.
  - split.
    + intros p Hp. vm_compute in Hp. injection Hp as <-. lia.
    + intros ch Hch. simpl in Hch.
      repeat (apply elem_of_cons in Hch as [->|Hch]; [lia|]).
      by apply elem_of_nil in Hch.
Qed.

Lemma sibling_tree_children : children_wf (fun x => 3 - x) sibling_tree.
Proof.
  intros x y (c & Hc & Hy). unfold sibling_tree in Hc.
  destruct x as [|[|[|x]]]; simplify_map_eq; simpl in Hy;
    repeat (apply elem_of_cons in Hy as [->|Hy];
            [split; [by eexists|lia]|]);
    by apply elem_of_nil in Hy.
Qed.

Lemma sibling_tree_height (x : cid) :
  is_Some (sibling_tree !! x) -> 3 - x < 4.
Proof. lia. Qed.

(** X26. In a tree whose parent links follow a level and whose children
    are alive and lower than their parents, [scanDependencies] ends: within
    a depth above the height of the tree it returns or throws. *)
Theorem scanDependencies_ends (getNamespace : cid -> string)
    (namespace_metadata_name : cid -> string) (depends : cid -> list string)
    (level height : cid -> nat) (depth fuel : nat)
    (cs : gmap cid Component.t) (this : cid) :
  tree_wf level cs ->
  children_wf height cs ->
  (forall x, is_Some (cs !! x) -> height x < depth) ->
  is_Some (cs !! this) ->
  height this < fuel ->
  exists r,
    scanDependencies getNamespace namespace_metadata_name depends
      depth fuel cs this = Some r.
Proof.
  intros Htree Hwf Hdepth Hthis Hfuel.
  by apply (scanDependencies_returns_from getNamespace namespace_metadata_name
              depends cs level height depth Htree Hwf Hdepth fuel cs this
              (same_shape_refl cs)).
Qed.

Lemma scanDependencies_ends_witness :
  exists r,
    scanDependencies (fun _ => EmptyString) (fun _ => EmptyString)
      (fun c => if Nat.eqb c 2 then ["a"] else []) 4 4 sibling_tree 0
    = Some r.
Proof.
  apply (scanDependencies_ends _ _ _ (fun x => x) (fun x => 3 - x)).
  - exact sibling_tree_wf.
  - exact sibling_tree_children.
  - exact sibling_tree_height.
  - by eexists.
  - simpl. lia.
Defined.

(** The names of [depends] are resolved when the scanner returns. *)
Lemma scanDependencies_resolves (getNamespace : cid -> string)
    (namespace_metadata_name : cid -> string) (depends : cid -> list string)
    (depth fuel : nat) (cs cs' : gmap cid Component.t) (this : cid) :
  scanDependencies getNamespace namespace_metadata_name depends
    depth fuel cs this = Some (Ok cs') ->
  forall x cx root c comp,
    rtc (child cs) this x -> cs !! x = Some cx ->
    getRoot cs x = Some root ->
    rtc (child cs) root c -> cs !! c = Some comp ->
    Component.name comp ∈ depends x ->
    if reverse_of cx then edge cs' c x else edge cs' x c.
Proof.
  intros Hscan x cx root c comp Hx Hcx Hroot Hc Hcomp Hname.
  destruct (scanDependencies_visits getNamespace namespace_metadata_name
              depends cs depth fuel cs this cs' (same_shape_refl cs) Hscan
              x cx Hx Hcx) as (cs1 & cs2 & H1 & H2 & H3).
  destruct (scanDependencies_named_edges cs depth x cx root (depends x) Hroot
              cs1 cs2 (scanned_same_shape _ _ H1) H2) as [_ Hedges].
  specialize (Hedges c comp Hc Hcomp Hname).
  destruct (reverse_of cx); by apply (scanned_edge _ _ _ _ H3).
Qed.

(** X27. When [scanDependencies] returns, every name in the [depends] of a
    component below the one it started from has been resolved: each
    component of the tree with that name is a dependency of the component
    (CREATE), or has the component as a dependency (REMOVE). *)
Theorem scanDependencies_adds_named (getNamespace : cid -> string)
    (namespace_metadata_name : cid -> string) (depends : cid -> list string)
    (depth fuel : nat) (cs cs' : gmap cid Component.t) (this : cid)
    (x : cid) (cx : Component.t) (root c : cid) (comp : Component.t) :
  scanDependencies getNamespace namespace_metadata_name depends
    depth fuel cs this = Some (Ok cs') ->
  rtc (child cs) this x -> cs !! x = Some cx ->
  getRoot cs x = Some root ->
  rtc (child cs) root c -> cs !! c = Some comp ->
  Component.name comp ∈ depends x ->
  if reverse_of cx then edge cs' c x else edge cs' x c.
Proof. intros Hscan. by apply (scanDependencies_resolves _ _ _ _ _ _ _ _ Hscan). Qed.

Lemma sibling_tree_child_1 : rtc (child sibling_tree) 0 1.
Proof.
  apply rtc_once. eexists. split; [reflexivity|]. set_solver.
Qed.

Lemma sibling_tree_child_2 : rtc (child sibling_tree) 0 2.
Proof.
  apply rtc_once. eexists. split; [reflexivity|]. set_solver.
Qed.

Lemma scanDependencies_adds_named_witness :
  exists cs',
    scanDependencies (fun _ => EmptyString) (fun _ => EmptyString)
      (fun c => if Nat.eqb c 2 then ["a"] else []) 4 4 sibling_tree 0
    = Some (Ok cs')
    /\ edge cs' 2 1.
Proof.
  eexists. split; [vm_compute; reflexivity|].
  apply (scanDependencies_adds_named (fun _ => EmptyString)
           (fun _ => EmptyString) (fun c => if Nat.eqb c 2 then ["a"] else [])
           4 4 sibling_tree _ 0 2
           (plain_component "b" Kind.DEPLOYMENT (Some 0) [] ∅ ∅) 0 1
           (plain_component "a" Kind.DEPLOYMENT (Some 0) [] ∅ ∅)).
  - vm_compute. reflexivity.
  - exact sibling_tree_child_2.
  - reflexivity.
  - reflexivity.
  - exact sibling_tree_child_1.
  - reflexivity.
  - set_solver.
Defined.

Lemma child_live (cs : gmap cid Component.t) (x y : cid) :
  rtc (child cs) x y -> is_Some (cs !! y) -> is_Some (cs !! x).
Proof.
  intros Hxy Hy. apply rtc_inv in Hxy as [->|(z & Hz & _)]; [done|].
  destruct Hz as (c & Hc & _). by eexists.
Qed.

Lemma sibling_tree_acyclic : acyclic sibling_tree.
Proof.
  intros x Hx. apply tc_first in Hx as (y & Hxy & _).
  destruct Hxy as (c & Hc & Hy & _).
  unfold sibling_tree in Hc.
  destruct x as [|[|[|x]]]; simplify_map_eq; simpl in Hy;
    by apply elem_of_nil in Hy.
Qed.

(** X28. Two components of one tree and one mode that name each other in
    [depends] cannot both be resolved: [scanDependencies] from a component
    above both throws. *)
Theorem scanDependencies_mutual_depends_throws (getNamespace : cid -> string)
    (namespace_metadata_name : cid -> string) (depends : cid -> list string)
    (level height : cid -> nat) (depth fuel : nat)
    (cs : gmap cid Component.t) (this root a b : cid)
    (ca cb : Component.t) :
  tree_wf level cs ->
  children_wf height cs ->
  (forall x, is_Some (cs !! x) -> height x < depth) ->
  height this < fuel ->
  acyclic cs ->
  rtc (child cs) this a -> rtc (child cs) this b ->
  cs !! a = Some ca -> cs !! b = Some cb ->
  getRoot cs a = Some root -> getRoot cs b = Some root ->
  rtc (child cs) root a -> rtc (child cs) root b ->
  Component.name cb ∈ depends a -> Component.name ca ∈ depends b ->
  Component.mode_ ca = Component.mode_ cb ->
  exists e,
    scanDependencies getNamespace namespace_metadata_name depends
      depth fuel cs this = Some (Throw e).
Proof.
  intros Htree Hwf Hdepth Hfuel Hacyclic Ha Hb Hca Hcb Hra Hrb Hroota Hrootb
    Hab Hba Hmode.
  assert (Hthis : is_Some (cs !! this)) by by eapply child_live.
  destruct (scanDependencies_returns_from getNamespace namespace_metadata_name
              depends cs level height depth Htree Hwf Hdepth fuel cs this
              (same_shape_refl cs) Hthis Hfuel) as [[cs'|e] Hscan];
    [exfalso|by exists e].
  pose proof (scanDependencies_resolves _ _ _ _ _ _ _ _ Hscan
                a ca root b cb Ha Hca Hra Hrootb Hcb Hab) as Hedge1.
  pose proof (scanDependencies_resolves _ _ _ _ _ _ _ _ Hscan
                b cb root a ca Hb Hcb Hrb Hroota Hca Hba) as Hedge2.
  destruct (scanDependencies_scanned _ _ _ _ _ _ _ _ Hscan) as [_ Hkeeps].
  assert (Hrev : reverse_of ca = reverse_of cb)
    by (unfold reverse_of; by rewrite Hmode).
  rewrite Hrev in Hedge1.
  apply (Hkeeps Hacyclic a).
  destruct (reverse_of cb).
  - eapply tc_l; [exact Hedge2|]. by apply tc_once.
  - eapply tc_l; [exact Hedge1|]. by apply tc_once.
Qed.

Lemma scanDependencies_mutual_depends_throws_witness :
  exists e,
    scanDependencies (fun _ => EmptyString) (fun _ => EmptyString)
      (fun c => if Nat.eqb c 1 then ["b"]
                else if Nat.eqb c 2 then ["a"] else [])
      4 4 sibling_tree 0
    = Some (Throw e).
Proof.
  apply (scanDependencies_mutual_depends_throws _ _ _ (fun x => x)
           (fun x => 3 - x) 4 4 sibling_tree 0 0 1 2
           (plain_component "a" Kind.DEPLOYMENT (Some 0) [] ∅ ∅)
           (plain_component "b" Kind.DEPLOYMENT (Some 0) [] ∅ ∅)).
  - exact sibling_tree_wf.
  - exact sibling_tree_children.
  - exact sibling_tree_height.
  - simpl. lia.
  - exact sibling_tree_acyclic.
  - exact sibling_tree_child_1.
  - exact sibling_tree_child_2.
  - reflexivity.
  - reflexivity.
  - reflexivity.
  - reflexivity.
  - exact sibling_tree_child_1.
  - exact sibling_tree_child_2.
  - simpl. set_solver.
  - simpl. set_solver.
  - reflexivity.
Defined.

(** *** A Namespace component in its own namespace *)

Lemma collected_refl (namespace_metadata_name : cid -> string)
    (cs : gmap cid Component.t) (root : cid) st :
  collected namespace_metadata_name cs root st st.
Proof. split; [done|]. split; [done|]. intros k v Hv. by left. Qed.

Lemma collected_trans (namespace_metadata_name : cid -> string)
    (cs : gmap cid Component.t) (root : cid) st1 st2 st3 :
  collected namespace_metadata_name cs root st1 st2 ->
  collected namespace_metadata_name cs root st2 st3 ->
  collected namespace_metadata_name cs root st1 st3.
Proof.
  intros (Hs1 & Hk1 & He1) (Hs2 & Hk2 & He2).
  split; [congruence|]. split; [by auto|].
  intros k v Hv. destruct (He2 k v Hv) as [Hv2|Hgood]; [by auto|by right].
Qed.

Lemma scanDependencies_collect_collected
    (namespace_metadata_name : cid -> string)
    (cs : gmap cid Component.t) (root : cid)
    (st : gmap cid Component.t * gmap string cid) (c : cid)
    (st' : gmap cid Component.t * gmap string cid) :
  same_shape cs st.1 -> rtc (child cs) root c ->
  scanDependencies_collect namespace_metadata_name st c = Some (Ok st') ->
  collected namespace_metadata_name cs root st st'
  /\ forall comp, cs !! c = Some comp ->
       Component.kind_ comp = Kind.NAMESPACE ->
       st'.2 !! namespace_metadata_name c = Some c.
Proof.
  intros Hshape Hc. unfold scanDependencies_collect.
  destruct (st.1 !! c) as [comp|] eqn:Hcomp.
  - destruct (same_shape_lookup _ _ _ _ (same_shape_sym _ _ Hshape) Hcomp)
      as (comp0 & Hcomp0 & Heq).
    destruct (shape_fields _ _ Heq) as (_ & _ & _ & Hkind & _).
    case_bool_decide as Hns; intros [= <-]; simpl.
    + split.
      * split; [done|]. split.
        -- intros k Hk. simpl.
           destruct (decide (k = namespace_metadata_name c)) as [->|Hne].
           ++ rewrite lookup_insert_eq. by eexists.
           ++ by rewrite lookup_insert_ne.
        -- intros k v. simpl.
           destruct (decide (k = namespace_metadata_name c)) as [->|Hne].
           ++ rewrite lookup_insert_eq. intros [= <-]. right.
              split; [done|]. split; [done|]. exists comp0. split; [done|].
              congruence.
           ++ rewrite lookup_insert_ne by done. by left.
      * intros _ _ _. by rewrite lookup_insert_eq.
    + split; [apply collected_refl|].
      intros comp1 Hcomp1 Hkind1. exfalso. apply Hns.
      assert (comp1 = comp0) as -> by congruence. congruence.
  - intros [= <-]. split; [apply collected_refl|].
    intros comp1 Hcomp1 _. exfalso.
    destruct (same_shape_lookup _ _ _ _ Hshape Hcomp1) as (c' & Hc' & _).
    congruence.
Qed.

(** After the first walk every Namespace component of the tree has its
    name in the map, bound to a Namespace component of that name. *)
Lemma scanDependencies_collect_finds (namespace_metadata_name : cid -> string)
    (depth : nat) (cs : gmap cid Component.t) (this root : cid)
    (st : gmap cid Component.t * gmap string cid) :
  getRoot cs this = Some root ->
  forAllComponents fst depth (scanDependencies_collect namespace_metadata_name)
    (cs, ∅) this = Some (Ok st) ->
  forall v comp,
    rtc (child cs) root v -> cs !! v = Some comp ->
    Component.kind_ comp = Kind.NAMESPACE ->
    exists v' comp',
      st.2 !! namespace_metadata_name v = Some v'
      /\ rtc (child cs) root v'
      /\ namespace_metadata_name v' = namespace_metadata_name v
      /\ cs !! v' = Some comp'
      /\ Component.kind_ comp' = Kind.NAMESPACE.
Proof.
  intros Hroot. unfold forAllComponents. simpl fst. rewrite Hroot.
  intros Hwalk v comp Hv Hcomp Hkind.
  destruct (walkAndExecuteFn_visits (S := gmap cid Component.t * gmap string cid)
              fst (scanDependencies_collect namespace_metadata_name) cs
              (fun x => rtc (child cs) root x)
              (collected namespace_metadata_name cs root)
              (collected_refl _ _ _) (collected_trans _ _ _)
              (fun st1 st2 H => eq_ind_r (fun m => same_shape st1.1 m)
                                  (same_shape_refl _) (proj1 H))
              (fun x y Hx Hy => rtc_r _ _ _ Hx Hy)
              (fun st1 c st2 Hs Hc Hfn =>
                 proj1 (scanDependencies_collect_collected _ cs root
                          st1 c st2 Hs Hc Hfn))
              depth (cs, ∅) root st (same_shape_refl cs) (rtc_refl _ _) Hwalk)
    as [Hall Heach].
  destruct (Heach v Hv) as (st1 & st2 & H1 & H2 & H3).
  assert (Hst1 : same_shape cs st1.1).
  { destruct H1 as [-> _]. apply same_shape_refl. }
  destruct (scanDependencies_collect_collected _ cs root st1 v st2 Hst1 Hv H2)
    as [_ Hins].
  specialize (Hins comp Hcomp Hkind).
  destruct H3 as (_ & Hkeys & _).
  destruct (Hkeys (namespace_metadata_name v)) as [v' Hv']; [by eexists|].
  destruct Hall as (_ & _ & Hentries).
  destruct (Hentries _ _ Hv') as [Hempty|(Hreach & Hname & comp' & Hc' & Hk')].
  { simpl in Hempty. by rewrite lookup_empty in Hempty. }
  exists v', comp'. by repeat split.
Qed.

Lemma namespace_tree_wf : tree_wf (fun x => x) namespace_tree.
Proof.
  intros x c Hc. unfold namespace_tree in Hc.
  destruct x as [|[|[|x]]]; simplify_map_eq.
  - split.
    + intros p Hp. vm_compute in Hp. discriminate Hp.
    + intros ch Hch. simpl in Hch.
      repeat (apply elem_of_cons in Hch as [->|Hch]; [lia|]).
      by apply elem_of_nil in Hch.
  - split.
    + intros p Hp. vm_compute in Hp. injection Hp as <-. lia.
    + intros ch Hch. simpl in Hch.
      repeat (apply elem_of_cons in Hch as [->|Hch]; [lia|]).
      by apply elem_of_nil in Hch.
  - split.
    + intros p Hp. vm_compute in Hp. injection Hp as <-. lia.
    + intros ch Hch. simpl in Hch.
      repeat (apply elem_of_cons in Hch as [->|Hch]; [lia|]).
      by apply elem_of_nil in Hch.
Qed.

Lemma namespace_tree_children : children_wf (fun x => 3 - x) namespace_tree.
Proof.
  intros x y (c & Hc & Hy). unfold namespace_tree in Hc.
  destruct x as [|[|[|x]]]; simplify_map_eq; simpl in Hy;
    repeat (apply elem_of_cons in Hy as [->|Hy];
            [split; [by eexists|lia]|]);
    by apply elem_of_nil in Hy.
Qed.

Lemma namespace_tree_child_2 : rtc (child namespace_tree) 0 2.
Proof.
  apply rtc_once. eexists. split; [reflexivity|]. set_solver.
Qed.

(** X29. If every Namespace component of the tree is in its own namespace
    ([getNamespace()] returns its [namespace_.metadata.name], and that is
    not empty) and the tree has one, [scanDependencies] on the root throws:
    the second walk makes the Namespace component depend on itself. *)
Theorem scanDependencies_own_namespace_throws (getNamespace : cid -> string)
    (namespace_metadata_name : cid -> string) (depends : cid -> list string)
    (level height : cid -> nat) (depth fuel : nat)
    (cs : gmap cid Component.t) (this v : cid) (comp : Component.t) :
  tree_wf level cs ->
  children_wf height cs ->
  (forall x, is_Some (cs !! x) -> height x < depth) ->
  height this < fuel ->
  parentPtr cs this = None ->
  (forall x cx, cs !! x = Some cx -> Component.kind_ cx = Kind.NAMESPACE ->
     getNamespace x = namespace_metadata_name x
     /\ namespace_metadata_name x <> EmptyString) ->
  rtc (child cs) this v ->
  cs !! v = Some comp ->
  Component.kind_ comp = Kind.NAMESPACE ->
  exists e,
    scanDependencies getNamespace namespace_metadata_name depends
      depth fuel cs this = Some (Throw e).
Proof.
  intros Htree Hwf Hdepth Hfuel Hroot Hown Hv Hcomp Hkind.
  assert (Hthis : is_Some (cs !! this)) by by eapply child_live.
  destruct (scanDependencies_returns_from getNamespace namespace_metadata_name
              depends cs level height depth Htree Hwf Hdepth fuel cs this
              (same_shape_refl cs) Hthis Hfuel) as [[cs'|e] Hscan];
    [exfalso|by exists e].
  destruct fuel as [|fuel]; [done|]. simpl in Hscan.
  destruct Hthis as [c Hc]. rewrite Hc in Hscan.
  unfold isRoot in Hscan. rewrite (bool_decide_eq_true_2 _ Hroot) in Hscan.
  pose proof (getRoot_own cs this Hroot) as Hgetroot.
  destruct (forAllComponents fst depth _ _ _) as [[st|e]|] eqn:Hfirst;
    simpl in Hscan; [|done..].
  destruct (scanDependencies_collect_finds _ _ _ _ _ _ Hgetroot Hfirst
              v comp Hv Hcomp Hkind)
    as (v' & comp' & Hbound & Hv' & Hname & Hcomp' & Hkind').
  assert (Hne : st.2 <> ∅).
  { intros Hempty. rewrite Hempty, lookup_empty in Hbound. done. }
  rewrite (bool_decide_eq_false_2 _ Hne) in Hscan. simpl in Hscan.
  destruct (forAllComponents id depth _ cs this) as [[cs1|e]|] eqn:Hsecond;
    simpl in Hscan; [|done..].
  unfold forAllComponents in Hsecond. unfold id at 1 in Hsecond.
  rewrite Hgetroot in Hsecond.
  set (reverse := match Component.mode_ c with
                  | Mode.REMOVE => true
                  | Mode.CREATE => false
                  end) in *.
  destruct (walkAndExecuteFn_visits (S := gmap cid Component.t) id
              (scanDependencies_namespace getNamespace st.2 reverse) cs
              (fun _ => True) scanned scanned_refl scanned_trans
              scanned_same_shape (fun _ _ _ _ => I)
              (fun st1 c1 st2 _ _ Hfn =>
                 scanDependencies_namespace_step getNamespace st.2 reverse
                   st1 c1 st2 Hfn)
              depth cs this cs1 (same_shape_refl cs) I Hsecond)
    as [_ Heach].
  destruct (Heach v' Hv') as (st1 & st2 & _ & Hstep & _).
  destruct (Hown v' comp' Hcomp' Hkind') as [Hget Hnonempty].
  unfold scanDependencies_namespace in Hstep.
  rewrite Hget, Hname in Hstep.
  rewrite Hname in Hnonempty.
  apply String.eqb_neq in Hnonempty. rewrite Hnonempty in Hstep.
  simpl in Hstep. rewrite Hbound in Hstep.
  unfold addDependency in Hstep.
  destruct (decide (v' = v')) as [_|Hdiff]; [|done].
  by destruct reverse.
Qed.

Lemma scanDependencies_own_namespace_throws_witness :
  exists e,
    scanDependencies (fun _ => "prod") (fun _ => "prod") (fun _ => [])
      4 4 namespace_tree 0
    = Some (Throw e).
Proof.
  apply (scanDependencies_own_namespace_throws _ _ _ (fun x => x)
           (fun x => 3 - x) 4 4 namespace_tree 0 2
           (plain_component "prod-ns" Kind.NAMESPACE (Some 0) [] ∅ ∅)).
  - exact namespace_tree_wf.
  - exact namespace_tree_children.
  - intros x _. lia.
  - simpl. lia.
  - reflexivity.
  - intros x cx _ _. split; [reflexivity|discriminate].
  - exact namespace_tree_child_2.
  - reflexivity.
  - reflexivity.
Defined.

(** ** Base64 *)

Lemma wrap_int_eq (z : Z) : exists q, wrap_int z = (z + 4294967296 * q)%Z.
Proof.
  exists (- ((z + 2 ^ 31) / 2 ^ 32))%Z. unfold wrap_int.
  change (2 ^ 31)%Z with 2147483648%Z. change (2 ^ 32)%Z with 4294967296%Z.
  Z.div_mod_to_equations. lia.
Qed.

Lemma wrap_int_small (z : Z) :
  (-2147483648 <= z < 2147483648)%Z -> wrap_int z = z.
Proof.
  intros Hz. unfold wrap_int.
  change (2 ^ 31)%Z with 2147483648%Z. change (2 ^ 32)%Z with 4294967296%Z.
  Z.div_mod_to_equations. lia.
Qed.

Lemma land_shiftr_digit (w k : Z) :
  (0 <= k)%Z -> Z.land (Z.shiftr w k) 0x3f = ((w / 2 ^ k) mod 64)%Z.
Proof.
  intros Hk. change 0x3f%Z with (Z.ones 6). rewrite Z.land_ones by lia.
  by rewrite Z.shiftr_div_pow2.
Qed.

Lemma uint8_of_bounded (ch : ascii) : (0 <= uint8_of ch < 256)%Z.
Proof. unfold uint8_of. pose proof (nat_ascii_bounded ch). lia. Qed.

(** The wrapped words of a goal, innermost first, as the exact sum plus a
    multiple of 2^32. *)
Ltac unwrap_int :=
  repeat match goal with
    | |- context [wrap_int ?x] =>
        lazymatch x with
        | context [wrap_int _] => fail
        | _ => let q := fresh "q" in destruct (wrap_int_eq x) as [q ->]
        end
    end.

Ltac wrap_closed :=
  repeat match goal with
    | |- context [wrap_int ?x] => rewrite (wrap_int_small x) by lia
    end;
  simpl.

Ltac digits :=
  rewrite ?land_shiftr_digit by lia;
  rewrite ?Z.shiftl_mul_pow2 by lia;
  unwrap_int;
  change (2 ^ 8)%Z with 256%Z; change (2 ^ 6)%Z with 64%Z;
  change (2 ^ 4)%Z with 16%Z; change (2 ^ 2)%Z with 4%Z;
  change (2 ^ 0)%Z with 1%Z;
  change (64 ^ 3)%Z with 262144%Z; change (64 ^ 2)%Z with 4096%Z;
  change (64 ^ 1)%Z with 64%Z; change (64 ^ 0)%Z with 1%Z;
  Z.div_mod_to_equations; lia.

(** The three steps of the loop through one group. Only the low bits of
    [val] reach the output, so what [val] has kept of earlier groups, and
    whether it has wrapped around, does not matter. *)
Lemma Base64Encode_loop_1 (a : ascii) (rest : string) (val : Z) (out : string) :
  exists val',
    Base64Encode_loop (String a rest) val (-6) out
    = Base64Encode_loop rest val' (-4)
        (push_back out (alphabeth_at (uint8_of a / 4)))
    /\ (val' mod 256 = uint8_of a)%Z.
Proof.
  pose proof (uint8_of_bounded a).
  eexists. split.
  - simpl. wrap_closed. simpl. wrap_closed.
    f_equal. f_equal. f_equal. digits.
  - digits.
Qed.

Lemma Base64Encode_loop_2 (a : Z) (b : ascii) (rest : string) (val : Z)
    (out : string) :
  (val mod 256 = a)%Z ->
  exists val',
    Base64Encode_loop (String b rest) val (-4) out
    = Base64Encode_loop rest val' (-2)
        (push_back out (alphabeth_at (a mod 4 * 16 + uint8_of b / 16)))
    /\ (val' mod 256 = uint8_of b)%Z.
Proof.
  intros Ha. pose proof (uint8_of_bounded b).
  eexists. split.
  - simpl. wrap_closed. simpl. wrap_closed.
    f_equal. f_equal. f_equal. digits.
  - digits.
Qed.

Lemma Base64Encode_loop_3 (b : Z) (c : ascii) (rest : string) (val : Z)
    (out : string) :
  (val mod 256 = b)%Z ->
  exists val',
    Base64Encode_loop (String c rest) val (-2) out
    = Base64Encode_loop rest val' (-6)
        (push_back
           (push_back out (alphabeth_at (b mod 16 * 4 + uint8_of c / 64)))
           (alphabeth_at (uint8_of c mod 64))).
Proof.
  intros Hb. pose proof (uint8_of_bounded c).
  eexists. simpl. wrap_closed. simpl. wrap_closed. simpl. wrap_closed.
  f_equal. f_equal; [f_equal|]; f_equal; digits.
Qed.

Lemma length_push_back (s : string) (ch : ascii) :
  String.length (push_back s ch) = S (String.length s).
Proof. unfold push_back. induction s; simpl; congruence. Qed.

Lemma Base64Encode_pad_spec (out : string) :
  Base64Encode_pad 3 out
  = match String.length out mod 4 with
    | 0 => out
    | 1 => out +:+ "==="
    | 2 => out +:+ "=="
    | _ => out +:+ "="
    end.
Proof.
  pose proof (Nat.mod_upper_bound (String.length out) 4).
  pose proof (Nat.div_mod_eq (String.length out) 4) as Hdiv.
  assert (Hnext : forall s k,
            String.length s mod 4 = k -> k < 3 ->
            String.length (push_back s "=") mod 4 = S k).
  { intros s k Hs Hk. rewrite length_push_back.
    pose proof (Nat.div_mod_eq (String.length s) 4) as Hs'. rewrite Hs in Hs'.
    replace (S (String.length s)) with (S k + (String.length s / 4) * 4) by lia.
    rewrite Nat.Div0.mod_add. apply Nat.mod_small. lia. }
  assert (Hlast : forall s,
            String.length s mod 4 = 3 ->
            String.length (push_back s "=") mod 4 = 0).
  { intros s Hs. rewrite length_push_back.
    pose proof (Nat.div_mod_eq (String.length s) 4) as Hs'. rewrite Hs in Hs'.
    replace (S (String.length s))
      with (0 + (S (String.length s / 4)) * 4) by lia.
    by rewrite Nat.Div0.mod_add. }
  assert (Hstep : forall n s,
            Base64Encode_pad (S n) s
            = if Nat.eqb (String.length s mod 4) 0 then s
              else Base64Encode_pad n (push_back s "=")) by done.
  destruct (String.length out mod 4) as [|[|[|[|k]]]] eqn:Hlen; [| | | |lia].
  - by rewrite Hstep, Hlen.
  - rewrite Hstep, Hlen. cbn [Nat.eqb].
    rewrite Hstep, (Hnext _ 1 Hlen) by lia. cbn [Nat.eqb].
    rewrite Hstep, (Hnext _ 2 (Hnext _ 1 Hlen ltac:(lia))) by lia.
    cbn [Nat.eqb Base64Encode_pad].
    unfold push_back. by rewrite !append_assoc.
  - rewrite Hstep, Hlen. cbn [Nat.eqb].
    rewrite Hstep, (Hnext _ 2 Hlen) by lia. cbn [Nat.eqb].
    rewrite Hstep, (Hlast _ (Hnext _ 2 Hlen ltac:(lia))).
    cbn [Nat.eqb].
    unfold push_back. by rewrite !append_assoc.
  - rewrite Hstep, Hlen. cbn [Nat.eqb].
    by rewrite Hstep, (Hlast _ Hlen).
Qed.

Lemma string_ind3 (P : string -> Prop) :
  P EmptyString ->
  (forall a, P (String a EmptyString)) ->
  (forall a b, P (String a (String b EmptyString))) ->
  (forall a b c s, P s -> P (String a (String b (String c s)))) ->
  forall s, P s.
Proof.
  intros H0 H1 H2 H3.
  assert (H : forall n s, String.length s < n -> P s).
  { induction n as [|n IH]; intros s Hs; [lia|].
    destruct s as [|a [|b [|c s]]]; auto.
    apply H3, IH. simpl in Hs. lia. }
  intros s. apply (H (S (String.length s))). lia.
Qed.

Lemma base64_digit_group (a b c : Z) :
  (0 <= a < 256)%Z -> (0 <= b < 256)%Z -> (0 <= c < 256)%Z ->
  let n := (a * 65536 + b * 256 + c)%Z in
  base64_digit n 3 = alphabeth_at (a / 4)
  /\ base64_digit n 2 = alphabeth_at (a mod 4 * 16 + b / 16)
  /\ base64_digit n 1 = alphabeth_at (b mod 16 * 4 + c / 64)
  /\ base64_digit n 0 = alphabeth_at (c mod 64).
Proof.
  intros Ha Hb Hc n. unfold base64_digit, n.
  repeat split; f_equal; digits.
Qed.

Lemma base64_digit_pair (a b : Z) :
  (0 <= a < 256)%Z -> (0 <= b < 256)%Z ->
  let n := ((a * 256 + b) * 4)%Z in
  base64_digit n 2 = alphabeth_at (a / 4)
  /\ base64_digit n 1 = alphabeth_at (a mod 4 * 16 + b / 16)
  /\ base64_digit n 0 = alphabeth_at (b mod 16 * 4).
Proof.
  intros Ha Hb n. unfold base64_digit, n.
  repeat split; f_equal; digits.
Qed.

Lemma base64_digit_single (a : Z) :
  (0 <= a < 256)%Z ->
  let n := (a * 16)%Z in
  base64_digit n 1 = alphabeth_at (a / 4)
  /\ base64_digit n 0 = alphabeth_at (a mod 4 * 16).
Proof.
  intros Ha n. unfold base64_digit, n.
  repeat split; f_equal; digits.
Qed.

(** The bits left over when the input does not end on a group. *)
Lemma Base64Encode_finish_1 (a val : Z) (out : string) :
  (val mod 256 = a)%Z ->
  Base64Encode_finish (val, (-4)%Z, out)
  = Base64Encode_pad 3 (push_back out (alphabeth_at (a mod 4 * 16))).
Proof.
  intros Ha. unfold Base64Encode_finish.
  change (-6 <? -4)%Z with true. cbv beta iota.
  rewrite (wrap_int_small (-4 + 8)) by lia. change (-4 + 8)%Z with 4%Z.
  f_equal. f_equal. f_equal. digits.
Qed.

Lemma Base64Encode_finish_2 (b val : Z) (out : string) :
  (val mod 256 = b)%Z ->
  Base64Encode_finish (val, (-2)%Z, out)
  = Base64Encode_pad 3 (push_back out (alphabeth_at (b mod 16 * 4))).
Proof.
  intros Hb. unfold Base64Encode_finish.
  change (-6 <? -2)%Z with true. cbv beta iota.
  rewrite (wrap_int_small (-2 + 8)) by lia. change (-2 + 8)%Z with 6%Z.
  f_equal. f_equal. f_equal. digits.
Qed.

Lemma Base64Encode_loop_groups (input : string) :
  forall (val : Z) (out : string),
    String.length out mod 4 = 0 ->
    Base64Encode_finish (Base64Encode_loop input val (-6) out)
    = out +:+ rfc4648_encode input.
Proof.
  induction input as [|a|a b|a b c rest IH] using string_ind3;
    intros val out Hout.
  - cbn [Base64Encode_loop]. unfold Base64Encode_finish.
    change (-6 <? -6)%Z with false. cbv beta iota.
    rewrite Base64Encode_pad_spec, Hout. by rewrite append_nil_r.
  - destruct (Base64Encode_loop_1 a EmptyString val out) as (v1 & -> & Hv1).
    simpl Base64Encode_loop.
    rewrite (Base64Encode_finish_1 _ _ _ Hv1), Base64Encode_pad_spec.
    rewrite !length_push_back.
    replace (S (S (String.length out)) mod 4) with 2; cycle 1.
    { pose proof (Nat.div_mod_eq (String.length out) 4) as Hd.
      rewrite Hout in Hd.
      replace (S (S (String.length out)))
        with (2 + (String.length out / 4) * 4) by lia.
      by rewrite Nat.Div0.mod_add. }
    destruct (base64_digit_single (uint8_of a) (uint8_of_bounded a))
      as (E1 & E0).
    simpl rfc4648_encode. rewrite E1, E0.
    by rewrite !push_back_append.
  - destruct (Base64Encode_loop_1 a (String b EmptyString) val out)
      as (v1 & -> & Hv1).
    destruct (Base64Encode_loop_2 _ b EmptyString v1
                (push_back out (alphabeth_at (uint8_of a / 4))) Hv1)
      as (v2 & -> & Hv2).
    simpl Base64Encode_loop.
    rewrite (Base64Encode_finish_2 _ _ _ Hv2), Base64Encode_pad_spec.
    rewrite !length_push_back.
    replace (S (S (S (String.length out))) mod 4) with 3; cycle 1.
    { pose proof (Nat.div_mod_eq (String.length out) 4) as Hd.
      rewrite Hout in Hd.
      replace (S (S (S (String.length out))))
        with (3 + (String.length out / 4) * 4) by lia.
      by rewrite Nat.Div0.mod_add. }
    destruct (base64_digit_pair (uint8_of a) (uint8_of b)
                (uint8_of_bounded a) (uint8_of_bounded b)) as (E2 & E1 & E0).
    simpl rfc4648_encode. rewrite E2, E1, E0.
    by rewrite !push_back_append.
  - destruct (Base64Encode_loop_1 a (String b (String c rest)) val out)
      as (v1 & -> & Hv1).
    destruct (Base64Encode_loop_2 _ b (String c rest) v1
                (push_back out (alphabeth_at (uint8_of a / 4))) Hv1)
      as (v2 & -> & Hv2).
    destruct (Base64Encode_loop_3 _ c rest v2
                (push_back
                   (push_back out (alphabeth_at (uint8_of a / 4)))
                   (alphabeth_at (uint8_of a mod 4 * 16 + uint8_of b / 16)))
                Hv2) as (v3 & ->).
    rewrite IH; cycle 1.
    { rewrite !length_push_back.
      pose proof (Nat.div_mod_eq (String.length out) 4) as Hd.
      rewrite Hout in Hd.
      replace (S (S (S (S (String.length out)))))
        with (0 + (S (String.length out / 4)) * 4) by lia.
      by rewrite Nat.Div0.mod_add. }
    destruct (base64_digit_group (uint8_of a) (uint8_of b) (uint8_of c)
                (uint8_of_bounded a) (uint8_of_bounded b)
                (uint8_of_bounded c)) as (E3 & E2 & E1 & E0).
    change (rfc4648_encode (String a (String b (String c rest))))
      with (String (base64_digit (uint8_of a * 65536 + uint8_of b * 256 + uint8_of c) 3)
        (String (base64_digit (uint8_of a * 65536 + uint8_of b * 256 + uint8_of c) 2)
           (String (base64_digit (uint8_of a * 65536 + uint8_of b * 256 + uint8_of c) 1)
              (String (base64_digit (uint8_of a * 65536 + uint8_of b * 256 + uint8_of c) 0)
                 (rfc4648_encode rest))))).
    rewrite E3, E2, E1, E0.
    by rewrite !push_back_append.
Qed.

(** X1. [Base64Encode] is the Base64 encoding of RFC 4648, for inputs of any
    length: the accumulator [val] is never cleared and wraps around after
    four bytes, but the output reads only its low twelve bits. *)
Theorem Base64Encode_is_rfc4648 (input : string) :
  Base64Encode input = rfc4648_encode input.
Proof.
  unfold Base64Encode.
  by rewrite (Base64Encode_loop_groups input 0 EmptyString eq_refl).
Qed.

(** X2. The output is four characters for every three bytes of input, the
    last group rounded up: its length is always a multiple of four. *)
Theorem Base64Encode_length (input : string) :
  String.length (Base64Encode input) = 4 * ((String.length input + 2) / 3).
Proof.
  unfold Base64Encode.
  rewrite (Base64Encode_loop_groups input 0 EmptyString eq_refl).
  rewrite append_nil_l.
  induction input as [|a|a b|a b c rest IH] using string_ind3; [done..|].
  cbn [rfc4648_encode String.length]. rewrite IH.
  replace (S (S (S (String.length rest))) + 2)
    with ((String.length rest + 2) + 1 * 3) by lia.
  rewrite Nat.div_add by lia. lia.
Qed.

(** The digits of the alphabet are distinct, and none of them is '='. *)
Lemma alphabeth_at_index (i : Z) :
  (0 <= i < 64)%Z ->
  index_of (alphabeth_at i) alphabeth = Some (Z.to_nat i).
Proof.
  intros Hi.
  assert (Hall : forallb
            (fun n => bool_decide
               (index_of (alphabeth_at (Z.of_nat n)) alphabeth = Some n))
            (seq 0 64) = true) by (vm_compute; reflexivity).
  rewrite forallb_forall in Hall.
  specialize (Hall (Z.to_nat i)).
  rewrite Z2Nat.id in Hall by lia.
  eapply bool_decide_eq_true_1, Hall, in_seq. lia.
Qed.

Lemma alphabeth_at_inj (i j : Z) :
  (0 <= i < 64)%Z -> (0 <= j < 64)%Z ->
  alphabeth_at i = alphabeth_at j -> i = j.
Proof.
  intros Hi Hj Heq.
  pose proof (alphabeth_at_index i Hi) as Hi'.
  rewrite Heq, (alphabeth_at_index j Hj) in Hi'.
  injection Hi' as Hi'. lia.
Qed.

Lemma alphabeth_at_not_pad (i : Z) :
  (0 <= i < 64)%Z -> alphabeth_at i <> "="%char.
Proof.
  intros Hi Heq. pose proof (alphabeth_at_index i Hi) as Hi'.
  rewrite Heq in Hi'. vm_compute in Hi'. discriminate.
Qed.

Lemma base64_digit_inj (n m i : Z) :
  base64_digit n i = base64_digit m i ->
  ((n / 64 ^ i) mod 64 = (m / 64 ^ i) mod 64)%Z.
Proof.
  unfold base64_digit.
  apply alphabeth_at_inj; apply Z.mod_pos_bound; lia.
Qed.

Lemma base64_digit_not_pad (n i : Z) : base64_digit n i <> "="%char.
Proof. apply alphabeth_at_not_pad, Z.mod_pos_bound. lia. Qed.

Lemma uint8_of_inj (a b : ascii) : uint8_of a = uint8_of b -> a = b.
Proof.
  unfold uint8_of. intros H%Nat2Z.inj.
  by rewrite <- (ascii_nat_embedding a), <- (ascii_nat_embedding b), H.
Qed.

Lemma String_inj4 (a b c d a' b' c' d' : ascii) (s s' : string) :
  String a (String b (String c (String d s)))
  = String a' (String b' (String c' (String d' s'))) ->
  a = a' /\ b = b' /\ c = c' /\ d = d' /\ s = s'.
Proof. intros [= -> -> -> -> ->]. done. Qed.

Lemma rfc4648_encode_inj (a : string) :
  forall b, rfc4648_encode a = rfc4648_encode b -> a = b.
Proof.
  induction a as [|a0|a0 a1|a0 a1 a2 a IH] using string_ind3;
    intros [|b0 [|b1 [|b2 b]]]; cbn [rfc4648_encode]; intros Heq;
    try discriminate Heq; try done;
    apply String_inj4 in Heq as (E3 & E2 & E1 & E0 & Erest);
    try (by destruct (base64_digit_not_pad _ _ E1));
    try (by destruct (base64_digit_not_pad _ _ (eq_sym E1)));
    try (by destruct (base64_digit_not_pad _ _ E0));
    try (by destruct (base64_digit_not_pad _ _ (eq_sym E0))).
  - apply base64_digit_inj in E3, E2.
    f_equal. apply uint8_of_inj.
    pose proof (uint8_of_bounded a0). pose proof (uint8_of_bounded b0).
    revert E3 E2. change (64 ^ 1)%Z with 64%Z. change (64 ^ 0)%Z with 1%Z.
    Z.div_mod_to_equations. lia.
  - apply base64_digit_inj in E3, E2, E1.
    pose proof (uint8_of_bounded a0). pose proof (uint8_of_bounded b0).
    pose proof (uint8_of_bounded a1). pose proof (uint8_of_bounded b1).
    assert (uint8_of a0 = uint8_of b0 /\ uint8_of a1 = uint8_of b1) as [Ha Hb].
    { revert E3 E2 E1. change (64 ^ 2)%Z with 4096%Z.
      change (64 ^ 1)%Z with 64%Z. change (64 ^ 0)%Z with 1%Z.
      Z.div_mod_to_equations. lia. }
    by rewrite (uint8_of_inj _ _ Ha), (uint8_of_inj _ _ Hb).
  - apply base64_digit_inj in E3, E2, E1, E0.
    pose proof (uint8_of_bounded a0). pose proof (uint8_of_bounded b0).
    pose proof (uint8_of_bounded a1). pose proof (uint8_of_bounded b1).
    pose proof (uint8_of_bounded a2). pose proof (uint8_of_bounded b2).
    assert (uint8_of a0 = uint8_of b0 /\ uint8_of a1 = uint8_of b1
            /\ uint8_of a2 = uint8_of b2) as (Ha & Hb & Hc).
    { revert E3 E2 E1 E0. change (64 ^ 3)%Z with 262144%Z.
      change (64 ^ 2)%Z with 4096%Z.
      change (64 ^ 1)%Z with 64%Z. change (64 ^ 0)%Z with 1%Z.
      Z.div_mod_to_equations. lia. }
    rewrite (uint8_of_inj _ _ Ha), (uint8_of_inj _ _ Hb), (uint8_of_inj _ _ Hc).
    do 3 f_equal. by apply IH.
Qed.

(** X3. Different inputs have different encodings, so the input can be
    read back from the output. *)
Theorem Base64Encode_injective (a b : string) :
  a <> b -> Base64Encode a <> Base64Encode b.
Proof.
  intros Hne Heq. apply Hne, rfc4648_encode_inj.
  unfold Base64Encode in Heq.
  by rewrite !(Base64Encode_loop_groups _ 0 EmptyString eq_refl),
             !append_nil_l in Heq.
Qed.

Lemma Base64Encode_injective_witness :
  Base64Encode "Ma" <> Base64Encode "Mb".
Proof. apply Base64Encode_injective. discriminate. Defined.
